(** * Grepper: traversal, matching and streaming workers

    A shallow embedding of the search core of [grepper.py]: the ignore-rule
    engine ([load_gitignore_rules], [gitignore_ignored]), the traversal
    ([_walk_with_depth] over [os.walk]), the three workers ([_worker_text],
    [_worker_file], [_worker_folder]) and the command line built for the
    external backend ([_worker_text_ripgrep]).

    Conventions.
    - A Python [str] is a list of 8-bit characters ([str] below); text is
      ASCII: [lower] folds A-Z only and a word character is [A-Za-z0-9_].
    - The Python library functions the source calls ([re], [fnmatch],
      [os.walk], [str] methods) are modelled from their documented
      behaviour, for the subset of syntax listed at each definition.
    - The file system is an explicit tree handed to the traversal.
    - The run state ([TabState]'s queues, counters and events) is threaded
      explicitly; a cancellation raised by the consumer is an oracle over
      the worker's successive reads of [stop_event]. *)

From Stdlib Require Import Ascii String.
From Stdlib Require Import List Bool Arith Lia ZArith QArith DecimalString.
Import ListNotations.
Close Scope Q_scope.
Close Scope Z_scope.
Open Scope string_scope.
Open Scope nat_scope.
Open Scope list_scope.

Set Implicit Arguments.

(* ================================================================== *)
(** ** Python strings *)

Definition str := list ascii.

Definition s_ (s : string) : str := list_ascii_of_string s.
Coercion s_ : string >-> str.

Definition ch (n : nat) : ascii := ascii_of_nat n.

Definition c_nl : ascii := ch 10.
Definition c_bslash : ascii := ch 92.
Definition c_slash : ascii := ch 47.

Definition code (c : ascii) : nat := nat_of_ascii c.

Definition in_range (lo hi : nat) (c : ascii) : bool :=
  (lo <=? code c) && (code c <=? hi).

Definition is_upper (c : ascii) : bool := in_range 65 90 c.
Definition is_lower (c : ascii) : bool := in_range 97 122 c.
Definition is_digit (c : ascii) : bool := in_range 48 57 c.
Definition is_alpha (c : ascii) : bool := is_upper c || is_lower c.

(** [\w] without re.ASCII restricted to the ASCII repertoire. *)
Definition is_word (c : ascii) : bool :=
  is_alpha c || is_digit c || (c =? "_")%char.

(** [str.isspace] and [\s] on the ASCII repertoire: space, \t \n \v \f \r
    and the four separators 0x1c-0x1f. *)
Definition is_space (c : ascii) : bool :=
  (c =? " ")%char || in_range 9 13 c || in_range 28 31 c.

Definition lower_char (c : ascii) : ascii :=
  if is_upper c then ch (code c + 32) else c.

Definition upper_char (c : ascii) : ascii :=
  if is_lower c then ch (code c - 32) else c.

(** [str.lower()] *)
Definition lower (s : str) : str := map lower_char s.

Fixpoint str_eqb (a b : str) : bool :=
  match a, b with
  | [], [] => true
  | x :: a', y :: b' => (x =? y)%char && str_eqb a' b'
  | _, _ => false
  end.

(** [s.startswith(p)] *)
Fixpoint startswith (p s : str) : bool :=
  match p, s with
  | [], _ => true
  | x :: p', y :: s' => (x =? y)%char && startswith p' s'
  | _ :: _, [] => false
  end.

(** [s.endswith(p)] *)
Definition endswith (p s : str) : bool := startswith (rev p) (rev s).

(** [needle in hay] *)
Fixpoint contains (needle hay : str) : bool :=
  startswith needle hay ||
  match hay with
  | [] => false
  | _ :: hay' => contains needle hay'
  end.

(** [c in s] for a one-character [c]. *)
Definition has_char (c : ascii) (s : str) : bool :=
  existsb (fun d => (d =? c)%char) s.

(** [s.count(c)] for a one-character [c]. *)
Definition count_char (c : ascii) (s : str) : nat :=
  length (filter (fun d => (d =? c)%char) s).

Fixpoint lstrip_by (p : ascii -> bool) (s : str) : str :=
  match s with
  | c :: s' => if p c then lstrip_by p s' else s
  | [] => []
  end.

Definition rstrip_by (p : ascii -> bool) (s : str) : str :=
  rev (lstrip_by p (rev s)).

(** [s.strip()] *)
Definition strip (s : str) : str := rstrip_by is_space (lstrip_by is_space s).

(** [s.rstrip(c)] for a one-character [c]. *)
Definition rstrip_char (c : ascii) (s : str) : str :=
  rstrip_by (fun d => (d =? c)%char) s.

(** [s.rsplit(c, 1)[-1]]: the part after the last [c], or all of [s]. *)
Fixpoint after_last (c : ascii) (s : str) : str :=
  match s with
  | [] => []
  | d :: s' =>
      if has_char c s' then after_last c s'
      else if (d =? c)%char then s' else s
  end.

(** [s.split(c)] for a one-character [c]. *)
Fixpoint split_on (c : ascii) (s : str) : list str :=
  match s with
  | [] => [[]]
  | d :: s' =>
      match split_on c s' with
      | [] => [[]]
      | w :: ws => if (d =? c)%char then [] :: w :: ws else (d :: w) :: ws
      end
  end.

(** Iterating a text file: each line keeps its terminating newline.
    Lines end in [\n]; the translation of other line endings by the
    text layer is not modelled. *)
Fixpoint lines_from (cur : str) (s : str) : list str :=
  match s with
  | [] => match cur with [] => [] | _ => [rev cur] end
  | c :: s' =>
      if (c =? c_nl)%char then rev (c :: cur) :: lines_from [] s'
      else lines_from (c :: cur) s'
  end.

Definition readlines (s : str) : list str := lines_from [] s.

(* ================================================================== *)
(** ** The [re] module (subset)

    Syntax covered: literals, [.], [^], [$], the escapes
    [\b \B \A \Z \d \D \s \S \w \W \a \f \n \r \t \v], an escaped
    punctuation character, character sets with ranges and negation,
    groups [( )] and [(?: )], alternation, and the repeats [* + ?] and
    [{m,n}] with an optional lazy mark.  Anything else (back-references,
    look-around, inline flags, numeric escapes, named groups, possessive
    repeats, more than [max_groups] opening parentheses, a repeat count
    of more than [max_str_digits] digits) is outside the model: the
    parser answers [Unsupported] and [re_compile] leaves the pattern to
    the host's [re], a parameter of the model. *)

(** The kinds of [re.error] the parser raises; [HostError] carries the
    message of one the host raised. *)
Inductive re_error :=
| BadEscape | NothingToRepeat | MultipleRepeat | MinGreaterThanMax
| UnbalancedParenthesis | MissingParenthesis
| UnterminatedSet | BadRange
| HostError (msg : str).

(** How a call into [re] fails: with [re.error], which the workers
    catch, or with another exception ([OverflowError] for a repeat count
    of [MAXREPEAT] or more, [RecursionError], ...), which they do not.
    [Unsupported] and [OutOfFuel] are the parser's own and never leave
    [re_compile]. *)
Inductive failure :=
| ReError (e : re_error)
| OtherException
| Unsupported
| OutOfFuel.

Coercion ReError : re_error >-> failure.

Inductive result (A : Type) :=
| Ok (a : A)
| Err (e : failure).
Arguments Err {A} e.

Definition rbind {A B} (r : result A) (f : A -> result B) : result B :=
  match r with
  | Ok a => f a
  | Err e => Err e
  end.

Notation "'do' x <- r ; k" := (rbind r (fun x => k))
  (at level 10, x pattern, r at level 100, k at level 200).

Inductive category := CatDigit | CatSpace | CatWord.

Inductive set_item :=
| SChar (c : ascii)
| SRange (lo hi : ascii)
| SCat (neg : bool) (k : category).

Inductive at_code :=
| AtBeginning        (* ^  *)
| AtEnd              (* $  *)
| AtBeginningString  (* \A *)
| AtEndString        (* \Z *)
| AtBoundary         (* \b *)
| AtNonBoundary.     (* \B *)

Inductive regex :=
| REmpty
| RLit (c : ascii)
| RAny
| RIn (neg : bool) (items : list set_item)
| RAt (a : at_code)
| RCat (r1 r2 : regex)
| RAlt (r1 r2 : regex)
| RGroup (r : regex)
| RRepeat (lo : nat) (hi : option nat) (r : regex).

(** *** Tokens: a backslash and the character after it form one token. *)

Inductive token :=
| TChar (c : ascii)
| TEsc (c : ascii).

Fixpoint tokenize (s : str) : result (list token) :=
  match s with
  | [] => Ok []
  | c :: s' =>
      if (c =? c_bslash)%char then
        match s' with
        | [] => Err BadEscape            (* bad escape (end of pattern) *)
        | d :: s'' => do ts <- tokenize s''; Ok (TEsc d :: ts)
        end
      else do ts <- tokenize s'; Ok (TChar c :: ts)
  end.

(** *** Escapes ([_escape] and [_class_escape] of the parser) *)

Definition mem_char (c : ascii) (s : str) : bool := has_char c s.

Definition escape_code (c : ascii) : result regex :=
  if (c =? "A")%char then Ok (RAt AtBeginningString)
  else if (c =? "Z")%char then Ok (RAt AtEndString)
  else if (c =? "b")%char then Ok (RAt AtBoundary)
  else if (c =? "B")%char then Ok (RAt AtNonBoundary)
  else if (c =? "d")%char then Ok (RIn false [SCat false CatDigit])
  else if (c =? "D")%char then Ok (RIn false [SCat true CatDigit])
  else if (c =? "s")%char then Ok (RIn false [SCat false CatSpace])
  else if (c =? "S")%char then Ok (RIn false [SCat true CatSpace])
  else if (c =? "w")%char then Ok (RIn false [SCat false CatWord])
  else if (c =? "W")%char then Ok (RIn false [SCat true CatWord])
  else if (c =? "a")%char then Ok (RLit (ch 7))
  else if (c =? "f")%char then Ok (RLit (ch 12))
  else if (c =? "n")%char then Ok (RLit (ch 10))
  else if (c =? "r")%char then Ok (RLit (ch 13))
  else if (c =? "t")%char then Ok (RLit (ch 9))
  else if (c =? "v")%char then Ok (RLit (ch 11))
  else if mem_char c "xuUN" || is_digit c then Err Unsupported
  else if is_alpha c then Err BadEscape
  else Ok (RLit c).

Definition class_escape_code (c : ascii) : result set_item :=
  if (c =? "d")%char then Ok (SCat false CatDigit)
  else if (c =? "D")%char then Ok (SCat true CatDigit)
  else if (c =? "s")%char then Ok (SCat false CatSpace)
  else if (c =? "S")%char then Ok (SCat true CatSpace)
  else if (c =? "w")%char then Ok (SCat false CatWord)
  else if (c =? "W")%char then Ok (SCat true CatWord)
  else if (c =? "a")%char then Ok (SChar (ch 7))
  else if (c =? "b")%char then Ok (SChar (ch 8))
  else if (c =? "f")%char then Ok (SChar (ch 12))
  else if (c =? "n")%char then Ok (SChar (ch 10))
  else if (c =? "r")%char then Ok (SChar (ch 13))
  else if (c =? "t")%char then Ok (SChar (ch 9))
  else if (c =? "v")%char then Ok (SChar (ch 11))
  else if mem_char c "xuUN" || is_digit c then Err Unsupported
  else if is_alpha c then Err BadEscape
  else Ok (SChar c).

Definition class_code (t : token) : result set_item :=
  match t with
  | TChar c => Ok (SChar c)
  | TEsc c => class_escape_code c
  end.

Definition is_tchar (c : ascii) (t : token) : bool :=
  match t with
  | TChar d => (d =? c)%char
  | TEsc _ => false
  end.

(** *** Character sets: the tokens after the opening bracket (and after a
    negating caret), up to the closing bracket. *)

Fixpoint parse_set_items (acc : list set_item) (ts : list token)
  : result (list set_item * list token) :=
  match ts with
  | [] => Err UnterminatedSet
  | t :: ts1 =>
      if is_tchar "]" t && negb (match acc with [] => true | _ => false end)
      then Ok (rev acc, ts1)
      else
        match class_code t with
        | Err e => Err e
        | Ok code1 =>
            match ts1 with
            | TChar d :: ts2 =>
                if (d =? "-")%char then
                  match ts2 with
                  | [] => Err UnterminatedSet
                  | t2 :: ts3 =>
                      if is_tchar "]" t2
                      then Ok (rev (SChar "-" :: code1 :: acc), ts3)
                      else
                        match class_code t2 with
                        | Err e => Err e
                        | Ok code2 =>
                            match code1, code2 with
                            | SChar lo, SChar hi =>
                                if code hi <? code lo then Err BadRange
                                else parse_set_items (SRange lo hi :: acc) ts3
                            | _, _ => Err BadRange
                            end
                        end
                  end
                else parse_set_items (code1 :: acc) ts1
            | _ => parse_set_items (code1 :: acc) ts1
            end
        end
  end.

Definition parse_set (ts : list token) : result (regex * list token) :=
  match ts with
  | TChar c :: ts' =>
      if (c =? "^")%char
      then do (items, rest) <- parse_set_items [] ts'; Ok (RIn true items, rest)
      else do (items, rest) <- parse_set_items [] ts; Ok (RIn false items, rest)
  | _ => do (items, rest) <- parse_set_items [] ts; Ok (RIn false items, rest)
  end.

(** *** Repeats *)

(** [_sre.MAXREPEAT] of a 64-bit build. *)
Definition MAXREPEAT : N := 4294967295.

(** [sys.get_int_max_str_digits()]: [int] raises [ValueError] on a longer
    digit string where the limit exists. *)
Definition max_str_digits : nat := 4300.

(** The digits at the head of [ts]: how many there are and their value. *)
Fixpoint take_digits (acc : N) (seen : nat) (ts : list token)
  : nat * N * list token :=
  match ts with
  | TChar c :: ts' =>
      if is_digit c
      then take_digits (10 * acc + N.of_nat (code c - 48)) (S seen) ts'
      else (seen, acc, ts)
  | _ => (seen, acc, ts)
  end.

(** [int(lo)] and the test against [MAXREPEAT] that follows it; [None]
    for the empty string, which is not converted. *)
Definition repeat_count (digits : nat) (value : N) : result (option N) :=
  if digits =? 0 then Ok None
  else if max_str_digits <? digits then Err Unsupported
  else if (MAXREPEAT <=? value)%N then Err OtherException
  else Ok (Some value).

(** What follows an opening brace: [Some] when it closes as a repeat.
    The two counts are converted, and refused when too large, in turn;
    then the bounds are compared. *)
Definition brace_spec (ts : list token)
  : option (result (nat * option nat * list token)) :=
  match ts with
  | TChar c :: _ =>
      if (c =? "}")%char then None
      else
        let '(lo, r1) := take_digits 0 0 ts in
        let '(hi, r2) :=
          match r1 with
          | TChar d :: r1' =>
              if (d =? ",")%char then take_digits 0 0 r1' else (lo, r1)
          | _ => (lo, r1)
          end in
        match r2 with
        | TChar e :: rest =>
            if (e =? "}")%char then
              Some (do mn <- repeat_count (fst lo) (snd lo);
                    do mx <- repeat_count (fst hi) (snd hi);
                    let mn := match mn with Some n => n | None => 0%N end in
                    match mx with
                    | Some mx =>
                        if (mx <? mn)%N then Err MinGreaterThanMax
                        else Ok (N.to_nat mn, Some (N.to_nat mx), rest)
                    | None => Ok (N.to_nat mn, None, rest)
                    end)
            else None
        | _ => None
        end
  | _ => None
  end.

Definition repeat_spec (ts : list token)
  : option (result (nat * option nat * list token)) :=
  match ts with
  | TChar c :: rest =>
      if (c =? "*")%char then Some (Ok (0, None, rest))
      else if (c =? "+")%char then Some (Ok (1, None, rest))
      else if (c =? "?")%char then Some (Ok (0, Some 1, rest))
      else if (c =? "{")%char then brace_spec rest
      else None
  | _ => None
  end.

Definition is_at (r : regex) : bool :=
  match r with RAt _ => true | _ => false end.

(** A parsed item followed by an optional repeat and its lazy mark; a
    possessive mark is outside the model.  A second repeat is read, and
    its counts checked, before it is refused. *)
Definition apply_repeat (a : regex) (ts : list token)
  : result (regex * list token) :=
  match repeat_spec ts with
  | None => Ok (a, ts)
  | Some (Err e) => Err e
  | Some (Ok (lo, hi, rest)) =>
      if is_at a then Err NothingToRepeat
      else
        let after :=
          match rest with
          | TChar c :: rest' =>
              if (c =? "?")%char then Ok rest'
              else if (c =? "+")%char then Err Unsupported
              else Ok rest
          | _ => Ok rest
          end in
        do rest1 <- after;
        match repeat_spec rest1 with
        | Some (Err e) => Err e
        | Some (Ok _) => Err MultipleRepeat
        | None => Ok (RRepeat lo hi a, rest1)
        end
  end.

(** *** Items, sequences and alternatives ([_parse] and [_parse_sub]) *)

Definition parser := list token -> result (regex * list token).

(** One item starting at token [t]; [sub] parses the body of a group. *)
Definition parse_atom (sub : parser) (t : token) (rest : list token)
  : result (regex * list token) :=
  match t with
  | TEsc c => do r <- escape_code c; Ok (r, rest)
  | TChar c =>
      if (c =? "[")%char then parse_set rest
      else if (c =? "(")%char then
        let body :=
          match rest with
          | TChar q :: rest1 =>
              if (q =? "?")%char then
                match rest1 with
                | TChar k :: rest2 =>
                    if (k =? ":")%char then Ok rest2 else Err Unsupported
                | _ => Err Unsupported
                end
              else Ok rest
          | _ => Ok rest
          end in
        do inner <- body;
        do (r, rest3) <- sub inner;
        match rest3 with
        | TChar e :: rest4 =>
            if (e =? ")")%char then Ok (RGroup r, rest4)
            else Err MissingParenthesis
        | _ => Err MissingParenthesis
        end
      else if (c =? ".")%char then Ok (RAny, rest)
      else if (c =? "^")%char then Ok (RAt AtBeginning, rest)
      else if (c =? "$")%char then Ok (RAt AtEnd, rest)
      else
        match repeat_spec (t :: rest) with
        | Some (Err e) => Err e
        | Some (Ok _) => Err NothingToRepeat
        | None => Ok (RLit c, rest)
        end
  end.

Definition ends_sequence (t : token) : bool :=
  is_tchar "|" t || is_tchar ")" t.

Fixpoint parse_sub (fuel : nat) (ts : list token) {struct fuel}
  : result (regex * list token) :=
  match fuel with
  | 0 => Err OutOfFuel
  | S n =>
      do (r1, rest) <- parse_seq n ts;
      match rest with
      | t :: rest' =>
          if is_tchar "|" t
          then do (r2, rest2) <- parse_sub n rest'; Ok (RAlt r1 r2, rest2)
          else Ok (r1, rest)
      | [] => Ok (r1, rest)
      end
  end
with parse_seq (fuel : nat) (ts : list token) {struct fuel}
  : result (regex * list token) :=
  match fuel with
  | 0 => Err OutOfFuel
  | S n =>
      match ts with
      | [] => Ok (REmpty, [])
      | t :: rest =>
          if ends_sequence t then Ok (REmpty, ts)
          else
            do (a, rest1) <- parse_atom (parse_sub n) t rest;
            do (a', rest2) <- apply_repeat a rest1;
            do (r, rest3) <- parse_seq n rest2;
            Ok (RCat a' r, rest3)
      end
  end.

(** The parser recurses once per nested group; a pattern with more than
    [max_groups] opening parentheses is left to the host, which may run
    out of stack on it. *)
Definition max_groups : nat := 32.

Definition open_groups (ts : list token) : nat :=
  length (filter (is_tchar "(") ts).

(** [sre_parse.parse] on the tokens: the whole pattern must be
    consumed. *)
Definition parse_tokens (ts : list token) : result regex :=
  if max_groups <? open_groups ts then Err Unsupported
  else
    do (r, rest) <- parse_sub (2 * length ts + 2) ts;
    match rest with
    | [] => Ok r
    | _ :: _ => Err UnbalancedParenthesis
    end.

(** [sre_parse.parse].  The tokenizer reads one token ahead, so a lone
    backslash at the end is reported when the token before it is taken:
    it is the error of the pattern when what precedes it parses, and
    otherwise the pattern is left to the host. *)
Definition re_parse (s : str) : result regex :=
  match tokenize s with
  | Ok ts => parse_tokens ts
  | Err _ =>
      match tokenize (removelast s) with
      | Ok ts =>
          match parse_tokens ts with
          | Ok _ => Err BadEscape
          | Err _ => Err Unsupported
          end
      | Err _ => Err Unsupported
      end
  end.

(** *** Matching

    A position in the subject is the character before it (if any) and the
    text after it; that is all the assertions look at. *)

Definition in_category (k : category) (c : ascii) : bool :=
  match k with
  | CatDigit => is_digit c
  | CatSpace => is_space c
  | CatWord => is_word c
  end.

Definition item_has (it : set_item) (c : ascii) : bool :=
  match it with
  | SChar d => (d =? c)%char
  | SRange lo hi => (code lo <=? code c) && (code c <=? code hi)
  | SCat neg k => xorb neg (in_category k c)
  end.

Definition set_has (ic : bool) (items : list set_item) (c : ascii) : bool :=
  existsb (fun it => item_has it c) items ||
  (ic && (existsb (fun it => item_has it (lower_char c)) items
          || existsb (fun it => item_has it (upper_char c)) items)).

Definition lit_eq (ic : bool) (c d : ascii) : bool :=
  if ic then (lower_char c =? lower_char d)%char else (c =? d)%char.

Definition word_before (prev : option ascii) : bool :=
  match prev with Some c => is_word c | None => false end.

Definition word_after (rest : str) : bool :=
  match rest with c :: _ => is_word c | [] => false end.

Definition at_boundary (prev : option ascii) (rest : str) : bool :=
  xorb (word_before prev) (word_after rest).

Definition at_holds (a : at_code) (prev : option ascii) (rest : str) : bool :=
  match a with
  | AtBeginning | AtBeginningString =>
      match prev with None => true | Some _ => false end
  | AtEndString => match rest with [] => true | _ => false end
  | AtEnd =>
      match rest with
      | [] => true
      | [c] => (c =? c_nl)%char
      | _ => false
      end
  | AtBoundary => at_boundary prev rest
  | AtNonBoundary =>
      (* in an empty subject neither [\b] nor [\B] holds *)
      negb (at_boundary prev rest)
      && negb (match prev, rest with None, [] => true | _, _ => false end)
  end.

Definition cont := option ascii -> str -> bool.

(** Repetition of the matcher [body]: [done] iterations so far; past the
    minimum an iteration has to consume text. *)
Fixpoint repeat_loop (body : option ascii -> str -> cont -> bool)
    (lo : nat) (hi : option nat) (fuel done : nat)
    (prev : option ascii) (s : str) (k : cont) : bool :=
  ((lo <=? done) && k prev s) ||
  match fuel with
  | 0 => false
  | S fuel' =>
      (match hi with Some h => done <? h | None => true end) &&
      body prev s (fun prev' s' =>
        ((done <? lo) || (length s' <? length s)) &&
        repeat_loop body lo hi fuel' (S done) prev' s' k)
  end.

Fixpoint rmatch (ic : bool) (r : regex) (prev : option ascii) (s : str)
    (k : cont) : bool :=
  match r with
  | REmpty => k prev s
  | RLit c =>
      match s with
      | d :: s' => lit_eq ic c d && k (Some d) s'
      | [] => false
      end
  | RAny =>
      match s with
      | d :: s' => negb (d =? c_nl)%char && k (Some d) s'
      | [] => false
      end
  | RIn neg items =>
      match s with
      | d :: s' => xorb neg (set_has ic items d) && k (Some d) s'
      | [] => false
      end
  | RAt a => at_holds a prev s && k prev s
  | RCat r1 r2 => rmatch ic r1 prev s (fun p' s' => rmatch ic r2 p' s' k)
  | RAlt r1 r2 => rmatch ic r1 prev s k || rmatch ic r2 prev s k
  | RGroup r1 => rmatch ic r1 prev s k
  | RRepeat lo hi r1 =>
      repeat_loop (rmatch ic r1) lo hi (lo + length s) 0 prev s k
  end.

Definition match_here (ic : bool) (r : regex) (prev : option ascii) (s : str)
  : bool :=
  rmatch ic r prev s (fun _ _ => true).

Fixpoint search_from (ic : bool) (r : regex) (prev : option ascii) (s : str)
  : bool :=
  match_here ic r prev s ||
  match s with
  | [] => false
  | c :: s' => search_from ic r (Some c) s'
  end.

(** What the host's [re.compile] does with a pattern the model leaves to
    it: a pattern object, given by its [search], an [re.error] with its
    message, or another exception. *)
Inductive host_outcome :=
| HostOk (search : str -> bool)
| HostReError (msg : str)
| HostRaises.

(** The host's [re.compile], by pattern and IGNORECASE flag. *)
Definition host_re := str -> bool -> host_outcome.

(** A compiled pattern object: a parsed pattern with the flag word
    reduced to IGNORECASE, or one the host compiled. *)
Inductive re_pattern :=
| Compiled (ignorecase : bool) (r : regex)
| HostPattern (search : str -> bool).

(** [re.compile(expr, flags)] with [flags] either [0] or [re.IGNORECASE]:
    [Err (ReError e)] is the [re.error] it raises, [Err OtherException]
    any other exception. *)
Definition re_compile (host : host_re) (expr : str) (ignorecase : bool)
  : result re_pattern :=
  match re_parse expr with
  | Ok r => Ok (Compiled ignorecase r)
  | Err (ReError e) => Err e
  | Err OtherException => Err OtherException
  | Err Unsupported | Err OutOfFuel =>
      match host expr ignorecase with
      | HostOk search => Ok (HostPattern search)
      | HostReError msg => Err (HostError msg)
      | HostRaises => Err OtherException
      end
  end.

(** [pat.search(text) is not None] *)
Definition pattern_search (p : re_pattern) (text : str) : bool :=
  match p with
  | Compiled ignorecase r => search_from ignorecase r None text
  | HostPattern search => search text
  end.

(** [re.search(expr, text) is not None] with no flags; [None] stands for
    the exception the call raises. *)
Definition re_search (host : host_re) (expr text : str) : option bool :=
  match re_compile host expr false with
  | Ok p => Some (pattern_search p text)
  | Err _ => None
  end.

(** [re.escape]: a backslash before each of the special characters. *)
Definition special_chars : str :=
  s_ "()[]{}?*+-|^$\.&~# " ++ [ch 9; ch 10; ch 13; ch 11; ch 12].

Definition is_special (c : ascii) : bool := has_char c special_chars.

Fixpoint re_escape (s : str) : str :=
  match s with
  | [] => []
  | c :: s' =>
      if is_special c then c_bslash :: c :: re_escape s'
      else c :: re_escape s'
  end.

(* ================================================================== *)
(** ** [fnmatch]

    [fnmatch.translate] turns a shell pattern into a regular expression
    of four kinds of item, matched against the whole name with DOTALL:
    [*] (any text), [?] (any character), a bracket expression, and a
    literal character.  A bracket expression is read left to right:
    [lo-hi] is a range (dropped when [hi < lo]), anything else stands for
    itself; a leading [!] negates; a bracket with no closing [\]] is a
    literal.  The backslash has no special meaning. *)

Inductive glob_item :=
| GStar
| GAny
| GSet (neg : bool) (ranges : list (ascii * ascii))
| GLit (c : ascii).

(** The text of a bracket expression: after the opening bracket, an
    optional [!] and an optional immediate [\]] belong to it; it runs to
    the next [\]].  Returns the text and what follows the bracket. *)
Fixpoint until_close (s : str) : option (str * str) :=
  match s with
  | [] => None
  | c :: s' =>
      if (c =? "]")%char then Some ([], s')
      else match until_close s' with
           | Some (stuff, rest) => Some (c :: stuff, rest)
           | None => None
           end
  end.

Definition keep_first (c : ascii) (s : str) : option (str * str) :=
  match s with
  | d :: s' =>
      if (d =? c)%char
      then match until_close s' with
           | Some (stuff, rest) => Some (d :: stuff, rest)
           | None => None
           end
      else until_close s
  | [] => None
  end.

Definition split_bracket (s : str) : option (str * str) :=
  match s with
  | c :: s' =>
      if (c =? "!")%char
      then match keep_first "]" s' with
           | Some (stuff, rest) => Some (c :: stuff, rest)
           | None => None
           end
      else keep_first "]" s
  | [] => None
  end.

Fixpoint bracket_ranges (stuff : str) : list (ascii * ascii) :=
  match stuff with
  | [] => []
  | lo :: rest =>
      match rest with
      | d :: hi :: rest' =>
          if (d =? "-")%char
          then (if code hi <? code lo then bracket_ranges rest'
                else (lo, hi) :: bracket_ranges rest')
          else (lo, lo) :: bracket_ranges rest
      | _ => (lo, lo) :: bracket_ranges rest
      end
  end.

Definition bracket_item (stuff : str) : glob_item :=
  match stuff with
  | c :: stuff' =>
      if (c =? "!")%char then GSet true (bracket_ranges stuff')
      else GSet false (bracket_ranges stuff)
  | [] => GSet false []
  end.

(** [skip] characters of an already translated bracket are passed over. *)
Fixpoint translate_from (skip : nat) (pat : str) : list glob_item :=
  match pat with
  | [] => []
  | c :: rest =>
      match skip with
      | S k => translate_from k rest
      | 0 =>
          if (c =? "*")%char then GStar :: translate_from 0 rest
          else if (c =? "?")%char then GAny :: translate_from 0 rest
          else if (c =? "[")%char then
            match split_bracket rest with
            | Some (stuff, _) =>
                bracket_item stuff :: translate_from (S (length stuff)) rest
            | None => GLit c :: translate_from 0 rest
            end
          else GLit c :: translate_from 0 rest
      end
  end.

Definition translate (pat : str) : list glob_item := translate_from 0 pat.

Definition in_ranges (ranges : list (ascii * ascii)) (c : ascii) : bool :=
  existsb (fun r => (code (fst r) <=? code c) && (code c <=? code (snd r)))
          ranges.

Fixpoint glob_match (g : list glob_item) (s : str) : bool :=
  match g with
  | [] => match s with [] => true | _ => false end
  | GStar :: g' =>
      (fix star (s : str) : bool :=
         glob_match g' s ||
         match s with
         | [] => false
         | _ :: s' => star s'
         end) s
  | GAny :: g' =>
      match s with
      | _ :: s' => glob_match g' s'
      | [] => false
      end
  | GSet neg ranges :: g' =>
      match s with
      | c :: s' => xorb neg (in_ranges ranges c) && glob_match g' s'
      | [] => false
      end
  | GLit c :: g' =>
      match s with
      | d :: s' => (c =? d)%char && glob_match g' s'
      | [] => false
      end
  end.

(** [fnmatch.fnmatchcase(name, pat)] *)
Definition fnmatchcase (name pat : str) : bool :=
  glob_match (translate pat) name.

(** [fnmatch.fnmatch(name, pat)]: both arguments go through
    [os.path.normcase], the identity on a POSIX host. *)
Definition fnmatch (name pat : str) : bool := fnmatchcase name pat.

(* ================================================================== *)
(** ** Ignore rules *)

(** [(pattern, negated, dir_only)] *)
Definition rule := (str * bool * bool)%type.

Definition is_empty_list {A} (l : list A) : bool :=
  match l with [] => true | _ => false end.

Definition is_empty (s : str) : bool :=
  match s with [] => true | _ => false end.

(** The body of the loop of [load_gitignore_rules] for one raw line:
    [None] for a line the loop skips with [continue]. *)
Definition parse_rule_line (raw : str) : option rule :=
  let line := strip raw in
  if is_empty line || startswith "#" line then None
  else
    let negated := startswith "!" line in
    let line := if negated then strip (tl line) else line in
    if negated && is_empty line then None
    else
      let dir_only := endswith "/" line in
      let pat := rstrip_char "/" line in
      let pat := if dir_only then pat ++ s_ "/**" else pat in
      Some (pat, negated, dir_only).

Fixpoint rules_of_lines (rules : list rule) (lines : list str) : list rule :=
  match lines with
  | [] => rules
  | raw :: lines' =>
      match parse_rule_line raw with
      | Some r => rules_of_lines (rules ++ [r]) lines'
      | None => rules_of_lines rules lines'
      end
  end.

(** [gitignore] is the text of [base_dir/.gitignore], [None] when opening
    or reading it raises. *)
Definition load_gitignore_rules (gitignore : option str) : list rule :=
  match gitignore with
  | None => []
  | Some text => rules_of_lines [] (readlines text)
  end.

(** One iteration of the loop of [gitignore_ignored]. *)
Definition rule_step (rel_posix_path name : str) (is_dir : bool)
    (ignored : bool) (r : rule) : bool :=
  let '(pat, negated, dir_only) := r in
  if dir_only && negb is_dir then ignored
  else
    let target := if has_char "/" pat then rel_posix_path else name in
    if fnmatchcase target pat then negb negated else ignored.

Definition gitignore_ignored (rel_posix_path : str) (is_dir : bool)
    (rules : list rule) : bool :=
  match rules with
  | [] => false
  | _ =>
      let name := after_last "/" rel_posix_path in
      fold_left (rule_step rel_posix_path name is_dir) rules false
  end.

(* ================================================================== *)
(** ** Paths and the file system *)

(** [os.path.join(a, b)] on a POSIX host. *)
Definition path_join (a b : str) : str :=
  if startswith "/" b then b
  else if is_empty a || endswith "/" a then a ++ b
  else a ++ s_ "/" ++ b.

(** [os.path.basename] *)
Definition basename (p : str) : str := after_last "/" p.

(** [os.path.relpath(path, start).replace(os.sep, "/")] for a [path] at or
    below [start], both absolute and normalised. *)
Definition relpath (path start : str) : str :=
  let start' := rstrip_char "/" start in
  if str_eqb path start then s_ "."
  else if startswith (start' ++ s_ "/") path
       then skipn (S (length start')) path
       else path.

Definition is_hidden_path (path : str) : bool :=
  let name :=
    basename (rstrip_by (fun c => (c =? "\")%char || (c =? "/")%char) path) in
  startswith "." name.

(** What [stat], [open] and [read] give for a regular file; [None] where
    the call raises. *)
Record file := {
  st_size : option nat;
  contents : option str;
  f_mtime : option nat
}.

#[warnings="-register-all"]
Inductive node :=
| NFile (f : file)
| NDir (listable : bool) (d_mtime : option nat) (entries : list (str * node)).

Definition is_dir_node (n : node) : bool :=
  match n with NDir _ _ _ => true | NFile _ => false end.

Fixpoint descend (n : node) (parts : list str) : option node :=
  match parts with
  | [] => Some n
  | p :: parts' =>
      match n with
      | NFile _ => None
      | NDir _ _ entries =>
          (fix find (es : list (str * node)) : option node :=
             match es with
             | [] => None
             | (name, child) :: es' =>
                 if str_eqb name p then descend child parts' else find es'
             end) entries
      end
  end.

(** The directory being searched: its absolute path and what is in it. *)
Record filesystem := { fs_base : str; fs_root : node }.

Definition fs_at (fs : filesystem) (path : str) : option node :=
  let rel := relpath path (fs_base fs) in
  if str_eqb rel "." then Some (fs_root fs)
  else descend (fs_root fs) (split_on "/" rel).

(** [os.path.getsize(path)] *)
Definition getsize (fs : filesystem) (path : str) : option nat :=
  match fs_at fs path with
  | Some (NFile f) => st_size f
  | _ => None
  end.

(** [os.path.getmtime(path)] *)
Definition getmtime (fs : filesystem) (path : str) : option nat :=
  match fs_at fs path with
  | Some (NFile f) => f_mtime f
  | Some (NDir _ m _) => m
  | None => None
  end.

(** [open(path, "rb").read(n)] and the text of [open(path, "r")]. *)
Definition read_file (fs : filesystem) (path : str) : option str :=
  match fs_at fs path with
  | Some (NFile f) => contents f
  | _ => None
  end.

(** [os.scandir(path)]: names with the answer of [entry.is_file()]. *)
Definition scandir (fs : filesystem) (path : str)
  : option (list (str * bool)) :=
  match fs_at fs path with
  | Some (NDir true _ entries) =>
      Some (map (fun e => (fst e, negb (is_dir_node (snd e)))) entries)
  | _ => None
  end.

Definition is_binary_quick (fs : filesystem) (path : str) : bool :=
  match read_file fs path with
  | Some bytes => has_char (ch 0) (firstn 2048 bytes)
  | None => true
  end.

(* ================================================================== *)
(** ** Traversal *)

(** What [os.walk] and [_walk_with_depth] yield for one directory. *)
Definition walk_entry := (str * list str * list str)%type.

Section Walk.

Variable base_dir : str.
Variable depth_limit : option Z.
Variable skip_hidden : bool.
Variable gitignore_rules : list rule.

(** The consumer of the generator rebinds the contents of the yielded
    [dirs] list in place before asking for the next entry; [os.walk]
    descends into what is left.  [on_yield] is that update. *)
Variable on_yield : list str -> list str.

Definition sep_depth (path : str) : nat :=
  count_char "/" (rstrip_char "/" path).

Definition base_depth : nat := sep_depth base_dir.

Definition cur_depth (root : str) : Z :=
  (Z.of_nat (sep_depth root) - Z.of_nat base_depth)%Z.

Definition rel_posix (root name : str) : str :=
  relpath (path_join root name) base_dir.

(** The three in-place updates of [dirs]. *)
Definition prune_dirs (root : str) (dirs : list str) : list str :=
  let dirs :=
    match depth_limit with
    | Some limit => if (limit <=? cur_depth root)%Z then [] else dirs
    | None => dirs
    end in
  let dirs :=
    if skip_hidden
    then filter (fun d => negb (is_hidden_path (path_join root d))) dirs
    else dirs in
  match gitignore_rules with
  | [] => dirs
  | _ => filter (fun d => negb (gitignore_ignored (rel_posix root d) true
                                                  gitignore_rules)) dirs
  end.

(** The two rebindings of [files]. *)
Definition keep_files (root : str) (files : list str) : list str :=
  let files :=
    if skip_hidden
    then filter (fun f => negb (is_hidden_path (path_join root f))) files
    else files in
  match gitignore_rules with
  | [] => files
  | _ => filter (fun f => negb (gitignore_ignored (rel_posix root f) false
                                                  gitignore_rules)) files
  end.

Definition dir_names (entries : list (str * node)) : list str :=
  map fst (filter (fun e => is_dir_node (snd e)) entries).

Definition file_names (entries : list (str * node)) : list str :=
  map fst (filter (fun e => negb (is_dir_node (snd e))) entries).

(** [os.walk(root)] top-down with the updates above applied between the
    listing of a directory and the descent into it.  A directory that
    cannot be listed yields nothing. *)
Fixpoint walk (root : str) (n : node) : list walk_entry :=
  match n with
  | NFile _ => []
  | NDir listable _ entries =>
      if listable then
        let dirs := prune_dirs root (dir_names entries) in
        let files := keep_files root (file_names entries) in
        (root, dirs, files)
        :: flat_map
             (fun d =>
                (fix visit (es : list (str * node)) : list walk_entry :=
                   match es with
                   | [] => []
                   | (name, child) :: es' =>
                       if str_eqb name d
                       then walk (path_join root d) child
                       else visit es'
                   end) entries)
             (on_yield dirs)
      else []
  end.

End Walk.

(** [_walk_with_depth]; [directory] is absolute and normalised, so that
    [os.path.abspath] leaves it as it is. *)
Definition walk_with_depth (fs : filesystem) (depth_limit : option Z)
    (skip_hidden : bool) (gitignore_rules : list rule)
    (on_yield : list str -> list str) : list walk_entry :=
  walk (fs_base fs) depth_limit skip_hidden gitignore_rules on_yield
       (fs_base fs) (fs_root fs).

(* ================================================================== *)
(** ** Pattern matchers *)

(** The message of an [re.error], without the position. *)
Definition error_text (e : re_error) : str :=
  match e with
  | BadEscape => "bad escape"
  | NothingToRepeat => "nothing to repeat"
  | MultipleRepeat => "multiple repeat"
  | MinGreaterThanMax => "min repeat greater than max repeat"
  | UnbalancedParenthesis => "unbalanced parenthesis"
  | MissingParenthesis => "missing ), unterminated subpattern"
  | UnterminatedSet => "unterminated character set"
  | BadRange => "bad character range"
  | HostError msg => msg
  end.

(** The f-string [rf"\b{p}\b"]. *)
Definition word_wrapped (p : str) : str := s_ "\b" ++ p ++ s_ "\b".

(** The f-string [rf"\b(?:{p})\b"] of [_build_highlight_regex]. *)
Definition word_wrapped_group (p : str) : str :=
  s_ "\b(?:" ++ p ++ s_ ")\b".

(** A predicate over a line or a name; [None] when the call raises. *)
Definition matcher := str -> option bool.

(** The matcher set-up that opens each worker ([is_match], [match_name],
    [match_folder], [match_content]): a compiled pattern in regex mode, a
    closure over the folded needle in literal mode.  [Err] is what
    [re.compile] raises: the workers catch an [re.error] around it and
    nothing else. *)
Definition compile_matcher (host : host_re) (pattern : str)
    (use_regex case whole : bool) : result matcher :=
  if use_regex then
    do pat <- re_compile host
                (if whole then word_wrapped pattern else pattern)
                (negb case);
    Ok (fun line => Some (pattern_search pat line))
  else
    let needle := if case then pattern else lower pattern in
    Ok (fun line =>
          let hay := if case then line else lower line in
          if whole then re_search host (word_wrapped (re_escape needle)) hay
          else Some (contains needle hay)).

(** [_build_highlight_regex]: [None] when [re.compile] raises, whatever
    the exception. *)
Definition build_highlight_regex (host : host_re) (pattern : str)
    (use_regex case whole : bool) : option re_pattern :=
  let expr := if use_regex then pattern else re_escape pattern in
  let expr := if whole then word_wrapped_group expr else expr in
  match re_compile host expr (negb case) with
  | Ok p => Some p
  | Err _ => None
  end.

(* ================================================================== *)
(** ** Run state *)

Inductive match_record :=
| ContentRecord (path : str) (line_no : nat) (text : str)
| FileRecord (path : str) (size : nat) (mtime : option nat)
             (content_filter_on : bool)
| FolderRecord (path : str) (mtime : option nat) (content_filter_on : bool)
               (files_seen : nat).

Definition record_path (r : match_record) : str :=
  match r with
  | ContentRecord p _ _ => p
  | FileRecord p _ _ _ => p
  | FolderRecord p _ _ _ => p
  end.

(** The run-time part of [TabState].  The queues are lists in arrival
    order.  [stop_reads] and [pause_waits] count the worker's reads of
    [stop_event] and its passages through a pause loop; they index the
    consumer's behaviour below. *)
Record TabState := {
  log_q : list str;
  result_q : list match_record;
  stop_event : bool;
  files_scanned : nat;
  matches_found : nat;
  stop_reads : nat;
  pause_waits : nat
}.

Definition new_run : TabState :=
  {| log_q := []; result_q := []; stop_event := false;
     files_scanned := 0; matches_found := 0;
     stop_reads := 0; pause_waits := 0 |}.

Definition log_put (msg : str) (st : TabState) : TabState :=
  {| log_q := log_q st ++ [msg]; result_q := result_q st;
     stop_event := stop_event st;
     files_scanned := files_scanned st; matches_found := matches_found st;
     stop_reads := stop_reads st; pause_waits := pause_waits st |}.

Definition result_put (r : match_record) (st : TabState) : TabState :=
  {| log_q := log_q st; result_q := result_q st ++ [r];
     stop_event := stop_event st;
     files_scanned := files_scanned st; matches_found := matches_found st;
     stop_reads := stop_reads st; pause_waits := pause_waits st |}.

Definition stop_set (st : TabState) : TabState :=
  {| log_q := log_q st; result_q := result_q st;
     stop_event := true;
     files_scanned := files_scanned st; matches_found := matches_found st;
     stop_reads := stop_reads st; pause_waits := pause_waits st |}.

Definition set_files_scanned (n : nat) (st : TabState) : TabState :=
  {| log_q := log_q st; result_q := result_q st;
     stop_event := stop_event st;
     files_scanned := n; matches_found := matches_found st;
     stop_reads := stop_reads st; pause_waits := pause_waits st |}.

Definition incr_scanned (st : TabState) : TabState :=
  set_files_scanned (S (files_scanned st)) st.

Definition incr_matches (st : TabState) : TabState :=
  {| log_q := log_q st; result_q := result_q st;
     stop_event := stop_event st;
     files_scanned := files_scanned st; matches_found := S (matches_found st);
     stop_reads := stop_reads st; pause_waits := pause_waits st |}.

(** [line.rstrip("\n")] *)
Definition rstrip_nl (line : str) : str :=
  rstrip_by (fun c => (c =? c_nl)%char) line.

Definition glob_any (name : str) (globs : list str) : bool :=
  existsb (fun g => fnmatch name g) globs.

(** [dirs[:] = [d for d in dirs if not any(...)]] under [if exclude_globs]. *)
Definition exclude_dirs (exclude_globs : list str) (dirs : list str)
  : list str :=
  match exclude_globs with
  | [] => dirs
  | _ => filter (fun d => negb (glob_any d exclude_globs)) dirs
  end.

(** [include_globs and not any(...)] or [exclude_globs and any(...)]. *)
Definition glob_rejected (include_globs exclude_globs : list str)
    (fname : str) : bool :=
  (negb (is_empty_list include_globs) && negb (glob_any fname include_globs))
  || (negb (is_empty_list exclude_globs) && glob_any fname exclude_globs).

Definition Qltb (a b : Q) : bool := negb (Qle_bool b a).

(** [max_mb > 0 and size > max_mb * 1024 * 1024], with the float [max_mb]
    read as the rational it denotes. *)
Definition over_cap (max_mb : Q) (size : nat) : bool :=
  Qltb 0%Q max_mb &&
  Qltb (max_mb * 1024 * 1024)%Q (inject_Z (Z.of_nat size)).

(* ================================================================== *)
(** ** Workers *)

(** One line of the external tool's standard output after [json.loads]:
    a ["match"] event with the fields the adapter reads, a ["summary"]
    event, or anything else (including a line that is not JSON). *)
Inductive rg_event :=
| RgMatch (path : option str) (line_number : option nat) (text : str)
| RgSummary (files_searched : option nat)
| RgOther.

Definition str_of_Z (z : Z) : str := s_ (NilZero.string_of_int (Z.to_int z)).

(** [[g.strip() for g in entry.get().split(";") if g.strip()]]: how
    [start_search_for_tab] reads the include and exclude fields. *)
Definition entry_globs (text : str) : list str :=
  filter (fun g => negb (is_empty g)) (map strip (split_on ";" text)).

(** The line logged when the external tool is asked for and not found. *)
Definition rg_missing_line : str :=
  s_ "ripgrep (rg) not found; falling back to Python scanner." ++ [c_nl].

(** The arguments one exclude glob adds to the command line. *)
Definition rg_exclude_args (g : str) : list str :=
  if is_empty g then []
  else
    let has_wildcards :=
      (has_char "*" g || has_char "?" g || has_char "[" g)
      || has_char "/" g || has_char "\" g in
    if has_wildcards then [s_ "--glob"; s_ "!" ++ g]
    else [s_ "--glob"; s_ "!" ++ g;
          s_ "--glob"; s_ "!**/" ++ g ++ s_ "/**"].

Section Workers.

(** The host's [re.compile] on the patterns the model leaves to it. *)
Variable host : host_re.

Variable fs : filesystem.

(** The consumer: [cancel n] tells whether a stop has been requested by
    the time of the worker's [n]-th read of [stop_event]; [pause_spins k]
    is the number of times the worker goes round its [k]-th pause loop
    before it finds [pause_event] set. *)
Variable cancel : nat -> bool.
Variable pause_spins : nat -> nat.

(** The external backend: the path found for [rg], the child process as
    a function of its command line ([None] when [Popen] raises, else its
    output events and its standard error), and the rendering of
    [f"{max_mb:g}"]. *)
Variable rg_path : option str.
Variable popen : list str -> option (list rg_event * str).
Variable fmt_g : Q -> str.

(** [state.stop_event.is_set()] *)
Definition stop_is_set (st : TabState) : bool * TabState :=
  let b := stop_event st || cancel (stop_reads st) in
  (b, {| log_q := log_q st; result_q := result_q st; stop_event := b;
         files_scanned := files_scanned st;
         matches_found := matches_found st;
         stop_reads := S (stop_reads st); pause_waits := pause_waits st |}).

Fixpoint spin (n : nat) (st : TabState) : TabState :=
  match n with
  | 0 => st
  | S n' =>
      let (stop, st1) := stop_is_set st in
      if stop then st1 else spin n' st1
  end.

(** [while not state.pause_event.is_set(): ...] *)
Definition pause_loop (st : TabState) : TabState :=
  let st1 := spin (pause_spins (pause_waits st)) st in
  {| log_q := log_q st1; result_q := result_q st1;
     stop_event := stop_event st1;
     files_scanned := files_scanned st1;
     matches_found := matches_found st1;
     stop_reads := stop_reads st1; pause_waits := S (pause_waits st1) |}.

(** *** Content worker *)

Section Text.

Variables include_globs exclude_globs : list str.
Variable max_mb : Q.
Variable depth_limit : option Z.
Variable skip_hidden respect_gitignore : bool.
Variable gitignore_rules : list rule.
Variable use_ripgrep first_match_per_file : bool.
Variable pattern : str.
Variable use_regex case whole : bool.
Variable filetype : str.

(** The loop over the lines of one open file.  The boolean is
    [matched_this_file]; [None] when [is_match] raised. *)
Fixpoint scan_lines (is_match : matcher) (fpath : str) (i : nat)
    (lines : list str) (matched : bool) (st : TabState)
  : TabState * option bool :=
  match lines with
  | [] => (st, Some matched)
  | line :: rest =>
      let (stop, st1) := stop_is_set st in
      if stop then (st1, Some matched)
      else
        let st2 := pause_loop st1 in
        match is_match line with
        | None => (st2, None)
        | Some true =>
            let st3 :=
              result_put (ContentRecord fpath i (rstrip_nl line))
                         (incr_matches st2) in
            if first_match_per_file then (st3, Some true)
            else scan_lines is_match fpath (S i) rest true st3
        | Some false => scan_lines is_match fpath (S i) rest matched st2
        end
  end.

(** The body of the loop over [files], after the stop check and the
    pause loop. *)
Definition text_file (is_match : matcher) (root fname : str)
    (st : TabState) : TabState :=
  if negb (str_eqb filetype "All") && negb (endswith filetype fname)
  then st
  else if glob_rejected include_globs exclude_globs fname then st
  else
    let fpath := path_join root fname in
    let capped :=
      if Qltb 0%Q max_mb then
        match getsize fs fpath with
        | Some size => Qltb (max_mb * 1024 * 1024)%Q
                            (inject_Z (Z.of_nat size))
        | None => true
        end
      else false in
    if capped then st
    else
      let st1 := incr_scanned st in
      if is_binary_quick fs fpath then st1
      else
        match read_file fs fpath with
        | None => st1
        | Some text =>
            fst (scan_lines is_match fpath 1 (readlines text) false st1)
        end.

Fixpoint text_files (is_match : matcher) (root : str) (files : list str)
    (st : TabState) : TabState :=
  match files with
  | [] => st
  | fname :: rest =>
      let (stop, st1) := stop_is_set st in
      if stop then st1
      else
        text_files is_match root rest
                   (text_file is_match root fname (pause_loop st1))
  end.

Fixpoint text_dirs (is_match : matcher) (entries : list walk_entry)
    (st : TabState) : TabState :=
  match entries with
  | [] => st
  | (root, _, files) :: rest =>
      let (stop, st1) := stop_is_set st in
      if stop then st1
      else
        let st2 := log_put (s_ "Scanning: " ++ root ++ [c_nl]) st1 in
        text_dirs is_match rest (text_files is_match root files st2)
  end.

(** The command line of [_worker_text_ripgrep]: the options that do
    not come from the exclude globs, then the exclude filters, then
    the pattern and the directory. *)
Definition rg_options (rg : str) : list str :=
  [rg; s_ "--json"]
  ++ (if use_regex then [] else [s_ "-F"])
  ++ (if case then [] else [s_ "-i"])
  ++ (if whole then [s_ "-w"] else [])
  ++ (if first_match_per_file then [s_ "-m"; s_ "1"] else [])
  ++ match depth_limit with
     | Some d => [s_ "--max-depth"; str_of_Z d]
     | None => []
     end
  ++ (if Qltb 0%Q max_mb
      then [s_ "--max-filesize"; fmt_g max_mb ++ s_ "M"] else [])
  ++ (if skip_hidden then [] else [s_ "--hidden"])
  ++ (if respect_gitignore then [] else [s_ "--no-ignore"])
  ++ (if negb (is_empty filetype) && negb (str_eqb filetype "All")
      then [s_ "--glob"; s_ "*" ++ filetype] else [])
  ++ flat_map (fun g => [s_ "--glob"; g]) include_globs.

Definition rg_command (rg : str) : list str :=
  rg_options rg
  ++ flat_map rg_exclude_args exclude_globs
  ++ [s_ "--"; pattern; fs_base fs].

(** The loop over the child's output lines; the second component is
    [files_searched]. *)
Fixpoint rg_events (events : list rg_event) (searched : option nat)
    (st : TabState) : TabState * option nat :=
  match events with
  | [] => (st, searched)
  | ev :: rest =>
      let (stop, st1) := stop_is_set st in
      if stop then (st1, searched)
      else
        let st2 := pause_loop st1 in
        match ev with
        | RgMatch (Some path) (Some line_no) text =>
            rg_events rest searched
              (result_put (ContentRecord path line_no (rstrip_nl text))
                          (incr_matches st2))
        | RgMatch _ _ _ => rg_events rest searched st2
        | RgSummary n => rg_events rest n st2
        | RgOther => rg_events rest searched st2
        end
  end.

Definition worker_text_ripgrep (rg : str) (st : TabState) : TabState :=
  let st0 := log_put (s_ "Using ripgrep (rg) backend." ++ [c_nl]) st in
  match popen (rg_command rg) with
  | None =>
      (* the text of the exception after the colon is not modelled *)
      stop_set (log_put (s_ "Failed to start rg: " ++ [c_nl]) st0)
  | Some (events, err) =>
      let (st1, searched) := rg_events events None st0 in
      let (_, st2) := stop_is_set st1 in
      let st3 := if is_empty err then st2 else log_put err st2 in
      let st4 :=
        match searched with
        | Some n => set_files_scanned n st3
        | None => st3
        end in
      stop_set st4
  end.

(** [_worker_text]; the boolean tells that an exception escaped: what
    [re.compile] raises other than [re.error] is not caught, and the
    worker ends there, with the stop flag as it was. *)
Definition worker_text (st : TabState) : TabState * bool :=
  match (if use_ripgrep then rg_path else None) with
  | Some rg => (worker_text_ripgrep rg st, false)
  | None =>
      let st0 := if use_ripgrep then log_put rg_missing_line st else st in
      match compile_matcher host pattern use_regex case whole with
      | Err (ReError e) =>
          (stop_set (log_put (s_ "Invalid regex: " ++ error_text e
                              ++ [c_nl]) st0), false)
      | Err _ => (st0, true)
      | Ok is_match =>
          (stop_set
             (text_dirs is_match
                (walk_with_depth fs depth_limit skip_hidden gitignore_rules
                                 (exclude_dirs exclude_globs))
                st0), false)
      end
  end.

End Text.

(** *** The content filter shared by the FileName and FolderName workers *)

(** [match_content]: the filter's matcher when it is on, else the
    bypass [lambda _: True].  The boolean names the filter that failed
    to compile. *)
Definition content_matcher (content_filter_on : bool) (content_pat : str)
    (content_regex content_case content_whole : bool) : result matcher :=
  if content_filter_on
  then compile_matcher host content_pat content_regex content_case
                       content_whole
  else Ok (fun _ => Some true).

(** The loop over the lines of a file that stops at the first line the
    content matcher accepts: [Some true] when one matched, [Some false]
    when the file ended or the run was stopped, [None] when the matcher
    raised. *)
Fixpoint content_scan (match_content : matcher) (lines : list str)
    (st : TabState) : TabState * option bool :=
  match lines with
  | [] => (st, Some false)
  | line :: rest =>
      let (stop, st1) := stop_is_set st in
      if stop then (st1, Some false)
      else
        let st2 := pause_loop st1 in
        match match_content line with
        | None => (st2, None)
        | Some true => (st2, Some true)
        | Some false => content_scan match_content rest st2
        end
  end.

(** *** FileName worker *)

Section File.

Variables include_globs exclude_globs : list str.
Variable max_mb : Q.
Variable depth_limit : option Z.
Variable skip_hidden : bool.
Variable gitignore_rules : list rule.
Variable fname_pat : str.
Variable fname_regex fname_case fname_whole : bool.
Variable content_filter_on : bool.
Variable content_pat : str.
Variable content_regex content_case content_whole : bool.

(** The body of the loop over [files]; the boolean tells that an
    exception escaped the worker ([match_name] is called outside any
    [try]). *)
Definition file_file (match_name match_content : matcher)
    (root fname : str) (st : TabState) : TabState * bool :=
  if glob_rejected include_globs exclude_globs fname then (st, false)
  else
    let fpath := path_join root fname in
    match getsize fs fpath with
    | None => (st, false)
    | Some size =>
        if over_cap max_mb size then (st, false)
        else
          let st1 := incr_scanned st in
          match match_name fname with
          | None => (st1, true)
          | Some false => (st1, false)
          | Some true =>
              let emit (s : TabState) : TabState :=
                result_put (FileRecord fpath size (getmtime fs fpath)
                                       content_filter_on)
                           (incr_matches s) in
              if content_filter_on then
                if is_binary_quick fs fpath then (st1, false)
                else
                  match read_file fs fpath with
                  | None => (st1, false)
                  | Some text =>
                      match content_scan match_content (readlines text)
                                         st1 with
                      | (st2, Some true) => (emit st2, false)
                      | (st2, _) => (st2, false)
                      end
                  end
              else (emit st1, false)
          end
    end.

Fixpoint file_files (match_name match_content : matcher) (root : str)
    (files : list str) (st : TabState) : TabState * bool :=
  match files with
  | [] => (st, false)
  | fname :: rest =>
      let (stop, st1) := stop_is_set st in
      if stop then (st1, false)
      else
        match file_file match_name match_content root fname
                        (pause_loop st1) with
        | (st2, true) => (st2, true)
        | (st2, false) =>
            file_files match_name match_content root rest st2
        end
  end.

Fixpoint file_dirs (match_name match_content : matcher)
    (entries : list walk_entry) (st : TabState) : TabState * bool :=
  match entries with
  | [] => (st, false)
  | (root, _, files) :: rest =>
      let (stop, st1) := stop_is_set st in
      if stop then (st1, false)
      else
        let st2 := log_put (s_ "Scanning: " ++ root ++ [c_nl]) st1 in
        match file_files match_name match_content root files st2 with
        | (st3, true) => (st3, true)
        | (st3, false) => file_dirs match_name match_content rest st3
        end
  end.

Definition worker_file (st : TabState) : TabState * bool :=
  match compile_matcher host fname_pat fname_regex fname_case
                        fname_whole with
  | Err (ReError e) =>
      (stop_set (log_put (s_ "Invalid filename regex: " ++ error_text e
                          ++ [c_nl]) st), false)
  | Err _ => (st, true)
  | Ok match_name =>
      match content_matcher content_filter_on content_pat content_regex
                            content_case content_whole with
      | Err (ReError e) =>
          (stop_set (log_put (s_ "Invalid content regex: "
                              ++ error_text e ++ [c_nl]) st), false)
      | Err _ => (st, true)
      | Ok match_content =>
          match file_dirs match_name match_content
                  (walk_with_depth fs depth_limit skip_hidden
                     gitignore_rules (exclude_dirs exclude_globs))
                  st with
          | (st1, true) => (st1, true)
          | (st1, false) => (stop_set st1, false)
          end
      end
  end.

End File.

(** *** FolderName worker *)

Section Folder.

Variables include_globs exclude_globs : list str.
Variable max_mb : Q.
Variable depth_limit : option Z.
Variable skip_hidden : bool.
Variable gitignore_rules : list rule.
Variable folder_pat : str.
Variable folder_regex folder_case folder_whole : bool.
Variable content_filter_on : bool.
Variable content_pat : str.
Variable content_regex content_case content_whole : bool.

(** A directory entry passes the filters that come before the size
    check of [folder_content_matches]. *)
Definition entry_considered (folder_path : str) (e : str * bool) : bool :=
  let (fname, is_file) := e in
  let path := path_join folder_path fname in
  is_file
  && negb (skip_hidden && is_hidden_path path)
  && negb (glob_rejected include_globs exclude_globs fname)
  && negb (negb (is_empty_list gitignore_rules)
           && gitignore_ignored (relpath path (fs_base fs)) false
                                gitignore_rules).

(** The loop over [os.scandir(folder_path)]; the result is the pair
    [(matched, files_seen)] the function returns. *)
Fixpoint folder_entries (match_content : matcher) (folder_path : str)
    (entries : list (str * bool)) (files_seen : nat) (st : TabState)
  : TabState * (bool * nat) :=
  match entries with
  | [] => (st, (false, files_seen))
  | e :: rest =>
      let (stop, st1) := stop_is_set st in
      if stop then (st1, (false, files_seen))
      else
        let st2 := pause_loop st1 in
        let next := folder_entries match_content folder_path rest in
        if negb (entry_considered folder_path e) then next files_seen st2
        else
          let path := path_join folder_path (fst e) in
          match getsize fs path with
          | None => next files_seen st2
          | Some size =>
              if over_cap max_mb size then next files_seen st2
              else
                let seen := S files_seen in
                if negb content_filter_on then next seen st2
                else if is_binary_quick fs path then next seen st2
                else
                  match read_file fs path with
                  | None => next seen st2
                  | Some text =>
                      match content_scan match_content (readlines text)
                                         st2 with
                      | (st3, Some true) => (st3, (true, seen))
                      | (st3, _) => next seen st3
                      end
                  end
          end
  end.

Definition folder_content_matches (match_content : matcher)
    (folder_path : str) (st : TabState) : TabState * (bool * nat) :=
  match scandir fs folder_path with
  | None => (st, (false, 0))
  | Some entries => folder_entries match_content folder_path entries 0 st
  end.

(** The body of the loop over [list(dirs)]; the boolean tells that an
    exception escaped the worker ([match_folder] is called outside any
    [try]). *)
Definition folder_dir (match_folder match_content : matcher)
    (root dname : str) (st : TabState) : TabState * bool :=
  let st1 := incr_scanned st in
  match match_folder dname with
  | None => (st1, true)
  | Some false => (st1, false)
  | Some true =>
      let folder_path := path_join root dname in
      let '(st2, (matched, files_seen)) :=
        folder_content_matches match_content folder_path st1 in
      if content_filter_on && negb matched then (st2, false)
      else
        (result_put (FolderRecord folder_path (getmtime fs folder_path)
                                  content_filter_on files_seen)
                    (incr_matches st2), false)
  end.

Fixpoint folder_names (match_folder match_content : matcher) (root : str)
    (dirs : list str) (st : TabState) : TabState * bool :=
  match dirs with
  | [] => (st, false)
  | dname :: rest =>
      let (stop, st1) := stop_is_set st in
      if stop then (st1, false)
      else
        match folder_dir match_folder match_content root dname
                         (pause_loop st1) with
        | (st2, true) => (st2, true)
        | (st2, false) =>
            folder_names match_folder match_content root rest st2
        end
  end.

Fixpoint folder_dirs (match_folder match_content : matcher)
    (entries : list walk_entry) (st : TabState) : TabState * bool :=
  match entries with
  | [] => (st, false)
  | (root, dirs, _) :: rest =>
      let (stop, st1) := stop_is_set st in
      if stop then (st1, false)
      else
        let dirs := exclude_dirs exclude_globs dirs in
        let st2 := log_put (s_ "Scanning: " ++ root ++ [c_nl]) st1 in
        match folder_names match_folder match_content root dirs st2 with
        | (st3, true) => (st3, true)
        | (st3, false) => folder_dirs match_folder match_content rest st3
        end
  end.

Definition worker_folder (st : TabState) : TabState * bool :=
  match compile_matcher host folder_pat folder_regex folder_case
                        folder_whole with
  | Err (ReError e) =>
      (stop_set (log_put (s_ "Invalid folder regex: " ++ error_text e
                          ++ [c_nl]) st), false)
  | Err _ => (st, true)
  | Ok match_folder =>
      match content_matcher content_filter_on content_pat content_regex
                            content_case content_whole with
      | Err (ReError e) =>
          (stop_set (log_put (s_ "Invalid content regex: "
                              ++ error_text e ++ [c_nl]) st), false)
      | Err _ => (st, true)
      | Ok match_content =>
          match folder_dirs match_folder match_content
                  (walk_with_depth fs depth_limit skip_hidden
                     gitignore_rules (exclude_dirs exclude_globs))
                  st with
          | (st1, true) => (st1, true)
          | (st1, false) => (stop_set st1, false)
          end
      end
  end.

End Folder.

End Workers.

(* ================================================================== *)
(** ** Starting a run *)

(** One match criterion as the entry widgets give it. *)
Record pattern_spec := {
  ps_pattern : str;
  ps_regex : bool;
  ps_case : bool;
  ps_whole : bool
}.

Inductive search_mode := TextMode | FileMode | FolderMode.

(** What [start_search_for_tab] reads from the tab before it spawns the
    worker. *)
Record SearchRequest := {
  rq_mode : search_mode;
  rq_include_globs : list str;
  rq_exclude_globs : list str;
  rq_max_mb : Q;
  rq_depth_limit : option Z;
  rq_skip_hidden : bool;
  rq_respect_gitignore : bool;
  rq_primary : pattern_spec;
  rq_content_filter_on : bool;
  rq_content : pattern_spec;
  rq_first_match_per_file : bool;
  rq_use_ripgrep : bool;
  rq_filetype : str
}.

Section Start.

Variable host : host_re.
Variable fs : filesystem.
Variable cancel : nat -> bool.
Variable pause_spins : nat -> nat.
Variable rg_path : option str.
Variable popen : list str -> option (list rg_event * str).
Variable fmt_g : Q -> str.

(** [load_gitignore_rules(directory) if respect_gitignore else []] *)
Definition request_rules (rq : SearchRequest) : list rule :=
  if rq_respect_gitignore rq
  then load_gitignore_rules
         (read_file fs (path_join (fs_base fs) ".gitignore"))
  else [].

(** The target of the worker thread, run to its end on the fresh state;
    the boolean tells that an exception escaped the worker. *)
Definition spawn_worker (rq : SearchRequest) (st : TabState)
  : TabState * bool :=
  let p := rq_primary rq in
  let c := rq_content rq in
  match rq_mode rq with
  | TextMode =>
      worker_text host fs cancel pause_spins rg_path popen fmt_g
        (rq_include_globs rq) (rq_exclude_globs rq) (rq_max_mb rq)
        (rq_depth_limit rq) (rq_skip_hidden rq) (rq_respect_gitignore rq)
        (request_rules rq) (rq_use_ripgrep rq) (rq_first_match_per_file rq)
        (ps_pattern p) (ps_regex p) (ps_case p) (ps_whole p)
        (rq_filetype rq) st
  | FileMode =>
      worker_file host fs cancel pause_spins
        (rq_include_globs rq) (rq_exclude_globs rq) (rq_max_mb rq)
        (rq_depth_limit rq) (rq_skip_hidden rq) (request_rules rq)
        (ps_pattern p) (ps_regex p) (ps_case p) (ps_whole p)
        (rq_content_filter_on rq)
        (ps_pattern c) (ps_regex c) (ps_case c) (ps_whole c) st
  | FolderMode =>
      worker_folder host fs cancel pause_spins
        (rq_include_globs rq) (rq_exclude_globs rq) (rq_max_mb rq)
        (rq_depth_limit rq) (rq_skip_hidden rq) (request_rules rq)
        (ps_pattern p) (ps_regex p) (ps_case p) (ps_whole p)
        (rq_content_filter_on rq)
        (ps_pattern c) (ps_regex c) (ps_case c) (ps_whole c) st
  end.

(** The line-search of the request goes to the external tool. *)
Definition uses_external (rq : SearchRequest) : bool :=
  match rq_mode rq, rg_path with
  | TextMode, Some _ => rq_use_ripgrep rq
  | _, _ => false
  end.

End Start.

(* ================================================================== *)
(** ** Vocabulary of the properties *)

(** A rule applies to a candidate: it is not a directory-only rule facing
    a non-directory, and its pattern matches the relative path (pattern
    with a separator) or the final component (pattern without). *)
Definition rule_matches (rel_posix_path : str) (is_dir : bool) (r : rule)
  : bool :=
  let '(pat, _, dir_only) := r in
  negb (dir_only && negb is_dir)
  && fnmatchcase (if has_char "/" pat then rel_posix_path
                  else after_last "/" rel_posix_path) pat.

Definition rule_negated (r : rule) : bool := snd (fst r).

(** An exclude glob with a wildcard character or a path separator. *)
Definition has_wildcard_or_sep (g : str) : bool :=
  (has_char "*" g || has_char "?" g || has_char "[" g)
  || has_char "/" g || has_char "\" g.

(** The expression a regex-mode spec hands to [re.compile]. *)
Definition spec_expr (ps : pattern_spec) : str :=
  if ps_whole ps then word_wrapped (ps_pattern ps) else ps_pattern ps.

(** What [re.compile] raises for a regex-mode spec, if anything. *)
Definition spec_failure (host : host_re) (ps : pattern_spec)
  : option failure :=
  if ps_regex ps then
    match re_compile host (spec_expr ps) (negb (ps_case ps)) with
    | Err e => Some e
    | Ok _ => None
    end
  else None.

Definition invalid_label (m : search_mode) : str :=
  match m with
  | TextMode => "Invalid regex: "
  | FileMode => "Invalid filename regex: "
  | FolderMode => "Invalid folder regex: "
  end.

(** The first spec the worker compiles on which [re.compile] raises,
    with what it raises: the primary spec, then (FileName and FolderName
    modes, with the content filter on) the content spec.  The boolean
    tells that it is the content spec. *)
Definition first_failure (host : host_re) (rq : SearchRequest)
  : option (bool * failure) :=
  match spec_failure host (rq_primary rq) with
  | Some e => Some (false, e)
  | None =>
      match rq_mode rq with
      | TextMode => None
      | _ =>
          if rq_content_filter_on rq then
            match spec_failure host (rq_content rq) with
            | Some e => Some (true, e)
            | None => None
            end
          else None
      end
  end.

(** The log line when that first failure is an [re.error]. *)
Definition invalid_pattern_line (host : host_re) (rq : SearchRequest)
  : option str :=
  match first_failure host rq with
  | Some (is_content, ReError e) =>
      Some ((if is_content then s_ "Invalid content regex: "
             else invalid_label (rq_mode rq)) ++ error_text e ++ [c_nl])
  | _ => None
  end.

(** That first failure is an exception other than [re.error]. *)
Definition setup_escapes (host : host_re) (rq : SearchRequest) : bool :=
  match first_failure host rq with
  | Some (_, ReError _) => false
  | Some _ => true
  | None => false
  end.

(** A file that reaches the line scan of the content filter: not binary
    and not over the size cap. *)
Definition scannable (fs : filesystem) (max_mb : Q) (path : str) : bool :=
  negb (is_binary_quick fs path)
  && match getsize fs path with
     | Some size => negb (over_cap max_mb size)
     | None => false
     end.

(** Some file directly inside [folder] is scannable. *)
Definition has_scannable_file (fs : filesystem) (max_mb : Q) (folder : str)
  : bool :=
  match scandir fs folder with
  | Some entries =>
      existsb (fun e => snd e && scannable fs max_mb (path_join folder (fst e)))
              entries
  | None => false
  end.

(** [st'] extends the result queue of [st] by records about folders that
    hold a scannable file. *)
Definition grows_with (fs : filesystem) (max_mb : Q) (st st' : TabState)
  : Prop :=
  exists l,
    result_q st' = result_q st ++ l
    /\ Forall (fun r => has_scannable_file fs max_mb (record_path r) = true) l.

(** The records of a queue that are about [path]. *)
Definition records_for (path : str) (q : list match_record)
  : list match_record :=
  filter (fun r => str_eqb (record_path r) path) q.

(** The token [re.escape] produces for one character of the needle. *)
Definition lit_token (c : ascii) : token :=
  if is_special c then TEsc c else TChar c.

(** The characters of [needle] in sequence, then [r]. *)
Definition lit_seq (needle : str) (r : regex) : regex :=
  fold_right (fun c acc => RCat (RLit c) acc) r needle.

(** What [\b] + escaped needle + [\b] parses to. *)
Definition whole_word_regex (needle : str) : regex :=
  RCat (RAt AtBoundary) (lit_seq needle (RCat (RAt AtBoundary) REmpty)).

(** What [\b(?:] + escaped needle + [)\b] parses to. *)
Definition whole_word_group_regex (needle : str) : regex :=
  RCat (RAt AtBoundary)
    (RCat (RGroup (lit_seq needle REmpty)) (RCat (RAt AtBoundary) REmpty)).

(** A name without a wildcard character of [fnmatch]. *)
Definition plain_name (name : str) : bool :=
  forallb (fun c => negb ((c =? "*")%char || (c =? "?")%char
                          || (c =? "[")%char)) name.

(** The last character of [s], or [prev] when [s] is empty. *)
Definition last_of (prev : option ascii) (s : str) : option ascii :=
  fold_left (fun _ c => Some c) s prev.

(** [needle] occurs in [hay]. *)
Definition occurs (needle hay : str) : Prop :=
  exists pre post, hay = pre ++ needle ++ post.

(** [needle] occurs in [hay] with a word boundary on each side. *)
Definition occurs_as_word (needle hay : str) : Prop :=
  exists pre post,
    hay = pre ++ needle ++ post
    /\ at_boundary (last_of None pre) (needle ++ post) = true
    /\ at_boundary (last_of None (pre ++ needle)) post = true.

(** A matcher that never raises. *)
Definition total (m : matcher) : Prop := forall line, m line <> None.

(** A parse result that is not a fuel failure and leaves at most [bound]
    tokens. *)
Definition within (bound : nat) (res : result (regex * list token)) : Prop :=
  res <> Err OutOfFuel
  /\ forall r rest, res = Ok (r, rest) -> length rest <= bound.

(** The state after [st] holds the same results, log and counters; only
    the stop flag and the consumer's indices may differ. *)
Definition same_output (st st' : TabState) : Prop :=
  result_q st' = result_q st /\ log_q st' = log_q st
  /\ files_scanned st' = files_scanned st
  /\ matches_found st' = matches_found st.

(** A regex-mode spec whose pattern text [re.compile] refuses. *)
Definition spec_unparsable (host : host_re) (ps : pattern_spec) : bool :=
  ps_regex ps &&
  match re_compile host (ps_pattern ps) (negb (ps_case ps)) with
  | Err _ => true
  | Ok _ => false
  end.

Definition request_has_unparsable (host : host_re) (rq : SearchRequest)
  : bool :=
  spec_unparsable host (rq_primary rq)
  || spec_unparsable host (rq_content rq).

(** What the Content worker logs before the matcher set-up. *)
Definition fallback_lines (rq : SearchRequest) : list str :=
  match rq_mode rq with
  | TextMode =>
      if rq_use_ripgrep rq then [rg_missing_line] else []
  | _ => []
  end.

(** A small tree: [/root] holds [a.txt] (two lines), [b.bin] (a null
    byte) and [sub/c.txt] (one line). *)
Definition text_file_of (text : str) : file :=
  {| st_size := Some (length text); contents := Some text;
     f_mtime := Some 0 |}.

Definition demo_root : node :=
  NDir true (Some 0)
    [(s_ "a.txt", NFile (text_file_of (s_ "hello" ++ [c_nl] ++ s_ "world"
                                       ++ [c_nl])));
     (s_ "b.bin", NFile (text_file_of [ch 0; ch 1]));
     (s_ "sub", NDir true (Some 0)
        [(s_ "c.txt", NFile (text_file_of (s_ "hello" ++ [c_nl])))])].

Definition demo_fs : filesystem :=
  {| fs_base := "/root"; fs_root := demo_root |}.

(** A second tree: [/root/data] holds a file with a null byte and a text
    file of 11 bytes; [/root/notes] holds a text file of 6 bytes. *)
Definition data_root : node :=
  NDir true (Some 0)
    [(s_ "data", NDir true (Some 0)
        [(s_ "blob.bin", NFile (text_file_of [ch 0; ch 1; ch 2]));
         (s_ "long.txt", NFile (text_file_of (s_ "hello data" ++ [c_nl])))]);
     (s_ "notes", NDir true (Some 0)
        [(s_ "n.txt", NFile (text_file_of (s_ "hello" ++ [c_nl])))])].

Definition data_fs : filesystem :=
  {| fs_base := "/root"; fs_root := data_root |}.

(** A FileName request whose content filter is off and whose content
    spec holds the unbalanced regex [(]. *)
Definition unused_content_request : SearchRequest :=
  {| rq_mode := FileMode;
     rq_include_globs := []; rq_exclude_globs := [];
     rq_max_mb := 0%Q; rq_depth_limit := None;
     rq_skip_hidden := false; rq_respect_gitignore := false;
     rq_primary := {| ps_pattern := "a"; ps_regex := false;
                      ps_case := false; ps_whole := false |};
     rq_content_filter_on := false;
     rq_content := {| ps_pattern := "("; ps_regex := true;
                      ps_case := false; ps_whole := false |};
     rq_first_match_per_file := false; rq_use_ripgrep := false;
     rq_filetype := "All" |}.

(** A Content request with the unbalanced regex [(]. *)
Definition bad_regex_request : SearchRequest :=
  {| rq_mode := TextMode;
     rq_include_globs := []; rq_exclude_globs := [];
     rq_max_mb := 0%Q; rq_depth_limit := None;
     rq_skip_hidden := false; rq_respect_gitignore := false;
     rq_primary := {| ps_pattern := "("; ps_regex := true;
                      ps_case := false; ps_whole := false |};
     rq_content_filter_on := false;
     rq_content := {| ps_pattern := ""; ps_regex := false;
                      ps_case := false; ps_whole := false |};
     rq_first_match_per_file := false; rq_use_ripgrep := false;
     rq_filetype := "All" |}.

(** A Content request whose regex has a repeat count of [MAXREPEAT]. *)
Definition overflow_request : SearchRequest :=
  {| rq_mode := TextMode;
     rq_include_globs := []; rq_exclude_globs := [];
     rq_max_mb := 0%Q; rq_depth_limit := None;
     rq_skip_hidden := false; rq_respect_gitignore := false;
     rq_primary := {| ps_pattern := "a{4294967295}"; ps_regex := true;
                      ps_case := false; ps_whole := false |};
     rq_content_filter_on := false;
     rq_content := {| ps_pattern := ""; ps_regex := false;
                      ps_case := false; ps_whole := false |};
     rq_first_match_per_file := false; rq_use_ripgrep := false;
     rq_filetype := "All" |}.

Definition no_process : list str -> option (list rg_event * str) :=
  fun _ => None.

(** A host whose [re.compile] raises on whatever it is given. *)
Definition no_host : host_re := fun _ _ => HostRaises.

Definition fmt_zero : Q -> str := fun _ => s_ "0".

(** A consumer that never pauses and never cancels. *)
Definition never_cancel : nat -> bool := fun _ => false.
Definition never_pause : nat -> nat := fun _ => 0.

(* ================================================================== *)
(** ** Vocabulary of the further properties *)

(** Every entry below [n] has a name that is not empty and holds no
    separator, as the names a directory listing returns. *)
Fixpoint well_named (n : node) : bool :=
  match n with
  | NFile _ => true
  | NDir _ _ entries =>
      forallb (fun e : str * node =>
                 let (name, child) := e in
                 negb (is_empty name) && negb (has_char "/" name)
                 && well_named child)
              entries
  end.

(** An absolute, normalised directory path: not empty, and without a
    trailing separator unless it is the root [/]. *)
Definition tidy_path (p : str) : bool :=
  negb (is_empty p) && (negb (endswith "/" p) || str_eqb p "/").

(** What a stretch of a worker's run does to the state: it appends
    records that satisfy [Q] to the result queue and counts each of them,
    appends lines to the log, never lowers the scanned counter and never
    clears the stop flag. *)
Definition effect (Q : match_record -> Prop) (st st' : TabState) : Prop :=
  (exists l,
      result_q st' = result_q st ++ l
      /\ matches_found st' = matches_found st + length l
      /\ Forall Q l)
  /\ (exists m, log_q st' = log_q st ++ m)
  /\ files_scanned st <= files_scanned st'
  /\ (stop_event st = true -> stop_event st' = true).

(** A record of the Content worker: line [j] of a readable file that is
    not binary, yielded by the traversal and let through by the file-type
    and glob filters, carrying the line without its terminator, and
    accepted by the matcher. *)
Definition content_record_ok (fs : filesystem)
    (include_globs exclude_globs : list str) (filetype : str)
    (is_match : matcher) (entries : list walk_entry) (r : match_record)
  : Prop :=
  exists root dirs files fname text j line,
    r = ContentRecord (path_join root fname) j (rstrip_nl line)
    /\ In (root, dirs, files) entries /\ In fname files
    /\ glob_rejected include_globs exclude_globs fname = false
    /\ (str_eqb filetype "All" = true \/ endswith filetype fname = true)
    /\ is_binary_quick fs (path_join root fname) = false
    /\ read_file fs (path_join root fname) = Some text
    /\ nth_error (readlines text) (j - 1) = Some line /\ 1 <= j
    /\ is_match line = Some true.

(** A record of the FileName worker: a file yielded by the traversal, let
    through by the glob filters and the size cap, whose name the name
    matcher accepts; with the content filter on it is not binary and one
    of its lines is accepted by the content matcher. *)
Definition file_record_ok (fs : filesystem)
    (include_globs exclude_globs : list str) (max_mb : Q)
    (content_filter_on : bool) (match_name match_content : matcher)
    (entries : list walk_entry) (r : match_record) : Prop :=
  exists root dirs files fname size,
    r = FileRecord (path_join root fname) size
                   (getmtime fs (path_join root fname)) content_filter_on
    /\ In (root, dirs, files) entries /\ In fname files
    /\ glob_rejected include_globs exclude_globs fname = false
    /\ getsize fs (path_join root fname) = Some size
    /\ over_cap max_mb size = false
    /\ match_name fname = Some true
    /\ (content_filter_on = true ->
        is_binary_quick fs (path_join root fname) = false
        /\ exists text line,
             read_file fs (path_join root fname) = Some text
             /\ In line (readlines text)
             /\ match_content line = Some true).

(** A record of the FolderName worker: a subdirectory the traversal
    yielded and the exclude globs left, whose name the folder matcher
    accepts; its count of files is at most the number of files directly
    inside; with the content filter on it holds a scannable file. *)
Definition folder_record_ok (fs : filesystem) (exclude_globs : list str)
    (max_mb : Q) (content_filter_on : bool) (match_folder : matcher)
    (entries : list walk_entry) (r : match_record) : Prop :=
  exists root dirs files dname seen,
    r = FolderRecord (path_join root dname)
                     (getmtime fs (path_join root dname))
                     content_filter_on seen
    /\ In (root, dirs, files) entries
    /\ In dname (exclude_dirs exclude_globs dirs)
    /\ match_folder dname = Some true
    /\ match scandir fs (path_join root dname) with
       | Some es => seen <= length (filter (fun e => snd e) es)
       | None => seen = 0
       end
    /\ (content_filter_on = true ->
        has_scannable_file fs max_mb (path_join root dname) = true).

(** A record of the external backend: the path, line number and text of
    a ["match"] event of the child's output that carries a path and a
    line number. *)
Definition rg_record_ok (events : list rg_event) (r : match_record) : Prop :=
  exists path line_no text,
    r = ContentRecord path line_no (rstrip_nl text)
    /\ In (RgMatch (Some path) (Some line_no) text) events.

(** The queues of [st'] extend those of [st], and the match counter has
    advanced by the number of records added. *)
Definition in_step (st st' : TabState) : Prop :=
  exists l m,
    result_q st' = result_q st ++ l
    /\ matches_found st' = matches_found st + length l
    /\ log_q st' = log_q st ++ m.

(** A run that left the records, the file counter and the match counter
    as they were. *)
Definition untouched (st st' : TabState) : Prop :=
  result_q st' = result_q st
  /\ files_scanned st' = files_scanned st
  /\ matches_found st' = matches_found st.

(** *** What an uninterrupted run emits *)

(** A step from [st] to [st'] that adds the records [l] and counts [n]
    files, never clears the stop flag and, under a consumer that never
    cancels, never sets it. *)
Definition emits (cancel : nat -> bool) (l : list match_record) (n : nat)
    (st st' : TabState) : Prop :=
  result_q st' = result_q st ++ l
  /\ files_scanned st' = files_scanned st + n
  /\ (stop_event st = true -> stop_event st' = true)
  /\ ((forall k, cancel k = false) ->
      stop_event st = false -> stop_event st' = false).

(** A step that adds a prefix of the records [full]: nothing when the
    stop flag was set at the start, all of them (and [n] files counted)
    when it is still clear at the end. *)
Definition emits_prefix_of (cancel : nat -> bool) (full : list match_record)
    (n : nat) (st st' : TabState) : Prop :=
  exists l t,
    result_q st' = result_q st ++ l
    /\ full = l ++ t
    /\ (stop_event st = true -> l = [])
    /\ (stop_event st' = false ->
        t = [] /\ files_scanned st' = files_scanned st + n)
    /\ (stop_event st = true -> stop_event st' = true)
    /\ ((forall k, cancel k = false) ->
        stop_event st = false -> stop_event st' = false).

(** [enumerate(f, i)] *)
Definition numbered_from (i : nat) (lines : list str) : list (nat * str) :=
  combine (seq i (length lines)) lines.

Definition accepts (m : matcher) (line : str) : bool :=
  match m line with
  | Some true => true
  | _ => false
  end.

(** The records of the lines of a file the matcher accepts, in order,
    numbered from 1. *)
Definition matching_lines (m : matcher) (fpath : str) (lines : list str)
  : list match_record :=
  map (fun p : nat * str => ContentRecord fpath (fst p) (rstrip_nl (snd p)))
      (filter (fun p : nat * str => accepts m (snd p))
              (numbered_from 1 lines)).

Definition first_only (first_match_per_file : bool)
    (l : list match_record) : list match_record :=
  if first_match_per_file then firstn 1 l else l.

(** The size check of the Content worker, made only under a positive
    cap; a file whose size cannot be read counts as over the cap. *)
Definition size_capped (fs : filesystem) (max_mb : Q) (fpath : str) : bool :=
  if Qltb 0%Q max_mb then
    match getsize fs fpath with
    | Some size => Qltb (max_mb * 1024 * 1024)%Q (inject_Z (Z.of_nat size))
    | None => true
    end
  else false.

(** A file the Content worker counts: it passes the file type, the globs
    and the size check. *)
Definition text_counted (fs : filesystem) (include_globs exclude_globs
    : list str) (max_mb : Q) (filetype root fname : str) : bool :=
  (str_eqb filetype "All" || endswith filetype fname)
  && negb (glob_rejected include_globs exclude_globs fname)
  && negb (size_capped fs max_mb (path_join root fname)).

(** The records of one file: those of its matching lines when it is
    counted, not binary and readable. *)
Definition file_matches (fs : filesystem) (include_globs exclude_globs
    : list str) (max_mb : Q) (first_match_per_file : bool) (filetype : str)
    (m : matcher) (root fname : str) : list match_record :=
  let fpath := path_join root fname in
  if text_counted fs include_globs exclude_globs max_mb filetype root fname
     && negb (is_binary_quick fs fpath)
  then
    match read_file fs fpath with
    | Some text =>
        first_only first_match_per_file
                   (matching_lines m fpath (readlines text))
    | None => []
    end
  else [].

(** The records of a whole traversal, directory by directory and file
    by file, and the number of files counted. *)
Definition content_matches (fs : filesystem) (include_globs exclude_globs
    : list str) (max_mb : Q) (first_match_per_file : bool) (filetype : str)
    (m : matcher) (entries : list walk_entry) : list match_record :=
  flat_map (fun e : walk_entry =>
              flat_map (file_matches fs include_globs exclude_globs max_mb
                          first_match_per_file filetype m (fst (fst e)))
                       (snd e))
           entries.

Definition content_counted (fs : filesystem) (include_globs exclude_globs
    : list str) (max_mb : Q) (filetype : str) (entries : list walk_entry)
  : nat :=
  length
    (flat_map (fun e : walk_entry =>
                 filter (text_counted fs include_globs exclude_globs max_mb
                           filetype (fst (fst e)))
                        (snd e))
              entries).

(** The records of the external tool's match events that carry a path
    and a line number, and the count of its last summary event. *)
Definition rg_records (events : list rg_event) : list match_record :=
  flat_map (fun ev =>
              match ev with
              | RgMatch (Some path) (Some line_no) text =>
                  [ContentRecord path line_no (rstrip_nl text)]
              | _ => []
              end)
           events.

Definition rg_searched (events : list rg_event) (init : option nat)
  : option nat :=
  fold_left (fun acc ev =>
               match ev with
               | RgSummary n => n
               | _ => acc
               end)
            events init.

(** A child process that prints one match, a line that is not an event
    and a summary, and nothing on its standard error. *)
Definition one_match_process : list str -> option (list rg_event * str) :=
  fun _ =>
    Some ([RgMatch (Some (s_ "/root/a.txt")) (Some 1) (s_ "hello" ++ [c_nl]);
           RgOther; RgSummary (Some 3)], []).

(** A file the FileName worker counts: it passes the globs, its size
    can be read and is not over the cap. *)
Definition file_counted (fs : filesystem) (include_globs exclude_globs
    : list str) (max_mb : Q) (root fname : str) : bool :=
  negb (glob_rejected include_globs exclude_globs fname)
  && match getsize fs (path_join root fname) with
     | Some size => negb (over_cap max_mb size)
     | None => false
     end.

(** The record of one file: there is one when the file is counted, the
    name matcher accepts its name and, with the content filter on, the
    file is not binary, is readable and holds a line the content matcher
    accepts. *)
Definition file_hit (fs : filesystem) (include_globs exclude_globs
    : list str) (max_mb : Q) (content_filter_on : bool)
    (match_name match_content : matcher) (root fname : str)
  : list match_record :=
  let fpath := path_join root fname in
  if file_counted fs include_globs exclude_globs max_mb root fname
     && accepts match_name fname
     && (negb content_filter_on
         || (negb (is_binary_quick fs fpath)
             && match read_file fs fpath with
                | Some text => existsb (accepts match_content)
                                       (readlines text)
                | None => false
                end))
  then
    match getsize fs fpath with
    | Some size => [FileRecord fpath size (getmtime fs fpath)
                               content_filter_on]
    | None => []
    end
  else [].

Definition file_hits (fs : filesystem) (include_globs exclude_globs
    : list str) (max_mb : Q) (content_filter_on : bool)
    (match_name match_content : matcher) (entries : list walk_entry)
  : list match_record :=
  flat_map (fun e : walk_entry =>
              flat_map (file_hit fs include_globs exclude_globs max_mb
                          content_filter_on match_name match_content
                          (fst (fst e)))
                       (snd e))
           entries.

Definition files_counted (fs : filesystem) (include_globs exclude_globs
    : list str) (max_mb : Q) (entries : list walk_entry) : nat :=
  length
    (flat_map (fun e : walk_entry =>
                 filter (file_counted fs include_globs exclude_globs max_mb
                           (fst (fst e)))
                        (snd e))
              entries).

(* ================================================================== *)
(** ** Preview *)

(** The loop of [_read_context_lines] over [enumerate(f, 1)]: lines
    before [start] are passed over, the first line after [stop] ends the
    loop, the others are collected without their terminator. *)
Fixpoint context_loop (start stop : Z) (i : nat) (lines : list str)
    (out : list (nat * str)) : list (nat * str) :=
  match lines with
  | [] => out
  | line :: rest =>
      if (Z.of_nat i <? start)%Z then context_loop start stop (S i) rest out
      else if (stop <? Z.of_nat i)%Z then out
      else context_loop start stop (S i) rest (out ++ [(i, rstrip_nl line)])
  end.

(** [_read_context_lines]: the empty list when the file cannot be
    opened. *)
Definition read_context_lines (fs : filesystem) (path : str)
    (center_line context : Z) : list (nat * str) :=
  let start := Z.max 1 (center_line - context) in
  let stop := (center_line + context)%Z in
  match read_file fs path with
  | Some text => context_loop start stop 1 (readlines text) []
  | None => []
  end.

(** The line numbers from [center_line - context] to
    [center_line + context]. *)
Definition in_window (center_line context : Z) (p : nat * str) : bool :=
  (Z.max 1 (center_line - context) <=? Z.of_nat (fst p))%Z
  && (Z.of_nat (fst p) <=? center_line + context)%Z.

(* ================================================================== *)
(** ** Consumer: the controls and the queue pump *)

Inductive row_tag := OddRow | EvenRow.

(** A row of the result tree: the placeholder, whose item id is
    [__empty__], or the values of a record with the tag of its stripe. *)
Inductive tree_row :=
| EmptyRow
| ResultRow (values : match_record) (tag : row_tag).

(** The part of a tab the consumer works on: the run state, the pause
    event ([true] when set, that is when the run is not paused), the rows
    of the result tree and the messages inserted in the log pane. *)
Record TabView := {
  tv_run : TabState;
  pause_event : bool;
  result_tree : list tree_row;
  log_text : list str
}.

Definition with_run (st : TabState) (v : TabView) : TabView :=
  {| tv_run := st; pause_event := pause_event v;
     result_tree := result_tree v; log_text := log_text v |}.

Definition with_pause (b : bool) (v : TabView) : TabView :=
  {| tv_run := tv_run v; pause_event := b;
     result_tree := result_tree v; log_text := log_text v |}.

(** [pause_search] *)
Definition pause_search (v : TabView) : TabView :=
  with_run (log_put (s_ "Paused." ++ [c_nl]) (tv_run v))
           (with_pause false v).

(** [resume_search] *)
Definition resume_search (v : TabView) : TabView :=
  with_run (log_put (s_ "Resumed." ++ [c_nl]) (tv_run v))
           (with_pause true v).

(** [toggle_pause_resume] *)
Definition toggle_pause_resume (v : TabView) : TabView :=
  if stop_event (tv_run v) then v
  else if pause_event v then pause_search v
  else resume_search v.

(** The message of [stop_search]; its last character before the newline
    is the horizontal ellipsis, three bytes in UTF-8. *)
Definition stopping_line : str :=
  s_ "Stopping" ++ [ch 226; ch 128; ch 166] ++ [c_nl].

(** [stop_search] *)
Definition stop_search (v : TabView) : TabView :=
  with_run (log_put stopping_line (stop_set (tv_run v))) v.

Definition max_results_per_tick : nat := 800.
Definition max_logs_per_tick : nat := 300.

Definition is_empty_row (r : tree_row) : bool :=
  match r with
  | EmptyRow => true
  | ResultRow _ _ => false
  end.

(** ["oddrow" if idx % 2 else "evenrow"] *)
Definition stripe (idx : nat) : row_tag :=
  if Nat.odd idx then OddRow else EvenRow.

(** The first loop of [_pump_queues]: at most [budget] records leave the
    queue for the end of the tree. *)
Fixpoint drain_results (budget : nat) (q : list match_record) (idx : nat)
    (rows : list tree_row) (drained : bool)
  : list match_record * list tree_row * bool :=
  match budget, q with
  | S budget', values :: q' =>
      drain_results budget' q' (S idx)
                    (rows ++ [ResultRow values (stripe idx)]) true
  | _, _ => (q, rows, drained)
  end.

(** The second loop: at most [budget] messages leave the log queue for
    the end of the log pane. *)
Fixpoint drain_logs (budget : nat) (q : list str) (text : list str)
    (drained : bool) : list str * list str * bool :=
  match budget, q with
  | S budget', msg :: q' => drain_logs budget' q' (text ++ [msg]) true
  | _, _ => (q, text, drained)
  end.

Definition with_queues (lq : list str) (rq : list match_record)
    (st : TabState) : TabState :=
  {| log_q := lq; result_q := rq; stop_event := stop_event st;
     files_scanned := files_scanned st; matches_found := matches_found st;
     stop_reads := stop_reads st; pause_waits := pause_waits st |}.

(** One call of [_pump_queues].  The status labels are left out.  The
    second component is the delay in milliseconds after which the pump
    runs again, [None] when it does not schedule itself again. *)
Definition pump_queues (v : TabView) : TabView * option nat :=
  let st := tv_run v in
  let '(rq, rows, lq, text, drained) :=
    if pause_event v then
      let rows0 :=
        if existsb is_empty_row (result_tree v)
        then filter (fun r => negb (is_empty_row r)) (result_tree v)
        else result_tree v in
      let '(rq, rows, drained) :=
        drain_results max_results_per_tick (result_q st) (length rows0)
                      rows0 false in
      let '(lq, text, drained) :=
        drain_logs max_logs_per_tick (log_q st) (log_text v) drained in
      (rq, rows, lq, text, drained)
    else (result_q st, result_tree v, log_q st, log_text v, false) in
  let has_backlog := negb (is_empty_list rq) || negb (is_empty_list lq) in
  let v' := {| tv_run := with_queues lq rq st;
               pause_event := pause_event v;
               result_tree := rows;
               log_text := text |} in
  if negb (stop_event st) || drained
  then (v', Some (if has_backlog then 1 else 120))
  else (v', None).

(** The pump from one call on, while the worker adds nothing more: each
    call that schedules itself is followed by the next. *)
Fixpoint pump_run (fuel : nat) (v : TabView) : option TabView :=
  match fuel with
  | 0 => None
  | S fuel' =>
      match pump_queues v with
      | (v', None) => Some v'
      | (v', Some _) => pump_run fuel' v'
      end
  end.

(** The records shown in the tree, in row order. *)
Definition shown (rows : list tree_row) : list match_record :=
  flat_map (fun r =>
              match r with
              | ResultRow values _ => [values]
              | EmptyRow => []
              end)
           rows.

(** Rows for the records [l] striped from index [idx] on. *)
Definition striped_from (idx : nat) (l : list match_record)
  : list tree_row :=
  map (fun p : nat * match_record => ResultRow (snd p) (stripe (fst p)))
      (combine (seq idx (length l)) l).

(** A tree without the placeholder whose rows alternate, the first one
    even. *)
Definition striped (rows : list tree_row) : Prop :=
  rows = striped_from 0 (shown rows).

(** A tab in which a record and a message wait in the queues. *)
Definition waiting_view : TabView :=
  {| tv_run := result_put (ContentRecord (s_ "/root/a.txt") 1 (s_ "hello"))
                 (log_put (s_ "Scanning: /root" ++ [c_nl]) new_run);
     pause_event := true;
     result_tree := [EmptyRow];
     log_text := [] |}.

(* ================================================================== *)
(** ** Formatting a size *)

(** [f"{x:.1f}"] for the value [n / d] with [0 <= n] and [0 < d]: the
    tenths nearest to the value, a tie going to the even one, as the
    correctly rounded conversion of a float does. *)
Definition round_tenths (n d : Z) : Z :=
  let q := (10 * n / d)%Z in
  let r := ((10 * n) mod d)%Z in
  if (2 * r <? d)%Z then q
  else if (d <? 2 * r)%Z then (q + 1)%Z
  else if Z.even q then q else (q + 1)%Z.

Definition fmt_tenths (m : Z) : str :=
  str_of_Z (m / 10) ++ s_ "." ++ str_of_Z (m mod 10).

(** The loop of [fmt_size] over the units.  The value of [num_bytes]
    after the divisions made so far is [n / d]: dividing by [1024.0] is
    exact on a float that holds an integer below [2 ^ 53]. *)
Fixpoint fmt_size_units (units : list str) (n d : Z) : str :=
  match units with
  | [] => fmt_tenths (round_tenths n d) ++ s_ " PB"
  | unit :: rest =>
      if (n <? 1024 * d)%Z then
        if str_eqb unit "B" then str_of_Z n ++ s_ " " ++ unit
        else fmt_tenths (round_tenths n d) ++ s_ " " ++ unit
      else fmt_size_units rest n (1024 * d)
  end.

Definition size_units : list str :=
  [s_ "B"; s_ "KB"; s_ "MB"; s_ "GB"; s_ "TB"].

(** [fmt_size] *)
Definition fmt_size (num_bytes : Z) : str :=
  fmt_size_units size_units num_bytes 1.

(** The unit of the scale [1024 ^ k]. *)
Definition unit_name (k : nat) : str :=
  nth k size_units (s_ "PB").

(** A directory the traversal may enter: the base directory, or a
    subdirectory of one whose name no exclude glob matches and that is
    neither hidden (when hidden entries are skipped) nor ignored (when
    there are rules). *)
Definition kept_directory (base_dir : str) (skip_hidden : bool)
    (gitignore_rules : list rule) (exclude_globs : list str) (root : str)
  : Prop :=
  root = base_dir
  \/ exists parent name,
       root = path_join parent name
       /\ glob_any name exclude_globs = false
       /\ skip_hidden && is_hidden_path root = false
       /\ negb (is_empty_list gitignore_rules)
          && gitignore_ignored (rel_posix base_dir parent name) true
                               gitignore_rules = false.

(** *** What an uninterrupted FolderName run emits *)

(** A directory entry that [folder_content_matches] counts: a file that
    passes the hidden, glob and ignore filters, whose size can be read
    and is not over the cap. *)
Definition folder_file_counted (fs : filesystem) (include_globs exclude_globs
    : list str) (max_mb : Q) (skip_hidden : bool)
    (gitignore_rules : list rule) (folder_path : str) (e : str * bool)
  : bool :=
  entry_considered fs include_globs exclude_globs skip_hidden
                   gitignore_rules folder_path e
  && match getsize fs (path_join folder_path (fst e)) with
     | Some size => negb (over_cap max_mb size)
     | None => false
     end.

(** A file that is not binary, is readable and holds a line the matcher
    accepts. *)
Definition file_holds_match (fs : filesystem) (match_content : matcher)
    (path : str) : bool :=
  negb (is_binary_quick fs path)
  && match read_file fs path with
     | Some text => existsb (accepts match_content) (readlines text)
     | None => false
     end.

(** The elements before the first one that satisfies [p]. *)
Fixpoint before_first {A : Type} (p : A -> bool) (l : list A) : list A :=
  match l with
  | [] => []
  | x :: rest => if p x then [] else x :: before_first p rest
  end.

(** What [folder_content_matches] returns when nobody stops the run:
    with the content filter off, no match and the number of counted
    files; with it on, whether a counted file holds a match, and the
    number of counted files up to and including the first that does. *)
Definition folder_seen (fs : filesystem) (include_globs exclude_globs
    : list str) (max_mb : Q) (skip_hidden : bool)
    (gitignore_rules : list rule) (content_filter_on : bool)
    (match_content : matcher) (folder_path : str) : bool * nat :=
  let files :=
    filter (folder_file_counted fs include_globs exclude_globs max_mb
              skip_hidden gitignore_rules folder_path)
           (match scandir fs folder_path with
            | Some entries => entries
            | None => []
            end) in
  let holds := fun e : str * bool =>
    file_holds_match fs match_content (path_join folder_path (fst e)) in
  if content_filter_on && existsb holds files
  then (true, S (length (before_first holds files)))
  else (false, length files).

(** The record of one subdirectory. *)
Definition folder_hit (fs : filesystem) (include_globs exclude_globs
    : list str) (max_mb : Q) (skip_hidden : bool)
    (gitignore_rules : list rule) (content_filter_on : bool)
    (match_folder match_content : matcher) (root dname : str)
  : list match_record :=
  let folder_path := path_join root dname in
  let seen := folder_seen fs include_globs exclude_globs max_mb skip_hidden
                gitignore_rules content_filter_on match_content
                folder_path in
  if accepts match_folder dname
     && negb (content_filter_on && negb (fst seen))
  then [FolderRecord folder_path (getmtime fs folder_path)
                     content_filter_on (snd seen)]
  else [].

Definition folder_hits (fs : filesystem) (include_globs exclude_globs
    : list str) (max_mb : Q) (skip_hidden : bool)
    (gitignore_rules : list rule) (content_filter_on : bool)
    (match_folder match_content : matcher) (entries : list walk_entry)
  : list match_record :=
  flat_map (fun e : walk_entry =>
              flat_map (folder_hit fs include_globs exclude_globs max_mb
                          skip_hidden gitignore_rules content_filter_on
                          match_folder match_content (fst (fst e)))
                       (exclude_dirs exclude_globs (snd (fst e))))
           entries.

Definition folders_counted (exclude_globs : list str)
    (entries : list walk_entry) : nat :=
  length (flat_map (fun e : walk_entry =>
                      exclude_dirs exclude_globs (snd (fst e)))
                   entries).

(* ================================================================== *)
(** * Properties *)

(** ** The library models on concrete inputs *)

Example re_search_1 (host : host_re) :
  re_search host "\bcat\b" "the cat sat" = Some true.
Proof. vm_compute. reflexivity. Qed.
Example re_search_2 (host : host_re) :
  re_search host "\bcat\b" "concatenate" = Some false.
Proof. vm_compute. reflexivity. Qed.
Example re_search_3 (host : host_re) :
  re_search host "a(b|c)*d$" "xacbbd" = Some true.
Proof. vm_compute. reflexivity. Qed.
Example re_search_4 (host : host_re) :
  re_search host "a(b|c)*d$" "xacbbdz" = Some false.
Proof. vm_compute. reflexivity. Qed.
Example re_search_5 (host : host_re) :
  re_search host "[a-c]{2,3}x" "zzabcx" = Some true.
Proof. vm_compute. reflexivity. Qed.
Example re_search_6 (host : host_re) :
  re_search host "(a" "a" = None.
Proof. vm_compute. reflexivity. Qed.
Example re_search_7 (host : host_re) :
  re_search host "a)" "a" = None.
Proof. vm_compute. reflexivity. Qed.
Example re_search_8 (host : host_re) :
  re_search host "*a" "a" = None.
Proof. vm_compute. reflexivity. Qed.
Example re_search_9 (host : host_re) :
  re_search host "\b\\b" "a\b" = Some true.
Proof. vm_compute. reflexivity. Qed.
Example re_search_10 (host : host_re) :
  re_search host "\" "a\b" = None.
Proof. vm_compute. reflexivity. Qed.
Example re_search_11 (host : host_re) :
  re_search host "\bcat|dog\b" "cats" = Some true.
Proof. vm_compute. reflexivity. Qed.
Example re_search_12 (host : host_re) :
  re_search host "\b(?:cat|dog)\b" "cats" = Some false.
Proof. vm_compute. reflexivity. Qed.
Example re_search_13 (host : host_re) :
  re_search host "(a*)*b" "aaac" = Some false.
Proof. vm_compute. reflexivity. Qed.
Example re_search_14 (host : host_re) :
  re_search host "x{,2}y{3}" "yyy" = Some true.
Proof. vm_compute. reflexivity. Qed.
Example re_search_15 (host : host_re) :
  re_search host "a{" "a{" = Some true.
Proof. vm_compute. reflexivity. Qed.
Example re_search_16 (host : host_re) :
  re_search host "[]a]+$" "]a]" = Some true.
Proof. vm_compute. reflexivity. Qed.
Example re_search_17 (host : host_re) :
  re_search host "[^\d-]" "1-2" = Some false.
Proof. vm_compute. reflexivity. Qed.
Example re_search_18 (host : host_re) :
  re_search host "a**" "a" = None.
Proof. vm_compute. reflexivity. Qed.
Example re_search_19 (host : host_re) :
  re_search host "\b*" "a" = None.
Proof. vm_compute. reflexivity. Qed.
(** A repeat count of [MAXREPEAT] overflows: not an [re.error]. *)
Example re_compile_overflow (host : host_re) (ignorecase : bool) :
  re_compile host "a{4294967295}" ignorecase = Err OtherException
  /\ re_compile host "a{4294967295}(" ignorecase = Err OtherException
  /\ re_compile host "a{1,4294967295}" ignorecase = Err OtherException
  /\ re_compile host "a*{4294967295}" ignorecase = Err OtherException
  /\ re_compile host "a{2,1}" ignorecase = Err MinGreaterThanMax
  /\ re_compile host "a*{2,1}" ignorecase = Err MinGreaterThanMax
  /\ re_compile host "a*{1,2}" ignorecase = Err MultipleRepeat.
Proof. repeat split; vm_compute; reflexivity. Qed.

(** Inline flags, numeric escapes and possessive repeats are the
    host's. *)
Example re_compile_host (host : host_re) (p : str) (ignorecase : bool) :
  In p [s_ "(?i)hello"; s_ "\x41"; s_ "a*+"; s_ "(a)\1"] ->
  re_compile host p ignorecase
  = match host p ignorecase with
    | HostOk search => Ok (HostPattern search)
    | HostReError msg => Err (HostError msg)
    | HostRaises => Err OtherException
    end.
Proof.
  intros [<-|[<-|[<-|[<-|[]]]]]; reflexivity.
Qed.

Example re_escape_1 : re_escape "a.b*c" = "a\.b\*c".
Proof. vm_compute. reflexivity. Qed.
Example fnmatch_1 : fnmatchcase "app.log" "*.log" = true.
Proof. reflexivity. Qed.
Example fnmatch_2 : fnmatchcase "app.logs" "*.log" = false.
Proof. reflexivity. Qed.
Example fnmatch_3 : fnmatchcase "a1.c" "[a-c][!a-z].?" = true.
Proof. reflexivity. Qed.
Example fnmatch_4 : fnmatchcase "[x" "[x" = true.
Proof. reflexivity. Qed.
Example fnmatch_5 : fnmatchcase "]" "[]]" = true.
Proof. reflexivity. Qed.
Example fnmatch_6 : fnmatchcase "node_modules/a/b" "node_modules/**" = true.
Proof. reflexivity. Qed.
Example load_rules_1 :
  load_gitignore_rules (Some (s_ "# build" ++ [c_nl] ++ s_ "node_modules/"
                              ++ [c_nl; c_nl] ++ s_ "!important.txt" ++ [c_nl]
                              ++ s_ "*.log"))
  = [(s_ "node_modules/**", false, true); (s_ "important.txt", true, false);
     (s_ "*.log", false, false)].
Proof. reflexivity. Qed.

(** ** The parser never runs out of fuel *)

Ltac split_ifs :=
  repeat match goal with
         | |- context [if ?b then _ else _] => destruct b
         end.

Lemma escape_code_fuel (c : ascii) : escape_code c <> Err OutOfFuel.
Proof. unfold escape_code; split_ifs; discriminate. Qed.

Lemma class_code_fuel (t : token) : class_code t <> Err OutOfFuel.
Proof.
  destruct t as [c|c]; simpl; [discriminate|].
  unfold class_escape_code; split_ifs; discriminate.
Qed.

Lemma parse_set_items_fuel (n : nat) :
  forall (ts : list token) (acc : list set_item),
    length ts <= n ->
    parse_set_items acc ts <> Err OutOfFuel
    /\ forall items rest,
         parse_set_items acc ts = Ok (items, rest) -> length rest < length ts.
Proof.
  induction n as [|n IH]; intros ts acc Hn.
  - destruct ts; [|simpl in Hn; lia].
    simpl; split; [discriminate | intros ? ? [=]].
  - destruct ts as [|t ts1]; [simpl; split; [discriminate | intros ? ? [=]]|].
    simpl in Hn; simpl parse_set_items.
    destruct (is_tchar "]" t && _).
    { split; [discriminate | intros ? ? [= _ <-]; simpl; lia]. }
    pose proof (class_code_fuel t) as Hc.
    destruct (class_code t) as [code1|e]; [|split; [congruence|discriminate]].
    assert (Hplain : parse_set_items (code1 :: acc) ts1 <> Err OutOfFuel
                     /\ forall items rest,
                          parse_set_items (code1 :: acc) ts1 = Ok (items, rest)
                          -> length rest < length (t :: ts1)).
    { destruct (IH ts1 (code1 :: acc)) as (Ha & Hb); [lia|].
      split; [exact Ha|].
      intros items rest H; specialize (Hb _ _ H); simpl; lia. }
    destruct ts1 as [|[d|d] ts2]; try exact Hplain.
    destruct (d =? "-")%char; [|exact Hplain].
    destruct ts2 as [|t2 ts3]; [split; [discriminate | intros ? ? [=]]|].
    destruct (is_tchar "]" t2).
    { split; [discriminate | intros ? ? [= _ <-]; simpl; lia]. }
    pose proof (class_code_fuel t2) as Hc2.
    destruct (class_code t2) as [code2|e]; [|split; [congruence|discriminate]].
    destruct code1 as [lo| |]; try (split; [discriminate | intros ? ? [=]]).
    destruct code2 as [hi| |]; try (split; [discriminate | intros ? ? [=]]).
    destruct (code hi <? code lo); [split; [discriminate | intros ? ? [=]]|].
    destruct (IH ts3 (SRange lo hi :: acc)) as (Ha & Hb);
      [simpl in Hn |- *; lia|].
    split; [exact Ha|].
    intros items rest H; specialize (Hb _ _ H); simpl; lia.
Qed.

Lemma parse_set_fuel (ts : list token) :
  within (length ts) (parse_set ts).
Proof.
  assert (H : forall acc neg ts',
             length ts' <= length ts ->
             within (length ts)
               (do (items, rest) <- parse_set_items acc ts';
                Ok (RIn neg items, rest))).
  { intros acc neg ts' Hl.
    destruct (@parse_set_items_fuel (length ts') ts' acc (le_n _))
      as (Ha & Hb).
    destruct (parse_set_items acc ts') as [[items rest]|e]; simpl.
    - split; [discriminate|].
      intros r rest' [= _ <-]; specialize (Hb _ _ eq_refl); lia.
    - split; [congruence | discriminate]. }
  unfold parse_set; destruct ts as [|[c|c] ts']; try (apply H; lia).
  destruct (c =? "^")%char; apply H; simpl; lia.
Qed.

Lemma take_digits_length (ts : list token) (acc : N) (seen : nat) :
  length (snd (take_digits acc seen ts)) <= length ts.
Proof.
  revert acc seen; induction ts as [|[c|c] ts IH]; intros acc seen; simpl;
    try lia.
  destruct (is_digit c); simpl; [|lia].
  apply Nat.le_trans with (length ts); [apply IH | lia].
Qed.

Lemma brace_spec_fuel (ts : list token) :
  match brace_spec ts with
  | Some (Ok (_, _, rest)) => length rest < length ts
  | Some (Err e) => e <> OutOfFuel
  | None => True
  end.
Proof.
  unfold brace_spec; destruct ts as [|[c|c] ts']; try exact I.
  destruct (c =? "}")%char; [exact I|].
  pose proof (take_digits_length (TChar c :: ts') 0 0) as H1.
  destruct (take_digits 0 0 (TChar c :: ts')) as [lo r1]; simpl in H1.
  assert (H2 : forall p : nat * N * list token,
             p = (lo, r1) \/ (exists r1', length r1' < length r1
                                          /\ p = take_digits 0 0 r1') ->
             length (snd p) <= length r1).
  { intros p [-> | (r1' & Hl & ->)]; simpl; [lia|].
    pose proof (take_digits_length r1' 0 0); lia. }
  match goal with
  | |- context [let '(hi, r2) := ?p in _] =>
      assert (H3 : length (snd p) <= length r1)
  end.
  { destruct r1 as [|[d|d] r1']; try (apply H2; left; reflexivity).
    destruct (d =? ",")%char; apply H2; [right | left; reflexivity].
    exists r1'; simpl; split; [lia | reflexivity]. }
  match goal with
  | |- context [let '(hi, r2) := ?p in _] => destruct p as [hi r2]
  end; simpl in H3.
  destruct r2 as [|[e|e] rest]; try exact I.
  destruct (e =? "}")%char; [|exact I].
  simpl in H3.
  unfold repeat_count.
  destruct (fst lo =? 0); simpl;
    [|destruct (max_str_digits <? fst lo); simpl; [discriminate|];
      destruct (MAXREPEAT <=? snd lo)%N; simpl; [discriminate|]];
    (destruct (fst hi =? 0); simpl;
     [|destruct (max_str_digits <? fst hi); simpl; [discriminate|];
       destruct (MAXREPEAT <=? snd hi)%N; simpl; [discriminate|];
       destruct (_ <? _)%N; [discriminate|]]);
    simpl; lia.
Qed.

Lemma repeat_spec_fuel (ts : list token) :
  match repeat_spec ts with
  | Some (Ok (_, _, rest)) => length rest < length ts
  | Some (Err e) => e <> OutOfFuel
  | None => True
  end.
Proof.
  unfold repeat_spec; destruct ts as [|[c|c] rest]; try exact I.
  split_ifs; simpl; try lia; try exact I.
  pose proof (brace_spec_fuel rest) as H.
  destruct (brace_spec rest) as [[[[lo hi] r]|e]|]; simpl; try exact H; lia.
Qed.

Lemma apply_repeat_fuel (a : regex) (ts : list token) :
  within (length ts) (apply_repeat a ts).
Proof.
  unfold apply_repeat, within.
  pose proof (repeat_spec_fuel ts) as H.
  destruct (repeat_spec ts) as [[[[lo hi] rest]|e]|].
  - destruct (is_at a); [split; [discriminate | intros ? ? [=]]|].
    assert (Hafter : forall rest1,
               length rest1 <= length rest ->
               (do rest0 <- Ok rest1;
                match repeat_spec rest0 with
                | Some (Err e) => Err e
                | Some (Ok _) => Err MultipleRepeat
                | None => Ok (RRepeat lo hi a, rest0)
                end) <> Err OutOfFuel
               /\ forall r rest',
                    (do rest0 <- Ok rest1;
                     match repeat_spec rest0 with
                     | Some (Err e) => Err e
                     | Some (Ok _) => Err MultipleRepeat
                     | None => Ok (RRepeat lo hi a, rest0)
                     end) = Ok (r, rest') -> length rest' <= length ts).
    { intros rest1 Hl; simpl.
      pose proof (repeat_spec_fuel rest1) as H1.
      destruct (repeat_spec rest1) as [[x|e]|];
        [split; [discriminate | intros ? ? [=]]
        |split; [congruence | discriminate]|].
      split; [discriminate | intros ? ? [= _ <-]; lia]. }
    destruct rest as [|[c|c] rest']; try (apply Hafter; lia).
    destruct (c =? "?")%char; [apply Hafter; simpl; lia|].
    destruct (c =? "+")%char; [split; [discriminate | intros ? ? [=]]|].
    apply Hafter; lia.
  - split; [congruence | discriminate].
  - split; [discriminate | intros ? ? [= _ <-]; lia].
Qed.

Lemma parse_atom_fuel (sub : parser) (t : token) (rest : list token) :
  (forall ts, length ts <= length rest -> within (length ts) (sub ts)) ->
  within (length rest) (parse_atom sub t rest).
Proof.
  intros Hsub; unfold parse_atom.
  destruct t as [c|c].
  - destruct (c =? "[")%char.
    { apply parse_set_fuel. }
    destruct (c =? "(")%char.
    { assert (Hbody : forall inner,
                 length inner <= length rest ->
                 within (length rest)
                   (do inner0 <- Ok inner;
                    do (r, rest3) <- sub inner0;
                    match rest3 with
                    | TChar e :: rest4 =>
                        if (e =? ")")%char then Ok (RGroup r, rest4)
                        else Err MissingParenthesis
                    | _ => Err MissingParenthesis
                    end)).
      { intros inner Hl; simpl.
        destruct (Hsub inner Hl) as (Ha & Hb).
        destruct (sub inner) as [[r rest3]|e]; simpl;
          [|split; [congruence | discriminate]].
        specialize (Hb _ _ eq_refl).
        destruct rest3 as [|[e|e] rest4];
          try (split; [discriminate | intros ? ? [=]]).
        destruct (e =? ")")%char;
          [|split; [discriminate | intros ? ? [=]]].
        split; [discriminate | intros ? ? [= _ <-]; simpl in Hb; lia]. }
      destruct rest as [|[q|q] rest1]; try (apply Hbody; lia).
      destruct (q =? "?")%char; [|apply Hbody; lia].
      destruct rest1 as [|[k|k] rest2];
        try (split; [discriminate | intros ? ? [=]]).
      destruct (k =? ":")%char; [apply Hbody; simpl; lia|].
      split; [discriminate | intros ? ? [=]]. }
    destruct (c =? ".")%char;
      [split; [discriminate | intros ? ? [= _ <-]; lia]|].
    destruct (c =? "^")%char;
      [split; [discriminate | intros ? ? [= _ <-]; lia]|].
    destruct (c =? "$")%char;
      [split; [discriminate | intros ? ? [= _ <-]; lia]|].
    pose proof (repeat_spec_fuel (TChar c :: rest)) as H.
    destruct (repeat_spec (TChar c :: rest)) as [[x|e]|].
    + split; [discriminate | intros ? ? [=]].
    + split; [congruence | discriminate].
    + split; [discriminate | intros ? ? [= _ <-]; lia].
  - pose proof (escape_code_fuel c) as H.
    destruct (escape_code c) as [r|e]; simpl.
    + split; [discriminate | intros ? ? [= _ <-]; lia].
    + split; [congruence | discriminate].
Qed.

Lemma parse_fuel (n : nat) :
  (forall ts, 2 * length ts + 2 <= n -> within (length ts) (parse_sub n ts))
  /\ (forall ts, 2 * length ts + 1 <= n ->
                 within (length ts) (parse_seq n ts)).
Proof.
  induction n as [|n [IHsub IHseq]]; [split; intros ts H; lia|].
  split; intros ts Hn.
  - simpl parse_sub.
    destruct (IHseq ts) as (Ha & Hb); [lia|].
    destruct (parse_seq n ts) as [[r1 rest]|e]; simpl;
      [|split; [congruence | discriminate]].
    specialize (Hb _ _ eq_refl).
    destruct rest as [|t rest'];
      [split; [discriminate | intros ? ? [= _ <-]; simpl; lia]|].
    destruct (is_tchar "|" t);
      [|split; [discriminate | intros ? ? [= _ <-]; exact Hb]].
    simpl in Hb.
    destruct (IHsub rest') as (Hc & Hd); [lia|].
    destruct (parse_sub n rest') as [[r2 rest2]|e]; simpl.
    + split; [discriminate|].
      intros ? ? [= _ <-]; specialize (Hd _ _ eq_refl); lia.
    + split; [congruence | discriminate].
  - simpl parse_seq.
    destruct ts as [|t rest];
      [split; [discriminate | intros ? ? [= _ <-]; simpl; lia]|].
    destruct (ends_sequence t);
      [split; [discriminate | intros ? ? [= _ <-]; lia]|].
    simpl in Hn.
    destruct (@parse_atom_fuel (parse_sub n) t rest) as (Ha & Hb).
    { intros ts Hl; apply IHsub; lia. }
    destruct (parse_atom (parse_sub n) t rest) as [[a rest1]|e]; simpl;
      [|split; [congruence | discriminate]].
    specialize (Hb _ _ eq_refl).
    destruct (apply_repeat_fuel a rest1) as (Hc & Hd).
    destruct (apply_repeat a rest1) as [[a' rest2]|e]; simpl;
      [|split; [congruence | discriminate]].
    specialize (Hd _ _ eq_refl).
    destruct (IHseq rest2) as (He & Hf); [lia|].
    destruct (parse_seq n rest2) as [[r rest3]|e]; simpl.
    + split; [discriminate|].
      intros ? ? [= _ <-]; specialize (Hf _ _ eq_refl); lia.
    + split; [congruence | discriminate].
Qed.

Lemma tokenize_fuel (s : str) : tokenize s <> Err OutOfFuel.
Proof.
  assert (H : forall n s, length s <= n -> tokenize s <> Err OutOfFuel).
  { clear s; induction n as [|n IH]; intros [|c s] Hl; simpl in *;
      try discriminate; try lia.
    destruct (c =? c_bslash)%char.
    - destruct s as [|d s]; [discriminate|].
      simpl in Hl; specialize (IH s ltac:(lia)).
      destruct (tokenize s); simpl; [discriminate | congruence].
    - specialize (IH s ltac:(lia)).
      destruct (tokenize s); simpl; [discriminate | congruence]. }
  apply (H (length s)); lia.
Qed.

(** The fuel [re_parse] hands to the parser is always enough: a pattern
    is rejected only for a reason [re.compile] has (or for a construct
    outside the modelled syntax). *)
Lemma re_parse_fuel (s : str) : re_parse s <> Err OutOfFuel.
Proof.
  unfold re_parse.
  destruct (tokenize s) as [ts|e]; simpl.
  - unfold parse_tokens.
    destruct (max_groups <? open_groups ts); [discriminate|].
    destruct (proj1 (parse_fuel (2 * length ts + 2)) ts (le_n _))
      as (Ha & _).
    destruct (parse_sub _ ts) as [[r [|t rest]]|e]; simpl;
      [discriminate | discriminate | congruence].
  - destruct (tokenize (removelast s)) as [ts|e']; [|discriminate].
    destruct (parse_tokens ts); discriminate.
Qed.

(** ** Ignore rules *)

Lemma rule_step_matches (rel : str) (is_dir ignored : bool) (r : rule) :
  rule_step rel (after_last "/" rel) is_dir ignored r
  = if rule_matches rel is_dir r then negb (rule_negated r) else ignored.
Proof.
  destruct r as [[pat negated] dir_only]; unfold rule_step, rule_matches,
    rule_negated; simpl.
  destruct (dir_only && negb is_dir); simpl; [reflexivity|].
  destruct (fnmatchcase _ pat); reflexivity.
Qed.

Lemma gitignore_ignored_fold (rel : str) (is_dir : bool) (rules : list rule) :
  gitignore_ignored rel is_dir rules
  = fold_left (rule_step rel (after_last "/" rel) is_dir) rules false.
Proof. destruct rules; reflexivity. Qed.

(** Appending a rule: it decides when it applies, else the earlier rules
    do. *)
Lemma gitignore_ignored_snoc (rel : str) (is_dir : bool) (rules : list rule)
    (r : rule) :
  gitignore_ignored rel is_dir (rules ++ [r])
  = if rule_matches rel is_dir r then negb (rule_negated r)
    else gitignore_ignored rel is_dir rules.
Proof.
  rewrite !gitignore_ignored_fold, fold_left_app; simpl.
  apply rule_step_matches.
Qed.

(** C3. Rules are evaluated in order and the last rule that applies
    decides; a path no rule applies to is not ignored.  For the ignore
    file with the lines [*.log] and [!keep.log], [app.log] is ignored and
    [keep.log] is not. *)
Theorem ignore_last_match_wins :
  let rules :=
    load_gitignore_rules (Some (s_ "*.log" ++ [c_nl] ++ s_ "!keep.log"
                                ++ [c_nl])) in
  rules = [(s_ "*.log", false, false); (s_ "keep.log", true, false)]
  /\ gitignore_ignored "app.log" false rules = true
  /\ gitignore_ignored "keep.log" false rules = false
  /\ (forall (rel : str) (is_dir : bool) (rs : list rule),
        gitignore_ignored rel is_dir rs
        = match find (rule_matches rel is_dir) (rev rs) with
          | Some r => negb (rule_negated r)
          | None => false
          end).
Proof.
  cbv zeta. repeat split.
  intros rel is_dir rs.
  induction rs as [|r rs IH] using rev_ind; [reflexivity|].
  rewrite gitignore_ignored_snoc, rev_unit; simpl.
  destruct (rule_matches rel is_dir r); [reflexivity | exact IH].
Qed.

Lemma translate_plain (name tail : str) :
  plain_name name = true ->
  translate (name ++ tail) = map GLit name ++ translate tail.
Proof.
  unfold translate; induction name as [|c name IH]; simpl; [reflexivity|].
  rewrite andb_true_iff, negb_true_iff, !orb_false_iff.
  intros (((H1 & H2) & H3) & H); rewrite H1, H2, H3, (IH H); reflexivity.
Qed.

Lemma glob_match_needs_more (name : str) (c : ascii) (g : list glob_item) :
  glob_match (map GLit name ++ GLit c :: g) name = false.
Proof.
  induction name as [|d name IH]; simpl; [reflexivity|].
  rewrite Ascii.eqb_refl; exact IH.
Qed.

(** The rewritten pattern of a directory-only rule never matches the
    directory it was written for. *)
Lemma dir_only_rule_never_names_itself (name : str) (negated : bool) :
  plain_name name = true ->
  rule_matches name true (name ++ s_ "/**", negated, true) = false
  /\ gitignore_ignored name true [(name ++ s_ "/**", negated, true)] = false.
Proof.
  intros Hp.
  assert (Hm : fnmatchcase name (name ++ s_ "/**") = false).
  { unfold fnmatchcase; rewrite translate_plain by exact Hp.
    apply glob_match_needs_more. }
  assert (Hs : has_char "/" (name ++ s_ "/**") = true).
  { unfold has_char; rewrite existsb_app; simpl; apply orb_true_r. }
  assert (Hr : rule_matches name true (name ++ s_ "/**", negated, true)
               = false).
  { unfold rule_matches; rewrite Hs, Hm; reflexivity. }
  split; [exact Hr|].
  change [(name ++ s_ "/**", negated, true)]
    with ([] ++ [(name ++ s_ "/**", negated, true)]).
  rewrite gitignore_ignored_snoc, Hr; reflexivity.
Qed.

(** C4. The line [node_modules/] is parsed into the directory-only rule
    with pattern [node_modules/**]; evaluated on the directory
    [node_modules] itself the rule does not apply, so the directory is
    not ignored, while a directory beneath it is and a file beneath it is
    not. *)
Theorem dir_only_rule_misses_named_directory :
  let rules := load_gitignore_rules (Some (s_ "node_modules/" ++ [c_nl])) in
  rules = [(s_ "node_modules/**", false, true)]
  /\ gitignore_ignored "node_modules" true rules = false
  /\ gitignore_ignored "node_modules/pkg" true rules = true
  /\ gitignore_ignored "node_modules/index.js" false rules = false.
Proof. cbv zeta. repeat split. Qed.

(** ** External backend: the exclude filters *)

Lemma strip_not_in_entry_globs (text : str) (g : str) :
  In g (entry_globs text) -> g <> [].
Proof.
  unfold entry_globs; intros H; apply filter_In in H as [_ H].
  destruct g; [discriminate | congruence].
Qed.

Lemma rg_exclude_args_nonempty (g : str) :
  g <> [] ->
  rg_exclude_args g
  = if has_wildcard_or_sep g then [s_ "--glob"; s_ "!" ++ g]
    else [s_ "--glob"; s_ "!" ++ g; s_ "--glob"; s_ "!**/" ++ g ++ s_ "/**"].
Proof.
  intros Hg; unfold rg_exclude_args, has_wildcard_or_sep.
  destruct g; [congruence | reflexivity].
Qed.

(** C9. In the command line built for the external tool, an exclude glob
    read from the exclude field adds, between what the globs before it
    and the globs after it add, exactly the two filters [!g] and
    [!**/g/**] when it has no wildcard character and no path separator,
    and exactly the one filter [!g] when it has one. *)
Theorem rg_exclude_translation
    (fs : filesystem) (fmt_g : Q -> str)
    (include_globs : list str) (max_mb : Q) (depth_limit : option Z)
    (skip_hidden respect_gitignore first_match_per_file : bool)
    (pattern : str) (use_regex case whole : bool) (filetype rg : str)
    (exclude_text : str) (before after : list str) (g : str) :
  entry_globs exclude_text = before ++ g :: after ->
  let command (exclude_globs : list str) :=
    rg_command fs fmt_g include_globs exclude_globs max_mb depth_limit
               skip_hidden respect_gitignore first_match_per_file pattern
               use_regex case whole filetype rg in
  command (entry_globs exclude_text)
  = (rg_options fmt_g include_globs max_mb depth_limit skip_hidden
                respect_gitignore first_match_per_file use_regex case whole
                filetype rg
     ++ flat_map rg_exclude_args before)
    ++ (if has_wildcard_or_sep g
        then [s_ "--glob"; s_ "!" ++ g]
        else [s_ "--glob"; s_ "!" ++ g;
              s_ "--glob"; s_ "!**/" ++ g ++ s_ "/**"])
    ++ (flat_map rg_exclude_args after ++ [s_ "--"; pattern; fs_base fs]).
Proof.
  intros Hsplit command; unfold command, rg_command.
  assert (Hg : g <> []).
  { apply (strip_not_in_entry_globs exclude_text).
    rewrite Hsplit; apply in_elt. }
  rewrite Hsplit, flat_map_app; simpl flat_map.
  rewrite (rg_exclude_args_nonempty Hg).
  rewrite <- !app_assoc; reflexivity.
Qed.

Lemma rg_exclude_translation_witness :
  entry_globs ".git; __pycache__ ;;*.pyc"
  = [s_ ".git"] ++ s_ "__pycache__" :: [s_ "*.pyc"]
  /\ rg_command demo_fs fmt_zero []
                (entry_globs ".git; __pycache__ ;;*.pyc")
                0%Q None false true false "hello" false false false "All" "rg"
     = [s_ "rg"; s_ "--json"; s_ "-F"; s_ "-i"; s_ "--hidden";
        s_ "--glob"; s_ "!.git"; s_ "--glob"; s_ "!**/.git/**";
        s_ "--glob"; s_ "!__pycache__"; s_ "--glob"; s_ "!**/__pycache__/**";
        s_ "--glob"; s_ "!*.pyc";
        s_ "--"; s_ "hello"; s_ "/root"].
Proof.
  split; [reflexivity|].
  rewrite (@rg_exclude_translation demo_fs fmt_zero [] 0%Q None
             false true false "hello" false false false "All" "rg"
             ".git; __pycache__ ;;*.pyc" [s_ ".git"] [s_ "*.pyc"]
             "__pycache__" eq_refl).
  reflexivity.
Defined.

(** ** Traversal *)

Lemma cur_depth_base (base : str) : cur_depth base base = 0%Z.
Proof. unfold cur_depth, base_depth; lia. Qed.

Lemma exclude_dirs_nil (globs : list str) : exclude_dirs globs [] = [].
Proof. destruct globs; reflexivity. Qed.

Lemma prune_dirs_at_limit (base : str) (limit : Z) (skip_hidden : bool)
    (rules : list rule) (root : str) (dirs : list str) :
  (limit <= cur_depth base root)%Z ->
  prune_dirs base (Some limit) skip_hidden rules root dirs = [].
Proof.
  intros H; unfold prune_dirs.
  apply Z.leb_le in H; rewrite H.
  destruct skip_hidden, rules; reflexivity.
Qed.

Lemma keep_files_unfiltered (base root : str) (files : list str) :
  keep_files base false [] root files = files.
Proof. reflexivity. Qed.

(** C6. With a depth limit of 0 the traversal of a listable root yields
    one entry: the root, an empty list of subdirectories, and the root's
    files that pass the hidden and ignore filters (all of them when
    neither filter is on).  More generally the traversal from a directory
    whose depth has reached the limit yields that one directory, with its
    files and no subdirectories, and goes no deeper. *)
Theorem walk_depth_limit
    (fs : filesystem) (skip_hidden : bool) (rules : list rule)
    (exclude_globs : list str) (mtime : option nat)
    (entries : list (str * node)) :
  fs_root fs = NDir true mtime entries ->
  walk_with_depth fs (Some 0%Z) skip_hidden rules (exclude_dirs exclude_globs)
  = [(fs_base fs, [],
      keep_files (fs_base fs) skip_hidden rules (fs_base fs)
                 (file_names entries))]
  /\ walk_with_depth fs (Some 0%Z) false [] (exclude_dirs exclude_globs)
     = [(fs_base fs, [], file_names entries)]
  /\ (forall (limit : Z) (root : str) (m : option nat)
             (es : list (str * node)),
        (limit <= cur_depth (fs_base fs) root)%Z ->
        walk (fs_base fs) (Some limit) skip_hidden rules
             (exclude_dirs exclude_globs) root (NDir true m es)
        = [(root, [],
            keep_files (fs_base fs) skip_hidden rules root (file_names es))]).
Proof.
  intros Hroot.
  assert (Hgen : forall sh rs (limit : Z) (root : str) (m : option nat)
                        (es : list (str * node)),
             (limit <= cur_depth (fs_base fs) root)%Z ->
             walk (fs_base fs) (Some limit) sh rs
                  (exclude_dirs exclude_globs) root (NDir true m es)
             = [(root, [],
                 keep_files (fs_base fs) sh rs root (file_names es))]).
  { intros sh rs limit root m es Hd; simpl.
    rewrite prune_dirs_at_limit by exact Hd.
    rewrite exclude_dirs_nil.
    reflexivity. }
  unfold walk_with_depth; rewrite Hroot.
  repeat split.
  - apply Hgen; rewrite cur_depth_base; lia.
  - rewrite Hgen by (rewrite cur_depth_base; lia); reflexivity.
  - intros; apply Hgen; assumption.
Qed.

Lemma walk_depth_limit_witness :
  walk_with_depth demo_fs (Some 0%Z) false [] (exclude_dirs [s_ ".git"])
  = [(s_ "/root", [], [s_ "a.txt"; s_ "b.bin"])]
  /\ walk "/root" (Some 1%Z) false [] (exclude_dirs [s_ ".git"]) "/root/sub"
          (NDir true (Some 0) [(s_ "c.txt", NFile (text_file_of "hello"));
                               (s_ "deep", NDir true None [])])
     = [(s_ "/root/sub", [], [s_ "c.txt"])].
Proof.
  pose proof (@walk_depth_limit demo_fs false [] [s_ ".git"] (Some 0) _
                eq_refl) as (_ & H0 & Hgen).
  split; [exact H0|].
  apply (Hgen 1%Z (s_ "/root/sub")).
  vm_compute; discriminate.
Defined.

Example walk_unlimited :
  walk_with_depth demo_fs None false [] (exclude_dirs [])
  = [(s_ "/root", [s_ "sub"], [s_ "a.txt"; s_ "b.bin"]);
     (s_ "/root/sub", [], [s_ "c.txt"])].
Proof. reflexivity. Qed.

Example walk_depth_one :
  walk_with_depth demo_fs (Some 1%Z) false [] (exclude_dirs [])
  = [(s_ "/root", [s_ "sub"], [s_ "a.txt"; s_ "b.bin"]);
     (s_ "/root/sub", [], [s_ "c.txt"])].
Proof. reflexivity. Qed.

(** ** Workers: what the control surface leaves untouched *)

Lemma str_eqb_eq (a b : str) : str_eqb a b = true <-> a = b.
Proof.
  revert b; induction a as [|x a IH]; intros [|y b]; simpl;
    try (split; [discriminate | congruence]); [tauto|].
  rewrite andb_true_iff, Ascii.eqb_eq, IH.
  split; [intros [-> ->]; reflexivity | intros [= -> ->]; tauto].
Qed.

Section ControlFacts.

Variable cancel : nat -> bool.
Variable pause_spins : nat -> nat.

Lemma same_output_refl (st : TabState) : same_output st st.
Proof. repeat split. Qed.

Lemma same_output_trans (a b c : TabState) :
  same_output a b -> same_output b c -> same_output a c.
Proof. unfold same_output; intuition congruence. Qed.

Lemma stop_is_set_same (st : TabState) :
  same_output st (snd (stop_is_set cancel st)).
Proof. repeat split. Qed.

Lemma spin_same (n : nat) (st : TabState) :
  same_output st (spin cancel n st).
Proof.
  revert st; induction n as [|n IH]; intros st; simpl.
  - apply same_output_refl.
  - destruct (stop_event st || cancel (stop_reads st)).
    + repeat split.
    + eapply same_output_trans; [|apply IH]. repeat split.
Qed.

Lemma pause_loop_same (st : TabState) :
  same_output st (pause_loop cancel pause_spins st).
Proof.
  unfold pause_loop.
  destruct (spin_same (pause_spins (pause_waits st)) st) as (?&?&?&?).
  repeat split; assumption.
Qed.

Lemma content_scan_same (mc : matcher) (lines : list str) (st : TabState) :
  same_output st (fst (content_scan cancel pause_spins mc lines st)).
Proof.
  revert st; induction lines as [|line rest IH]; intros st; simpl.
  - apply same_output_refl.
  - destruct (stop_event st || cancel (stop_reads st)) eqn:Hstop; simpl.
    + repeat split.
    + set (st2 := pause_loop cancel pause_spins _).
      assert (Hs : same_output st st2).
      { eapply same_output_trans; [|apply pause_loop_same]. repeat split. }
      destruct (mc line) as [[|]|]; simpl; try exact Hs.
      eapply same_output_trans; [exact Hs | apply IH].
Qed.

(** The stop flag is never cleared. *)
Lemma stop_is_set_monotone (st : TabState) :
  stop_event st = true -> stop_is_set cancel st
  = (true, snd (stop_is_set cancel st)).
Proof. intros H; unfold stop_is_set; rewrite H; reflexivity. Qed.

End ControlFacts.

Opaque pause_loop.

(** ** Content worker: first match per file *)

Section FirstMatch.

Variable fs : filesystem.
Variable cancel : nat -> bool.
Variable pause_spins : nat -> nat.
Variables include_globs exclude_globs : list str.
Variable max_mb : Q.
Variable filetype : str.

Lemma scan_lines_first_match (is_match : matcher) (fpath : str)
    (lines : list str) (i : nat) (matched : bool) (st : TabState) :
  exists l,
    result_q (fst (scan_lines cancel pause_spins true is_match fpath i lines
                              matched st))
    = result_q st ++ l
    /\ length l <= 1
    /\ (forall r, In r l ->
          exists j line, r = ContentRecord fpath j (rstrip_nl line)
                         /\ In line lines /\ is_match line = Some true).
Proof.
  revert i matched st; induction lines as [|line rest IH]; intros i matched st.
  - exists []; simpl; rewrite app_nil_r; repeat split; [lia | intros ? []].
  - simpl.
    destruct (stop_event st || cancel (stop_reads st)) eqn:Hstop; simpl.
    + exists []; simpl; rewrite app_nil_r; repeat split; [lia | intros ? []].
    + set (st1 := {| log_q := _ |}).
      destruct (pause_loop_same cancel pause_spins st1) as (Hq & _).
      destruct (is_match line) as [[|]|] eqn:Hm; simpl.
      * exists [ContentRecord fpath i (rstrip_nl line)].
        rewrite Hq; repeat split; [simpl; lia|].
        intros r [<-|[]]; exists i, line; simpl; auto.
      * destruct (IH (S i) matched (pause_loop cancel pause_spins st1))
          as (l & Hl & Hlen & Hin).
        exists l; rewrite Hl, Hq; repeat split; [assumption|].
        intros r Hr; destruct (Hin r Hr) as (j & ln & ? & ? & ?).
        exists j, ln; simpl; auto.
      * exists []; rewrite app_nil_r, Hq.
        repeat split; [simpl; lia | intros ? []].
Qed.

(** C5. With [first_match_per_file] set, the processing of one file by the
    Content worker appends at most one record to the result queue, whatever
    the number of matching lines, and that record is a matching line of
    this file. *)
Theorem first_match_per_file_at_most_one (is_match : matcher)
    (root fname : str) (st : TabState) :
  exists l,
    result_q (text_file fs cancel pause_spins include_globs exclude_globs
                        max_mb true filetype is_match root fname st)
    = result_q st ++ l
    /\ length l <= 1
    /\ (forall r, In r l ->
          record_path r = path_join root fname
          /\ exists j line, r = ContentRecord (path_join root fname) j
                                              (rstrip_nl line)
                            /\ is_match line = Some true).
Proof.
  assert (Hnone : exists l : list match_record,
             result_q st = result_q st ++ l /\ length l <= 1
             /\ (forall r, In r l ->
                   record_path r = path_join root fname
                   /\ exists j line,
                        r = ContentRecord (path_join root fname) j
                                          (rstrip_nl line)
                        /\ is_match line = Some true)).
  { exists []; rewrite app_nil_r; repeat split; simpl; [lia | | ];
      intros; contradiction. }
  unfold text_file.
  destruct (negb (str_eqb filetype "All") && negb (endswith filetype fname));
    [exact Hnone|].
  destruct (glob_rejected include_globs exclude_globs fname); [exact Hnone|].
  match goal with |- context [if ?c then st else _] => destruct c end;
    [exact Hnone|].
  destruct (is_binary_quick fs (path_join root fname)); [exact Hnone|].
  destruct (read_file fs (path_join root fname)) as [text|]; [|exact Hnone].
  destruct (scan_lines_first_match is_match (path_join root fname)
              (readlines text) 1 false (incr_scanned st))
    as (l & Hl & Hlen & Hin).
  exists l; rewrite Hl; repeat split; [assumption| |].
  - destruct (Hin r H) as (j & line & -> & _); reflexivity.
  - destruct (Hin r H) as (j & line & -> & _ & Hm); exists j, line; auto.
Qed.

End FirstMatch.

(** ** FolderName worker: the content filter *)

Section FolderFilter.

Variable host : host_re.
Variable fs : filesystem.
Variable cancel : nat -> bool.
Variable pause_spins : nat -> nat.
Variables include_globs exclude_globs : list str.
Variable max_mb : Q.
Variable depth_limit : option Z.
Variable skip_hidden : bool.
Variable gitignore_rules : list rule.

Lemma grows_quiet (st st' : TabState) :
  result_q st' = result_q st -> grows_with fs max_mb st st'.
Proof.
  intros H; exists []; rewrite app_nil_r; split; [exact H | constructor].
Qed.

Lemma grows_same (st st' : TabState) :
  same_output st st' -> grows_with fs max_mb st st'.
Proof. intros (H & _); apply grows_quiet, H. Qed.

Lemma grows_refl (st : TabState) : grows_with fs max_mb st st.
Proof. apply grows_same, same_output_refl. Qed.

Lemma grows_trans (a b c : TabState) :
  grows_with fs max_mb a b -> grows_with fs max_mb b c ->
  grows_with fs max_mb a c.
Proof.
  intros (l1 & H1 & F1) (l2 & H2 & F2); exists (l1 ++ l2).
  rewrite H2, H1, app_assoc; split; [reflexivity | apply Forall_app; auto].
Qed.

Lemma folder_entries_result (content_filter_on : bool) (mc : matcher)
    (folder : str) (entries : list (str * bool)) (seen : nat)
    (st : TabState) :
  let out := folder_entries fs cancel pause_spins include_globs exclude_globs
               max_mb skip_hidden gitignore_rules content_filter_on mc folder
               entries seen st in
  same_output st (fst out)
  /\ (fst (snd out) = true ->
      existsb (fun e => snd e && scannable fs max_mb (path_join folder (fst e)))
              entries = true).
Proof.
  revert seen st; induction entries as [|e rest IH]; intros seen st.
  - simpl; split; [apply same_output_refl | discriminate].
  - cbv zeta; simpl folder_entries.
    destruct (stop_event st || cancel (stop_reads st)) eqn:Hstop.
    + simpl; split; [repeat split | discriminate].
    + set (st1 := {| log_q := _ |}).
      assert (H1 : same_output st (pause_loop cancel pause_spins st1)).
      { eapply same_output_trans; [|apply pause_loop_same]. repeat split. }
      assert (Hnext : forall n st2,
                 same_output st st2 ->
                 let out := folder_entries fs cancel pause_spins include_globs
                              exclude_globs max_mb skip_hidden gitignore_rules
                              content_filter_on mc folder rest n st2 in
                 same_output st (fst out)
                 /\ (fst (snd out) = true ->
                     existsb (fun e0 => snd e0 && scannable fs max_mb
                                          (path_join folder (fst e0)))
                             (e :: rest) = true)).
      { intros n st2 H2; cbv zeta.
        destruct (IH n st2) as (Ha & Hb); split.
        - eapply same_output_trans; eassumption.
        - intros Hm; simpl; rewrite (Hb Hm); apply orb_true_r. }
      destruct (entry_considered fs include_globs exclude_globs skip_hidden
                  gitignore_rules folder e) eqn:Hc; simpl negb; cbv iota;
        [|apply Hnext; exact H1].
      destruct (getsize fs (path_join folder (fst e))) as [size|] eqn:Hsz;
        [|apply Hnext; exact H1].
      destruct (over_cap max_mb size) eqn:Hcap; [apply Hnext; exact H1|].
      destruct content_filter_on; simpl negb; cbv iota;
        [|apply Hnext; exact H1].
      destruct (is_binary_quick fs (path_join folder (fst e))) eqn:Hbin;
        [apply Hnext; exact H1|].
      destruct (read_file fs (path_join folder (fst e))) as [text|];
        [|apply Hnext; exact H1].
      pose proof (content_scan_same cancel pause_spins mc (readlines text)
                    (pause_loop cancel pause_spins st1)) as Hscan.
      destruct (content_scan cancel pause_spins mc (readlines text)
                  (pause_loop cancel pause_spins st1)) as [st3 [[|]|]];
        simpl in Hscan;
        try (apply Hnext; eapply same_output_trans; eassumption).
      simpl; split; [eapply same_output_trans; eassumption|].
      intros _.
      assert (He : snd e = true).
      { unfold entry_considered in Hc; destruct e as [n [|]];
          [reflexivity | discriminate]. }
      unfold scannable; rewrite He, Hbin, Hsz, Hcap; reflexivity.
Qed.

Lemma folder_content_matches_result (content_filter_on : bool) (mc : matcher)
    (folder : str) (st : TabState) :
  let out := folder_content_matches fs cancel pause_spins include_globs
               exclude_globs max_mb skip_hidden gitignore_rules
               content_filter_on mc folder st in
  same_output st (fst out)
  /\ (fst (snd out) = true -> has_scannable_file fs max_mb folder = true).
Proof.
  unfold folder_content_matches, has_scannable_file.
  destruct (scandir fs folder) as [entries|].
  - apply folder_entries_result.
  - simpl; split; [apply same_output_refl | discriminate].
Qed.

Lemma folder_dir_grows (mf mc : matcher) (root dname : str) (st : TabState) :
  grows_with fs max_mb st
    (fst (folder_dir fs cancel pause_spins include_globs exclude_globs
                     max_mb skip_hidden gitignore_rules true mf mc
                     root dname st)).
Proof.
  unfold folder_dir.
  destruct (mf dname) as [[|]|];
    [|apply grows_quiet; reflexivity|apply grows_quiet; reflexivity].
  pose proof (folder_content_matches_result true mc (path_join root dname)
                (incr_scanned st)) as Hfc; cbv zeta in Hfc.
  destruct (folder_content_matches fs cancel pause_spins include_globs
              exclude_globs max_mb skip_hidden gitignore_rules true mc
              (path_join root dname) (incr_scanned st))
    as [st2 [matched seen]].
  simpl in Hfc; destruct Hfc as (Hs & Hm); pose proof Hs as (Hq & _).
  destruct matched; simpl; unfold grows_with.
  - exists [FolderRecord (path_join root dname)
                         (getmtime fs (path_join root dname)) true seen].
    simpl; rewrite Hq; split; [reflexivity|].
    constructor; [apply Hm; reflexivity | constructor].
  - fold (grows_with fs max_mb st st2); apply grows_quiet, Hq.
Qed.

Lemma folder_names_grows (mf mc : matcher) (root : str) (dirs : list str)
    (st : TabState) :
  grows_with fs max_mb st
    (fst (folder_names fs cancel pause_spins include_globs exclude_globs
                       max_mb skip_hidden gitignore_rules true mf mc
                       root dirs st)).
Proof.
  revert st; induction dirs as [|d rest IH]; intros st; simpl.
  - apply grows_refl.
  - destruct (stop_event st || cancel (stop_reads st)).
    + apply grows_same; repeat split.
    + set (st1 := {| log_q := _ |}).
      pose proof (folder_dir_grows mf mc root d
                    (pause_loop cancel pause_spins st1)) as Hd.
      assert (H0 : grows_with fs max_mb st (pause_loop cancel pause_spins st1)).
      { apply grows_same. eapply same_output_trans; [|apply pause_loop_same].
        repeat split. }
      destruct (folder_dir fs cancel pause_spins include_globs exclude_globs
                  max_mb skip_hidden gitignore_rules true mf mc root d
                  (pause_loop cancel pause_spins st1)) as [st2 [|]];
        simpl in Hd |- *.
      * exact (grows_trans H0 Hd).
      * exact (grows_trans (grows_trans H0 Hd) (IH st2)).
Qed.

Lemma folder_dirs_grows (mf mc : matcher) (entries : list walk_entry)
    (st : TabState) :
  grows_with fs max_mb st
    (fst (folder_dirs fs cancel pause_spins include_globs exclude_globs
                      max_mb skip_hidden gitignore_rules true mf mc
                      entries st)).
Proof.
  revert st; induction entries as [|[[root dirs] files] rest IH]; intros st;
    simpl.
  - apply grows_refl.
  - destruct (stop_event st || cancel (stop_reads st)).
    + apply grows_same; repeat split.
    + set (st2 := log_put _ _).
      assert (H0 : grows_with fs max_mb st st2)
        by (apply grows_quiet; reflexivity).
      pose proof (folder_names_grows mf mc root
                    (exclude_dirs exclude_globs dirs) st2) as Hn.
      destruct (folder_names fs cancel pause_spins include_globs exclude_globs
                  max_mb skip_hidden gitignore_rules true mf mc root
                  (exclude_dirs exclude_globs dirs) st2) as [st3 [|]];
        simpl in Hn |- *.
      * exact (grows_trans H0 Hn).
      * exact (grows_trans (grows_trans H0 Hn) (IH st3)).
Qed.

Lemma grows_records_for (folder : str) (st st' : TabState) :
  has_scannable_file fs max_mb folder = false ->
  grows_with fs max_mb st st' ->
  records_for folder (result_q st') = records_for folder (result_q st).
Proof.
  intros Hf (l & -> & Hl); unfold records_for.
  rewrite filter_app.
  replace (filter _ l) with (@nil match_record); [apply app_nil_r|].
  symmetry; induction Hl as [|r l Hr _ IH]; simpl; [reflexivity|].
  destruct (str_eqb (record_path r) folder) eqn:He; [|exact IH].
  apply str_eqb_eq in He; congruence.
Qed.

(** C7. With the content filter on, a run of the FolderName worker adds
    no record for a folder none of whose directly contained files is
    scannable, that is, each of them is binary (a null byte in its first
    2048 bytes, or unreadable) or is kept out by the size cap (or cannot
    be sized); this holds whatever the folder-name matcher answers. *)
Theorem folder_without_scannable_file_not_emitted
    (folder_pat : str) (folder_regex folder_case folder_whole : bool)
    (content_pat : str) (content_regex content_case content_whole : bool)
    (folder : str) (st : TabState) :
  has_scannable_file fs max_mb folder = false ->
  records_for folder
    (result_q (fst (worker_folder host fs cancel pause_spins include_globs
                      exclude_globs max_mb depth_limit skip_hidden
                      gitignore_rules folder_pat folder_regex folder_case
                      folder_whole true content_pat content_regex content_case
                      content_whole st)))
  = records_for folder (result_q st).
Proof.
  intros Hf; apply grows_records_for; [exact Hf|].
  unfold worker_folder.
  destruct (compile_matcher host folder_pat folder_regex folder_case
              folder_whole)
    as [mf|e]; [|destruct e; apply grows_quiet; reflexivity].
  destruct (content_matcher host true content_pat content_regex content_case
              content_whole)
    as [mc|e]; [|destruct e; apply grows_quiet; reflexivity].
  pose proof (folder_dirs_grows mf mc
                (walk_with_depth fs depth_limit skip_hidden gitignore_rules
                                 (exclude_dirs exclude_globs)) st) as Hd.
  destruct (folder_dirs fs cancel pause_spins include_globs exclude_globs
              max_mb skip_hidden gitignore_rules true mf mc _ st)
    as [st1 [|]]; simpl in Hd |- *; [exact Hd|].
  eapply grows_trans; [exact Hd | apply grows_same; repeat split].
Qed.

End FolderFilter.

Lemma folder_without_scannable_file_not_emitted_witness :
  let max_mb := (8 # 1048576)%Q in
  has_scannable_file data_fs max_mb "/root/data" = false
  /\ records_for "/root/data"
       (result_q (fst (worker_folder no_host data_fs never_cancel
                         never_pause [] []
                         max_mb None false [] "a" false false false
                         true "hello" false false false new_run)))
     = [].
Proof.
  cbv zeta; split; [reflexivity|].
  exact (@folder_without_scannable_file_not_emitted no_host data_fs
           never_cancel
           never_pause [] [] (8 # 1048576)%Q None false []
           "a" false false false "hello" false false false
           "/root/data" new_run eq_refl).
Defined.

Example folder_run_with_content_filter :
  result_q (fst (worker_folder no_host data_fs never_cancel never_pause [] []
                   (8 # 1048576)%Q None false [] "a" false false false
                   true "hello" false false false new_run))
  = [].
Proof. vm_compute. reflexivity. Qed.

Example folder_run_with_content_filter_2 :
  result_q (fst (worker_folder no_host data_fs never_cancel never_pause [] []
                   (8 # 1048576)%Q None false [] "o" false false false
                   true "hello" false false false new_run))
  = [FolderRecord "/root/notes" (Some 0) true 1].
Proof. vm_compute. reflexivity. Qed.

Example folder_run_without_content_filter :
  result_q (fst (worker_folder no_host data_fs never_cancel never_pause [] []
                   (8 # 1048576)%Q None false [] "a" false false false
                   false "hello" false false false new_run))
  = [FolderRecord "/root/data" (Some 0) false 1].
Proof. vm_compute. reflexivity. Qed.

(** ** Invalid patterns *)

Lemma spec_failure_compile (host : host_re) (ps : pattern_spec)
    (e : failure) :
  spec_failure host ps = Some e ->
  compile_matcher host (ps_pattern ps) (ps_regex ps) (ps_case ps)
                  (ps_whole ps)
  = Err e.
Proof.
  unfold spec_failure, compile_matcher, spec_expr.
  destruct (ps_regex ps); [|discriminate].
  destruct (re_compile host _ _) as [r|e']; [discriminate|].
  intros [= ->]; reflexivity.
Qed.

Lemma spec_valid_compile (host : host_re) (ps : pattern_spec) :
  spec_failure host ps = None ->
  exists m,
    compile_matcher host (ps_pattern ps) (ps_regex ps) (ps_case ps)
                    (ps_whole ps)
    = Ok m.
Proof.
  unfold spec_failure, compile_matcher, spec_expr.
  destruct (ps_regex ps); [|intros _; eexists; reflexivity].
  destruct (re_compile host _ _) as [r|e']; [|discriminate].
  intros _; eexists; reflexivity.
Qed.

Section InvalidPattern.

Variable host : host_re.
Variable fs : filesystem.
Variable cancel : nat -> bool.
Variable pause_spins : nat -> nat.
Variable rg_path : option str.
Variable popen : list str -> option (list rg_event * str).
Variable fmt_g : Q -> str.

(** The run when the set-up fails: the worker returns from the set-up,
    having logged and set the stop flag on an [re.error], and lets any
    other exception escape with nothing logged and the flag as it was. *)
Lemma failed_setup_run (rq : SearchRequest) (is_content : bool)
    (e : failure) (st : TabState) :
  uses_external rg_path rq = false ->
  first_failure host rq = Some (is_content, e) ->
  spawn_worker host fs cancel pause_spins rg_path popen fmt_g rq st
  = match e with
    | ReError e' =>
        (stop_set
           (log_put ((if is_content then s_ "Invalid content regex: "
                      else invalid_label (rq_mode rq))
                     ++ error_text e' ++ [c_nl])
              (fold_left (fun s l => log_put l s) (fallback_lines rq) st)),
         false)
    | _ => (fold_left (fun s l => log_put l s) (fallback_lines rq) st, true)
    end.
Proof.
  unfold uses_external, first_failure, spawn_worker, fallback_lines.
  intros Hext Hfirst.
  destruct (spec_failure host (rq_primary rq)) as [e1|] eqn:Hp.
  - injection Hfirst as <- <-.
    apply spec_failure_compile in Hp.
    destruct (rq_mode rq).
    + unfold worker_text.
      replace (if rq_use_ripgrep rq then rg_path else None)
        with (@None str)
        by (destruct (rq_use_ripgrep rq), rg_path; congruence).
      rewrite Hp; destruct (rq_use_ripgrep rq), e1; reflexivity.
    + unfold worker_file; rewrite Hp; destruct e1; reflexivity.
    + unfold worker_folder; rewrite Hp; destruct e1; reflexivity.
  - apply spec_valid_compile in Hp as (m & Hp).
    destruct (rq_mode rq); [discriminate| |];
      destruct (rq_content_filter_on rq) eqn:Hon; try discriminate;
      destruct (spec_failure host (rq_content rq)) as [e1|] eqn:Hc;
      try discriminate;
      injection Hfirst as <- <-; apply spec_failure_compile in Hc.
    + unfold worker_file, content_matcher; rewrite Hp, Hc.
      destruct e1; reflexivity.
    + unfold worker_folder, content_matcher; rewrite Hp, Hc.
      destruct e1; reflexivity.
Qed.

(** C8. When the line search does not go to the external tool and
    [re.compile] raises [re.error] on a regex-mode spec the worker
    compiles (the primary spec, or the content spec when the content
    filter is on and the primary spec compiled), the worker logs the
    error, sets the stop flag and returns: no exception escapes, the
    result queue and the counters are as before, and the stop flag was
    not read once, so that no directory or file was visited. *)
Theorem invalid_pattern_stops_run (rq : SearchRequest) (msg : str)
    (st : TabState) :
  uses_external rg_path rq = false ->
  invalid_pattern_line host rq = Some msg ->
  let out :=
    spawn_worker host fs cancel pause_spins rg_path popen fmt_g rq st in
  snd out = false
  /\ stop_event (fst out) = true
  /\ log_q (fst out) = log_q st ++ fallback_lines rq ++ [msg]
  /\ result_q (fst out) = result_q st
  /\ files_scanned (fst out) = files_scanned st
  /\ matches_found (fst out) = matches_found st
  /\ stop_reads (fst out) = stop_reads st.
Proof.
  unfold invalid_pattern_line; intros Hext Hline; cbv zeta.
  destruct (first_failure host rq) as [[is_content [e| | |]]|] eqn:Hfirst;
    try discriminate.
  injection Hline as <-.
  rewrite (failed_setup_run rq st Hext Hfirst).
  unfold fallback_lines.
  destruct (rq_mode rq); [destruct (rq_use_ripgrep rq)| |]; simpl;
    rewrite <- ?app_assoc, ?app_nil_r; repeat split.
Qed.

(** An exception of the set-up other than [re.error] escapes the worker:
    the stop flag, the result queue and the counters are as before, and
    nothing is logged about the pattern. *)
Lemma setup_exception_escapes (rq : SearchRequest) (st : TabState) :
  uses_external rg_path rq = false ->
  setup_escapes host rq = true ->
  let out :=
    spawn_worker host fs cancel pause_spins rg_path popen fmt_g rq st in
  snd out = true
  /\ stop_event (fst out) = stop_event st
  /\ log_q (fst out) = log_q st ++ fallback_lines rq
  /\ result_q (fst out) = result_q st
  /\ files_scanned (fst out) = files_scanned st
  /\ matches_found (fst out) = matches_found st
  /\ stop_reads (fst out) = stop_reads st.
Proof.
  unfold setup_escapes; intros Hext Hesc; cbv zeta.
  destruct (first_failure host rq) as [[is_content e]|] eqn:Hfirst;
    [|discriminate].
  rewrite (failed_setup_run rq st Hext Hfirst).
  unfold fallback_lines.
  destruct e; try discriminate;
    (destruct (rq_mode rq); [destruct (rq_use_ripgrep rq)| |]; simpl;
     rewrite ?app_nil_r; repeat split).
Qed.

End InvalidPattern.

Lemma invalid_pattern_stops_run_witness :
  let out := spawn_worker no_host demo_fs never_cancel never_pause None
                          no_process fmt_zero bad_regex_request new_run in
  snd out = false
  /\ stop_event (fst out) = true
  /\ log_q (fst out)
     = [s_ "Invalid regex: missing ), unterminated subpattern" ++ [c_nl]]
  /\ result_q (fst out) = []
  /\ files_scanned (fst out) = 0
  /\ matches_found (fst out) = 0
  /\ stop_reads (fst out) = 0.
Proof.
  exact (@invalid_pattern_stops_run no_host demo_fs never_cancel never_pause
           None no_process fmt_zero bad_regex_request _ new_run eq_refl
           eq_refl).
Defined.

(** C8 does not extend to every spec of a request, whatever the host:
    with a regex that does not compile in a spec that is not consulted
    the run goes to completion and emits records. *)
Lemma unparsable_spec_not_consulted :
  ~ (exists host : host_re,
       forall rq : SearchRequest,
         request_has_unparsable host rq = true ->
         result_q (fst (spawn_worker host demo_fs never_cancel never_pause
                                     None no_process fmt_zero rq new_run))
         = []).
Proof.
  intros [host H]; specialize (H unused_content_request eq_refl).
  vm_compute in H; discriminate.
Qed.

Example unused_content_request_run (host : host_re) :
  spawn_worker host demo_fs never_cancel never_pause None no_process fmt_zero
               unused_content_request new_run
  = ({| log_q := [s_ "Scanning: /root" ++ [c_nl];
                  s_ "Scanning: /root/sub" ++ [c_nl]];
        result_q := [FileRecord "/root/a.txt" 12 (Some 0) false];
        stop_event := true; files_scanned := 3; matches_found := 1;
        stop_reads := 5; pause_waits := 3 |}, false).
Proof. vm_compute. reflexivity. Qed.

(** Nor to a regex on which [re.compile] raises something other than
    [re.error]: with a repeat count of [MAXREPEAT] the exception escapes
    the worker, nothing is logged and the stop flag is never set. *)
Example overflow_request_run (host : host_re) :
  spawn_worker host demo_fs never_cancel never_pause None no_process fmt_zero
               overflow_request new_run
  = (new_run, true)
  /\ stop_event new_run = false
  /\ request_has_unparsable host overflow_request = true.
Proof. repeat split; vm_compute; reflexivity. Qed.

(** ** Literal patterns: parsing the escaped needle *)

Ltac each_char c :=
  destruct c as [[|] [|] [|] [|] [|] [|] [|] [|]].

Lemma not_special_not_backslash (c : ascii) :
  is_special c = false -> (c =? c_bslash)%char = false.
Proof. each_char c; intros H; solve [reflexivity | discriminate H]. Qed.

Lemma lit_token_not_end (c : ascii) : ends_sequence (lit_token c) = false.
Proof. each_char c; reflexivity. Qed.

Lemma lit_token_no_repeat (c : ascii) (rest : list token) :
  repeat_spec (lit_token c :: rest) = None.
Proof. each_char c; reflexivity. Qed.

Lemma lit_token_atom (sub : parser) (c : ascii) (rest : list token) :
  parse_atom sub (lit_token c) rest = Ok (RLit c, rest).
Proof. each_char c; reflexivity. Qed.

Lemma lit_token_not_open (c : ascii) : is_tchar "(" (lit_token c) = false.
Proof. each_char c; reflexivity. Qed.

Lemma open_groups_literals (needle : str) (tail : list token) :
  open_groups (map lit_token needle ++ tail) = open_groups tail.
Proof.
  unfold open_groups; induction needle as [|c needle IH]; simpl;
    [reflexivity|].
  rewrite lit_token_not_open; exact IH.
Qed.

Lemma tokenize_escape (needle tail : str) :
  tokenize (re_escape needle ++ tail)
  = do ts <- tokenize tail; Ok (map lit_token needle ++ ts).
Proof.
  induction needle as [|c needle IH]; simpl.
  - destruct (tokenize tail); reflexivity.
  - unfold lit_token; destruct (is_special c) eqn:Hs; simpl.
    + rewrite IH; destruct (tokenize tail); reflexivity.
    + rewrite (not_special_not_backslash c Hs), IH.
      destruct (tokenize tail); reflexivity.
Qed.

Lemma tokenize_word_wrapped (needle : str) :
  tokenize (word_wrapped (re_escape needle))
  = Ok (TEsc "b" :: map lit_token needle ++ [TEsc "b"]).
Proof.
  unfold word_wrapped; simpl.
  rewrite tokenize_escape; reflexivity.
Qed.

Lemma literals_no_repeat (needle : str) (tail : list token) :
  repeat_spec tail = None ->
  repeat_spec (map lit_token needle ++ tail) = None.
Proof.
  intros H; destruct needle as [|c needle]; simpl;
    [exact H | apply lit_token_no_repeat].
Qed.

Lemma parse_seq_literals (needle : str) (n : nat) (tail : list token)
    (r : regex) (rest : list token) :
  repeat_spec tail = None ->
  parse_seq n tail = Ok (r, rest) ->
  parse_seq (length needle + n) (map lit_token needle ++ tail)
  = Ok (lit_seq needle r, rest).
Proof.
  intros Htail Hparse; induction needle as [|c needle IH]; simpl;
    [exact Hparse|].
  rewrite lit_token_not_end, lit_token_atom; simpl.
  unfold apply_repeat; rewrite (literals_no_repeat needle tail Htail); simpl.
  rewrite IH; reflexivity.
Qed.

Lemma re_parse_word_wrapped (needle : str) :
  re_parse (word_wrapped (re_escape needle)) = Ok (whole_word_regex needle).
Proof.
  assert (Hfuel :
            2 * length (TEsc "b" :: map lit_token needle ++ [TEsc "b"]) + 2
            = S (S (length needle + S (S (length needle + 2))))).
  { simpl; rewrite length_app, length_map; simpl; lia. }
  assert (Hgroups :
            (max_groups
             <? open_groups (TEsc "b" :: map lit_token needle
                             ++ [TEsc "b"]))
            = false).
  { change (open_groups (TEsc "b" :: ?l)) with (open_groups l).
    rewrite open_groups_literals; reflexivity. }
  unfold re_parse; rewrite tokenize_word_wrapped.
  unfold parse_tokens; rewrite Hgroups, Hfuel.
  assert (Hseq :
            parse_seq (S (length needle + S (S (length needle + 2))))
                      (TEsc "b" :: map lit_token needle ++ [TEsc "b"])
            = Ok (whole_word_regex needle, [])).
  { cbn [parse_seq ends_sequence is_tchar orb parse_atom escape_code rbind].
    change (escape_code "b") with (Ok (RAt AtBoundary)).
    cbn [rbind].
    unfold apply_repeat.
    rewrite (literals_no_repeat needle [TEsc "b"] eq_refl).
    cbn [rbind].
    rewrite (@parse_seq_literals needle (S (S (length needle + 2)))
               [TEsc "b"] (RCat (RAt AtBoundary) REmpty) [] eq_refl eq_refl).
    reflexivity. }
  cbn [parse_sub]; rewrite Hseq; reflexivity.
Qed.

(** ** Literal patterns: what the parsed expression matches *)

Lemma last_of_app (prev : option ascii) (a b : str) :
  last_of prev (a ++ b) = last_of (last_of prev a) b.
Proof. apply fold_left_app. Qed.

Lemma rmatch_lit_seq (needle : str) (r : regex) (prev : option ascii)
    (s : str) (k : cont) :
  rmatch false (lit_seq needle r) prev s k = true
  <-> exists s', s = needle ++ s'
                 /\ rmatch false r (last_of prev needle) s' k = true.
Proof.
  revert prev s; induction needle as [|c needle IH]; intros prev s; simpl.
  - split; [intros H; exists s; auto | intros (s' & -> & H); exact H].
  - destruct s as [|d s]; [split; [discriminate | intros (? & [=] & _)]|].
    unfold lit_eq; rewrite andb_true_iff, Ascii.eqb_eq, IH.
    split.
    + intros (-> & s' & -> & H); exists s'; auto.
    + intros (s' & [= <- ->] & H); split; [reflexivity | exists s'; auto].
Qed.

Lemma match_here_whole_word (needle : str) (prev : option ascii) (s : str) :
  match_here false (whole_word_regex needle) prev s = true
  <-> exists post, s = needle ++ post
                   /\ at_boundary prev s = true
                   /\ at_boundary (last_of prev needle) post = true.
Proof.
  unfold match_here, whole_word_regex; simpl.
  rewrite andb_true_iff, rmatch_lit_seq; simpl.
  split.
  - intros (Hb & post & -> & H).
    rewrite !andb_true_r in H; exists post; auto.
  - intros (post & -> & Hb & He); split; [exact Hb|].
    exists post; rewrite He; auto.
Qed.

Lemma search_whole_word (needle : str) (prev : option ascii) (hay : str) :
  search_from false (whole_word_regex needle) prev hay = true
  <-> exists pre post,
        hay = pre ++ needle ++ post
        /\ at_boundary (last_of prev pre) (needle ++ post) = true
        /\ at_boundary (last_of prev (pre ++ needle)) post = true.
Proof.
  revert prev; induction hay as [|c hay IH]; intros prev.
  - simpl search_from; rewrite orb_false_r, match_here_whole_word.
    split.
    + intros (post & E & H1 & H2); exists [], post; simpl.
      rewrite <- E; auto.
    + intros (pre & post & E & H1 & H2).
      destruct pre; [|discriminate]; simpl in *.
      exists post; rewrite E; auto.
  - simpl search_from; rewrite orb_true_iff, match_here_whole_word, IH.
    split.
    + intros [(post & E & H1 & H2) | (pre & post & E & H1 & H2)].
      * exists [], post; simpl; rewrite <- E; auto.
      * exists (c :: pre), post; simpl; rewrite E; auto.
    + intros (pre & post & E & H1 & H2); destruct pre as [|d pre];
        simpl in *.
      * left; exists post; rewrite E; auto.
      * injection E as -> ->; right; exists pre, post; auto.
Qed.

Lemma re_search_word_wrapped (host : host_re) (needle hay : str) :
  re_search host (word_wrapped (re_escape needle)) hay
  = Some (search_from false (whole_word_regex needle) None hay).
Proof.
  unfold re_search, re_compile; rewrite re_parse_word_wrapped; reflexivity.
Qed.

Lemma startswith_iff (p s : str) :
  startswith p s = true <-> exists post, s = p ++ post.
Proof.
  revert s; induction p as [|x p IH]; intros s; simpl.
  - split; [intros _; exists s; reflexivity | reflexivity].
  - destruct s as [|y s]; [split; [discriminate | intros (? & [=])]|].
    rewrite andb_true_iff, Ascii.eqb_eq, IH; split.
    + intros (-> & post & ->); exists post; reflexivity.
    + intros (post & [= -> ->]); split; [reflexivity | exists post; auto].
Qed.

Lemma contains_iff (needle hay : str) :
  contains needle hay = true <-> occurs needle hay.
Proof.
  unfold occurs; induction hay as [|c hay IH]; simpl.
  - rewrite orb_false_r, startswith_iff; split.
    + intros (post & E); exists [], post; exact E.
    + intros (pre & post & E); destruct pre; [|discriminate].
      exists post; exact E.
  - rewrite orb_true_iff, startswith_iff, IH; split.
    + intros [(post & E) | (pre & post & E)].
      * exists [], post; exact E.
      * exists (c :: pre), post; simpl; rewrite E; reflexivity.
    + intros (pre & post & E); destruct pre as [|d pre]; simpl in E.
      * left; exists post; exact E.
      * injection E as -> ->; right; exists pre, post; reflexivity.
Qed.

(** ** Literal patterns: the matcher *)

(** The closure [compile_matcher] builds in literal mode. *)
Lemma compile_matcher_literal (host : host_re) (pattern : str)
    (case whole : bool) :
  exists m : matcher,
    compile_matcher host pattern false case whole = Ok m
    /\ forall line,
         m line
         = Some (let needle := if case then pattern else lower pattern in
                 let hay := if case then line else lower line in
                 if whole
                 then search_from false (whole_word_regex needle) None hay
                 else contains needle hay).
Proof.
  unfold compile_matcher; eexists; split; [reflexivity|].
  intros line; cbv zeta; destruct whole; [|reflexivity].
  apply re_search_word_wrapped.
Qed.

(** C1. In literal mode the matcher answers true exactly when the needle
    occurs in the line, both case-folded unless the search is case
    sensitive; with whole-word on it answers true exactly when the needle
    occurs with a word boundary on each side.  With the pattern [cat] and
    whole-word on it rejects [concatenate] and accepts [the cat sat]. *)
Theorem literal_matcher_semantics (host : host_re) :
  (forall (pattern : str) (case whole : bool),
     exists m : matcher,
       compile_matcher host pattern false case whole = Ok m
       /\ forall line : str,
            let needle := if case then pattern else lower pattern in
            let hay := if case then line else lower line in
            exists b : bool,
              m line = Some b
              /\ (b = true <->
                  if whole then occurs_as_word needle hay
                  else occurs needle hay))
  /\ (forall case : bool,
        exists m : matcher,
          compile_matcher host "cat" false case true = Ok m
          /\ m "concatenate" = Some false
          /\ m "the cat sat" = Some true).
Proof.
  split.
  - intros pattern case whole.
    destruct (compile_matcher_literal host pattern case whole)
    as (m & Hm & Hline).
    exists m; split; [exact Hm|].
    intros line needle hay; eexists; split; [apply Hline|].
    fold needle hay; destruct whole.
    + apply search_whole_word.
    + apply contains_iff.
  - intros case.
    destruct (compile_matcher_literal host "cat" case true) as (m & Hm & Hline).
    exists m; split; [exact Hm|].
    rewrite !Hline; destruct case; vm_compute; split; reflexivity.
Qed.

(** ** Literal patterns: wrapping as one unit changes nothing *)

Lemma parse_seq_step (n : nat) (t : token) (rest : list token) :
  ends_sequence t = false ->
  parse_seq (S n) (t :: rest)
  = do (a, rest1) <- parse_atom (parse_sub n) t rest;
    do (a', rest2) <- apply_repeat a rest1;
    do (r, rest3) <- parse_seq n rest2;
    Ok (RCat a' r, rest3).
Proof. intros H; simpl; rewrite H; reflexivity. Qed.

Lemma parse_seq_boundary_end (m : nat) :
  2 <= m -> parse_seq m [TEsc "b"] = Ok (RCat (RAt AtBoundary) REmpty, []).
Proof. destruct m as [|[|m]]; try lia; reflexivity. Qed.

Lemma parse_atom_group (sub : parser) (inner : list token) (r : regex)
    (rest : list token) :
  sub inner = Ok (r, TChar ")" :: rest) ->
  parse_atom sub (TChar "(") (TChar "?" :: TChar ":" :: inner)
  = Ok (RGroup r, rest).
Proof. intros H; unfold parse_atom; simpl; rewrite H; reflexivity. Qed.

(** What [\b(?:] + escaped needle + [)\b] parses to. *)
Lemma re_parse_word_wrapped_group (needle : str) :
  re_parse (word_wrapped_group (re_escape needle))
  = Ok (whole_word_group_regex needle).
Proof.
  assert (Htok : tokenize (word_wrapped_group (re_escape needle))
                 = Ok (TEsc "b" :: TChar "(" :: TChar "?" :: TChar ":"
                       :: map lit_token needle ++ [TChar ")"; TEsc "b"])).
  { unfold word_wrapped_group; simpl.
    rewrite tokenize_escape; reflexivity. }
  set (n := S (S (length needle + 8))).
  assert (Hfuel :
            2 * length (TEsc "b" :: TChar "(" :: TChar "?" :: TChar ":"
                        :: map lit_token needle ++ [TChar ")"; TEsc "b"]) + 2
            = S (S (S (S (length needle + n))))).
  { unfold n; simpl; rewrite length_app, length_map; simpl; lia. }
  assert (Hgroups :
            (max_groups
             <? open_groups (TEsc "b" :: TChar "(" :: TChar "?" :: TChar ":"
                             :: map lit_token needle
                             ++ [TChar ")"; TEsc "b"]))
            = false).
  { change (open_groups (TEsc "b" :: TChar "(" :: TChar "?" :: TChar ":"
                         :: ?l))
      with (S (open_groups l)).
    rewrite open_groups_literals; reflexivity. }
  unfold re_parse; rewrite Htok.
  unfold parse_tokens; rewrite Hgroups, Hfuel.
  assert (Hinner :
            parse_sub (S (length needle + n))
                      (map lit_token needle ++ [TChar ")"; TEsc "b"])
            = Ok (lit_seq needle REmpty, [TChar ")"; TEsc "b"])).
  { cbn [parse_sub].
    rewrite (@parse_seq_literals needle n [TChar ")"; TEsc "b"] REmpty
               [TChar ")"; TEsc "b"] eq_refl eq_refl).
    reflexivity. }
  assert (Hseq :
            parse_seq (S (S (S (length needle + n))))
                      (TEsc "b" :: TChar "(" :: TChar "?" :: TChar ":"
                       :: map lit_token needle ++ [TChar ")"; TEsc "b"])
            = Ok (whole_word_group_regex needle, [])).
  { rewrite parse_seq_step by reflexivity.
    change (parse_atom ?sub (TEsc "b") ?rest)
      with (Ok (RAt AtBoundary, rest)).
    cbn [rbind].
    change (apply_repeat (RAt AtBoundary) (TChar "(" :: ?rest))
      with (Ok (RAt AtBoundary, TChar "(" :: rest)).
    cbn [rbind].
    rewrite parse_seq_step by reflexivity.
    rewrite (parse_atom_group _ _ Hinner).
    cbn [rbind].
    change (apply_repeat ?a [TEsc "b"]) with (Ok (a, [TEsc "b"])).
    cbn [rbind].
    rewrite parse_seq_boundary_end by (unfold n; lia).
    reflexivity. }
  cbn [parse_sub]; rewrite Hseq; reflexivity.
Qed.

Lemma match_here_whole_word_group (needle : str) (prev : option ascii)
    (s : str) :
  match_here false (whole_word_group_regex needle) prev s
  = match_here false (whole_word_regex needle) prev s.
Proof.
  apply eq_true_iff_eq.
  rewrite match_here_whole_word.
  unfold match_here, whole_word_group_regex; simpl.
  rewrite andb_true_iff, rmatch_lit_seq; simpl.
  split.
  - intros (Hb & post & -> & H).
    rewrite !andb_true_r in H; exists post; auto.
  - intros (post & -> & Hb & He); split; [exact Hb|].
    exists post; rewrite He; auto.
Qed.

Lemma search_whole_word_group (needle : str) (prev : option ascii)
    (hay : str) :
  search_from false (whole_word_group_regex needle) prev hay
  = search_from false (whole_word_regex needle) prev hay.
Proof.
  revert prev; induction hay as [|c hay IH]; intros prev; simpl;
    rewrite match_here_whole_word_group; [reflexivity|].
  rewrite IH; reflexivity.
Qed.

(** In literal mode the expression the workers compile and the
    expression wrapped as one unit accept the same lines. *)
Lemma literal_whole_word_as_unit (host : host_re) (needle hay : str) :
  re_search host (word_wrapped (re_escape needle)) hay
  = re_search host (word_wrapped_group (re_escape needle)) hay.
Proof.
  rewrite re_search_word_wrapped.
  unfold re_search, re_compile; rewrite re_parse_word_wrapped_group; simpl.
  unfold pattern_search; simpl.
  rewrite search_whole_word_group; reflexivity.
Qed.

(** ** Whole-word wrapping of a regex *)

(** C2. For the regex [cat|dog] with whole-word on, the workers compile
    [\bcat|dog\b]: the matcher accepts [cats] and [hotdog].  The
    expression wrapped as one unit, [\b(?:cat|dog)\b], which the preview
    highlighter compiles, rejects both. *)
Lemma cat_or_dog_runs (host : host_re) :
  match compile_matcher host "cat|dog" true true true,
        build_highlight_regex host "cat|dog" true true true with
  | Ok m, Some p =>
      (m "cats" = Some true /\ pattern_search p "cats" = false)
      /\ (m "hotdog" = Some true /\ pattern_search p "hotdog" = false)
      /\ (m "cat or dog" = Some true /\ pattern_search p "cat or dog" = true)
  | _, _ => False
  end.
Proof. vm_compute. repeat split. Qed.

Theorem whole_word_regex_not_grouped (host : host_re) :
  exists (m : matcher) (p : re_pattern),
    compile_matcher host "cat|dog" true true true = Ok m
    /\ build_highlight_regex host "cat|dog" true true true = Some p
    /\ (m "cats" = Some true /\ pattern_search p "cats" = false)
    /\ (m "hotdog" = Some true /\ pattern_search p "hotdog" = false)
    /\ (m "cat or dog" = Some true /\ pattern_search p "cat or dog" = true).
Proof.
  pose proof (cat_or_dog_runs host) as H.
  destruct (compile_matcher host "cat|dog" true true true) as [m|e];
    [|contradiction].
  destruct (build_highlight_regex host "cat|dog" true true true) as [p|];
    [|contradiction].
  exists m, p; auto.
Qed.

(** The same wrapping lets a pattern that does not parse on its own go
    through: a lone backslash becomes [\b\\b]. *)
Example whole_word_wraps_trailing_backslash (host : host_re) :
  re_parse "\" = Err BadEscape
  /\ build_highlight_regex host "\" true true true = None
  /\ match compile_matcher host "\" true true true with
     | Ok m => m "a\b" = Some true
     | Err _ => False
     end.
Proof. vm_compute. repeat split. Qed.

(** ** Literal patterns never fail *)

Lemma compile_matcher_literal_total (host : host_re) (pattern : str)
    (case whole : bool) :
  exists m : matcher,
    compile_matcher host pattern false case whole = Ok m /\ total m.
Proof.
  destruct (compile_matcher_literal host pattern case whole)
    as (m & Hm & Hline).
  exists m; split; [exact Hm|].
  intros line; rewrite Hline; discriminate.
Qed.

Section NoEscape.

Variable host : host_re.
Variable fs : filesystem.
Variable cancel : nat -> bool.
Variable pause_spins : nat -> nat.
Variables include_globs exclude_globs : list str.
Variable max_mb : Q.
Variable skip_hidden : bool.
Variable gitignore_rules : list rule.
Variable content_filter_on : bool.

Lemma file_file_no_escape (mn mc : matcher) (root fname : str)
    (st : TabState) :
  total mn ->
  snd (file_file fs cancel pause_spins include_globs exclude_globs max_mb
                 content_filter_on mn mc root fname st) = false.
Proof.
  intros Hn; unfold file_file.
  destruct (glob_rejected _ _ _); [reflexivity|].
  destruct (getsize _ _); [|reflexivity].
  destruct (over_cap _ _); [reflexivity|].
  destruct (mn fname) as [[|]|] eqn:Hm; [|reflexivity|elim (Hn fname Hm)].
  destruct content_filter_on; [|reflexivity].
  destruct (is_binary_quick _ _); [reflexivity|].
  destruct (read_file _ _); [|reflexivity].
  destruct (content_scan _ _ _ _ _) as [st2 [[|]|]]; reflexivity.
Qed.

Lemma file_files_no_escape (mn mc : matcher) (root : str) (files : list str)
    (st : TabState) :
  total mn ->
  snd (file_files fs cancel pause_spins include_globs exclude_globs max_mb
                  content_filter_on mn mc root files st) = false.
Proof.
  intros Hn; revert st; induction files as [|f rest IH]; intros st; simpl;
    [reflexivity|].
  destruct (stop_event st || cancel (stop_reads st)); [reflexivity|].
  match goal with
  | |- context [file_file ?a ?b ?c ?d ?e ?f ?g ?h ?i ?j ?k ?l] =>
      pose proof (@file_file_no_escape h i j k l Hn) as Hf;
      destruct (file_file a b c d e f g h i j k l) as [st2 [|]]
  end; simpl in Hf; [discriminate | apply IH].
Qed.

Lemma file_dirs_no_escape (mn mc : matcher) (entries : list walk_entry)
    (st : TabState) :
  total mn ->
  snd (file_dirs fs cancel pause_spins include_globs exclude_globs max_mb
                 content_filter_on mn mc entries st) = false.
Proof.
  intros Hn; revert st;
    induction entries as [|[[root dirs] files] rest IH]; intros st; simpl;
    [reflexivity|].
  destruct (stop_event st || cancel (stop_reads st)); [reflexivity|].
  match goal with
  | |- context [file_files ?a ?b ?c ?d ?e ?f ?g ?h ?i ?j ?k ?l] =>
      pose proof (@file_files_no_escape h i j k l Hn) as Hf;
      destruct (file_files a b c d e f g h i j k l) as [st2 [|]]
  end; simpl in Hf; [discriminate | apply IH].
Qed.

Lemma folder_dir_no_escape (mf mc : matcher) (root dname : str)
    (st : TabState) :
  total mf ->
  snd (folder_dir fs cancel pause_spins include_globs exclude_globs max_mb
                  skip_hidden gitignore_rules content_filter_on mf mc
                  root dname st) = false.
Proof.
  intros Hf; unfold folder_dir.
  destruct (mf dname) as [[|]|] eqn:Hm; [|reflexivity|elim (Hf dname Hm)].
  destruct (folder_content_matches _ _ _ _ _ _ _ _ _ _ _ _)
    as [st2 [matched seen]].
  destruct (content_filter_on && negb matched); reflexivity.
Qed.

Lemma folder_names_no_escape (mf mc : matcher) (root : str)
    (dirs : list str) (st : TabState) :
  total mf ->
  snd (folder_names fs cancel pause_spins include_globs exclude_globs max_mb
                    skip_hidden gitignore_rules content_filter_on mf mc
                    root dirs st) = false.
Proof.
  intros Hf; revert st; induction dirs as [|d rest IH]; intros st; simpl;
    [reflexivity|].
  destruct (stop_event st || cancel (stop_reads st)); [reflexivity|].
  match goal with
  | |- context [folder_dir ?a ?b ?c ?d ?e ?f ?g ?h ?i ?j ?k ?l ?m ?n] =>
      pose proof (@folder_dir_no_escape j k l m n Hf) as Hd;
      destruct (folder_dir a b c d e f g h i j k l m n) as [st2 [|]]
  end; simpl in Hd; [discriminate | apply IH].
Qed.

Lemma folder_dirs_no_escape (mf mc : matcher) (entries : list walk_entry)
    (st : TabState) :
  total mf ->
  snd (folder_dirs fs cancel pause_spins include_globs exclude_globs max_mb
                   skip_hidden gitignore_rules content_filter_on mf mc
                   entries st) = false.
Proof.
  intros Hf; revert st;
    induction entries as [|[[root dirs] files] rest IH]; intros st; simpl;
    [reflexivity|].
  destruct (stop_event st || cancel (stop_reads st)); [reflexivity|].
  match goal with
  | |- context [folder_names ?a ?b ?c ?d ?e ?f ?g ?h ?i ?j ?k ?l ?m ?n] =>
      pose proof (@folder_names_no_escape j k l m n Hf) as Hd;
      destruct (folder_names a b c d e f g h i j k l m n) as [st2 [|]]
  end; simpl in Hd; [discriminate | apply IH].
Qed.

End NoEscape.

Lemma content_matcher_literal (host : host_re) (content_filter_on : bool)
    (content_pat : str) (content_case content_whole : bool) :
  exists mc : matcher,
    content_matcher host content_filter_on content_pat false content_case
                    content_whole = Ok mc.
Proof.
  unfold content_matcher; destruct content_filter_on.
  - destruct (compile_matcher_literal_total host content_pat content_case
                content_whole) as (m & Hm & _); exists m; exact Hm.
  - eexists; reflexivity.
Qed.

(** C10. In literal mode matcher construction succeeds for every pattern
    text and the matcher answers on every line without raising.  The
    native Content worker therefore goes on to the traversal instead of
    the invalid-pattern exit, and so do the FileName and FolderName
    workers when their specs are literal, with no exception escaping. *)
Theorem literal_mode_never_invalid (host : host_re) :
  (forall (pattern : str) (case whole : bool),
     exists m : matcher,
       compile_matcher host pattern false case whole = Ok m /\ total m)
  /\ (forall fs cancel pause_spins popen fmt_g include_globs exclude_globs
             max_mb depth_limit skip_hidden respect_gitignore gitignore_rules
             use_ripgrep first_match_per_file pattern case whole filetype st,
        exists m : matcher,
          total m
          /\ worker_text host fs cancel pause_spins None popen fmt_g
                         include_globs exclude_globs max_mb depth_limit
                         skip_hidden respect_gitignore gitignore_rules
                         use_ripgrep first_match_per_file pattern false case
                         whole filetype st
             = (stop_set
                  (text_dirs fs cancel pause_spins include_globs
                     exclude_globs max_mb first_match_per_file filetype m
                     (walk_with_depth fs depth_limit skip_hidden
                        gitignore_rules (exclude_dirs exclude_globs))
                     (if use_ripgrep then log_put rg_missing_line st
                      else st)), false))
  /\ (forall fs cancel pause_spins include_globs exclude_globs max_mb
             depth_limit skip_hidden gitignore_rules fname_pat fname_case
             fname_whole content_filter_on content_pat content_case
             content_whole st,
        exists mn mc : matcher,
          worker_file host fs cancel pause_spins include_globs exclude_globs
                      max_mb depth_limit skip_hidden gitignore_rules
                      fname_pat false fname_case fname_whole
                      content_filter_on content_pat false content_case
                      content_whole st
          = (stop_set
               (fst (file_dirs fs cancel pause_spins include_globs
                       exclude_globs max_mb content_filter_on mn mc
                       (walk_with_depth fs depth_limit skip_hidden
                          gitignore_rules (exclude_dirs exclude_globs))
                       st)), false))
  /\ (forall fs cancel pause_spins include_globs exclude_globs max_mb
             depth_limit skip_hidden gitignore_rules folder_pat folder_case
             folder_whole content_filter_on content_pat content_case
             content_whole st,
        exists mf mc : matcher,
          worker_folder host fs cancel pause_spins include_globs exclude_globs
                        max_mb depth_limit skip_hidden gitignore_rules
                        folder_pat false folder_case folder_whole
                        content_filter_on content_pat false content_case
                        content_whole st
          = (stop_set
               (fst (folder_dirs fs cancel pause_spins include_globs
                       exclude_globs max_mb skip_hidden gitignore_rules
                       content_filter_on mf mc
                       (walk_with_depth fs depth_limit skip_hidden
                          gitignore_rules (exclude_dirs exclude_globs))
                       st)), false)).
Proof.
  split; [exact (compile_matcher_literal_total host)|].
  split; [|split].
  - intros.
    destruct (compile_matcher_literal_total host pattern case whole)
      as (m & Hm & Ht).
    exists m; split; [exact Ht|].
    unfold worker_text.
    replace (if use_ripgrep then @None str else None) with (@None str)
      by (destruct use_ripgrep; reflexivity).
    rewrite Hm; reflexivity.
  - intros.
    destruct (compile_matcher_literal_total host fname_pat fname_case
                fname_whole) as (mn & Hn & Ht).
    destruct (content_matcher_literal host content_filter_on content_pat
                content_case content_whole) as (mc & Hc).
    exists mn, mc; unfold worker_file; rewrite Hn, Hc.
    pose proof (@file_dirs_no_escape fs cancel pause_spins include_globs
                  exclude_globs max_mb content_filter_on mn mc
                  (walk_with_depth fs depth_limit skip_hidden gitignore_rules
                     (exclude_dirs exclude_globs)) st Ht) as He.
    destruct (file_dirs _ _ _ _ _ _ _ _ _ _ _) as [st1 [|]]; simpl in He;
      [discriminate | reflexivity].
  - intros.
    destruct (compile_matcher_literal_total host folder_pat folder_case
                folder_whole) as (mf & Hf & Ht).
    destruct (content_matcher_literal host content_filter_on content_pat
                content_case content_whole) as (mc & Hc).
    exists mf, mc; unfold worker_folder; rewrite Hf, Hc.
    pose proof (@folder_dirs_no_escape fs cancel pause_spins include_globs
                  exclude_globs max_mb skip_hidden gitignore_rules
                  content_filter_on mf mc
                  (walk_with_depth fs depth_limit skip_hidden gitignore_rules
                     (exclude_dirs exclude_globs)) st Ht) as He.
    destruct (folder_dirs _ _ _ _ _ _ _ _ _ _ _ _ _) as [st1 [|]];
      simpl in He; [discriminate | reflexivity].
Qed.

(** ** The Content worker on the small tree *)

Example content_run_hello (host : host_re) :
  worker_text host demo_fs never_cancel never_pause None no_process fmt_zero
              [] [] 0%Q None false false [] false false
              "hello" false false false "All" new_run
  = ({| log_q := [s_ "Scanning: /root" ++ [c_nl];
                  s_ "Scanning: /root/sub" ++ [c_nl]];
        result_q := [ContentRecord "/root/a.txt" 1 "hello";
                     ContentRecord "/root/sub/c.txt" 1 "hello"];
        stop_event := true; files_scanned := 3; matches_found := 2;
        stop_reads := 8; pause_waits := 6 |}, false).
Proof. vm_compute. reflexivity. Qed.

Example content_run_all_lines (host : host_re) :
  result_q
    (fst (worker_text host demo_fs never_cancel never_pause None no_process
            fmt_zero [] [] 0%Q None false false [] false false
            "o" false false false "All" new_run))
  = [ContentRecord "/root/a.txt" 1 "hello";
     ContentRecord "/root/a.txt" 2 "world";
     ContentRecord "/root/sub/c.txt" 1 "hello"].
Proof. vm_compute. reflexivity. Qed.

Example content_run_first_match (host : host_re) :
  result_q
    (fst (worker_text host demo_fs never_cancel never_pause None no_process
            fmt_zero [] [] 0%Q None false false [] false true
            "o" false false false "All" new_run))
  = [ContentRecord "/root/a.txt" 1 "hello";
     ContentRecord "/root/sub/c.txt" 1 "hello"].
Proof. vm_compute. reflexivity. Qed.

(** A stop requested before the third read of the flag ends the run
    after the first file. *)
Example content_run_cancelled (host : host_re) :
  result_q
    (fst (worker_text host demo_fs (fun n => 3 <=? n) never_pause None
            no_process fmt_zero [] [] 0%Q None false false [] false false
            "o" false false false "All" new_run))
  = [ContentRecord "/root/a.txt" 1 "hello"].
Proof. vm_compute. reflexivity. Qed.

(* ================================================================== *)
(** * Further properties *)

(** ** Strings *)

Lemma lstrip_by_split (p : ascii -> bool) (s : str) :
  exists pre, s = pre ++ lstrip_by p s /\ forallb p pre = true.
Proof.
  induction s as [|c s (pre & E & H)]; simpl; [exists []; auto|].
  destruct (p c) eqn:Hc.
  - exists (c :: pre); simpl; rewrite Hc, H, <- E; auto.
  - exists []; auto.
Qed.

Lemma lstrip_by_fixed (p : ascii -> bool) (s : str) :
  match s with [] => true | c :: _ => negb (p c) end = true ->
  lstrip_by p s = s.
Proof.
  destruct s as [|c s]; simpl; [reflexivity|].
  destruct (p c); [discriminate | reflexivity].
Qed.

Lemma lstrip_by_head (p : ascii -> bool) (s : str) :
  match lstrip_by p s with [] => true | c :: _ => negb (p c) end = true.
Proof.
  induction s as [|c s IH]; simpl; [reflexivity|].
  destruct (p c) eqn:Hc; [exact IH | simpl; rewrite Hc; reflexivity].
Qed.

Lemma lstrip_by_idem (p : ascii -> bool) (s : str) :
  lstrip_by p (lstrip_by p s) = lstrip_by p s.
Proof. apply lstrip_by_fixed, lstrip_by_head. Qed.

Lemma rstrip_by_split (p : ascii -> bool) (s : str) :
  exists post, s = rstrip_by p s ++ post /\ forallb p post = true.
Proof.
  unfold rstrip_by.
  destruct (lstrip_by_split p (rev s)) as (pre & E & H).
  exists (rev pre); split.
  - rewrite <- rev_app_distr, <- E, rev_involutive; reflexivity.
  - rewrite forallb_forall in *; intros x Hx; apply H, in_rev, Hx.
Qed.

Lemma rstrip_by_idem (p : ascii -> bool) (s : str) :
  rstrip_by p (rstrip_by p s) = rstrip_by p s.
Proof.
  unfold rstrip_by; rewrite rev_involutive, lstrip_by_idem; reflexivity.
Qed.

Lemma rstrip_by_keeps_head (p : ascii -> bool) (s : str) :
  match s with [] => true | c :: _ => negb (p c) end = true ->
  match rstrip_by p s with [] => true | c :: _ => negb (p c) end = true.
Proof.
  intros H; destruct (rstrip_by_split p s) as (post & E & _).
  destruct (rstrip_by p s) as [|c t]; [reflexivity|].
  rewrite E in H; exact H.
Qed.

Lemma strip_idem (s : str) : strip (strip s) = strip s.
Proof.
  unfold strip.
  rewrite (lstrip_by_fixed is_space (rstrip_by is_space _)).
  - apply rstrip_by_idem.
  - apply rstrip_by_keeps_head, lstrip_by_head.
Qed.

Lemma strip_subset (s : str) (c : ascii) : In c (strip s) -> In c s.
Proof.
  unfold strip; intros H.
  destruct (rstrip_by_split is_space (lstrip_by is_space s)) as (post & E & _).
  destruct (lstrip_by_split is_space s) as (pre & E' & _).
  rewrite E', E; apply in_or_app; right; apply in_or_app; left; exact H.
Qed.

Lemma has_char_In (c : ascii) (s : str) : has_char c s = true <-> In c s.
Proof.
  unfold has_char; rewrite existsb_exists; split.
  - intros (d & Hd & E); apply Ascii.eqb_eq in E; subst; exact Hd.
  - intros H; exists c; split; [exact H | apply Ascii.eqb_refl].
Qed.

Lemma split_on_parts (c : ascii) (s : str) :
  split_on c s <> []
  /\ Forall (fun w => has_char c w = false) (split_on c s).
Proof.
  induction s as [|d s (Hn & IH)]; simpl.
  - split; [discriminate | repeat constructor].
  - destruct (split_on c s) as [|w ws]; [congruence|].
    inversion IH as [|? ? Hw Hws]; subst.
    destruct (d =? c)%char eqn:E.
    + split; [discriminate | repeat constructor; assumption].
    + split; [discriminate|].
      constructor; [|assumption].
      unfold has_char in *; simpl; rewrite E, Hw; reflexivity.
Qed.

(** X1. Every glob [start_search_for_tab] reads from the include or the
    exclude field is non-empty, has no white space at either end, and
    contains no semicolon. *)
Theorem entry_globs_clean (text g : str) :
  In g (entry_globs text) ->
  g <> [] /\ strip g = g /\ has_char ";" g = false.
Proof.
  unfold entry_globs; intros H.
  apply filter_In in H as (H & Hne).
  apply in_map_iff in H as (w & <- & Hw).
  split; [destruct (strip w); [discriminate | congruence]|].
  split; [apply strip_idem|].
  destruct (split_on_parts ";" text) as (_ & Hall).
  rewrite Forall_forall in Hall; specialize (Hall w Hw).
  destruct (has_char ";" (strip w)) eqn:E; [|reflexivity].
  apply has_char_In, strip_subset, has_char_In in E; congruence.
Qed.

Lemma entry_globs_clean_witness :
  In (s_ "*.py") (entry_globs "  .git ; *.py;; ")
  /\ s_ "*.py" <> [] /\ strip "*.py" = s_ "*.py"
  /\ has_char ";" "*.py" = false.
Proof.
  assert (H : In (s_ "*.py") (entry_globs "  .git ; *.py;; "))
    by (vm_compute; auto).
  split; [exact H | exact (@entry_globs_clean _ _ H)].
Defined.

(** ** Paths *)

Lemma after_last_absent (c : ascii) (s : str) :
  has_char c s = false -> after_last c s = s.
Proof.
  destruct s as [|d s]; [reflexivity|].
  intros H.
  assert (Hd : (d =? c)%char = false /\ has_char c s = false).
  { unfold has_char in *; simpl in H; apply orb_false_iff in H; exact H. }
  destruct Hd as (Hd & Hs); cbn [after_last]; rewrite Hs, Hd; reflexivity.
Qed.

Lemma after_last_sep (c : ascii) (pre name : str) :
  has_char c name = false -> after_last c (pre ++ c :: name) = name.
Proof.
  intros H; induction pre as [|x pre IH]; cbn [app after_last].
  - rewrite H, Ascii.eqb_refl; reflexivity.
  - replace (has_char c (pre ++ c :: name)) with true; [exact IH|].
    symmetry; apply has_char_In, in_or_app; right; left; reflexivity.
Qed.

Lemma rstrip_by_last (p : ascii -> bool) (body : str) (x : ascii) :
  p x = false -> rstrip_by p (body ++ [x]) = body ++ [x].
Proof.
  intros H; unfold rstrip_by; rewrite rev_unit; simpl; rewrite H; simpl.
  rewrite rev_involutive; reflexivity.
Qed.

Lemma endswith_char (c : ascii) (s : str) :
  endswith [c] s = true -> exists pre, s = pre ++ [c].
Proof.
  unfold endswith; simpl; intros H.
  destruct (rev s) as [|d t] eqn:E; [discriminate|].
  rewrite andb_true_r in H; apply Ascii.eqb_eq in H; subst d.
  exists (rev t); rewrite <- (rev_involutive s), E; reflexivity.
Qed.

(** X2. For an entry name that is not empty, holds no [/] and does not
    end in a backslash, [is_hidden_path] on the joined path looks at the
    name alone: the entry is hidden exactly when its name starts with a
    dot, whatever the directory. *)
Theorem is_hidden_path_join (root body : str) (x : ascii) :
  x <> "/"%char -> x <> "\"%char -> has_char "/" body = false ->
  is_hidden_path (path_join root (body ++ [x]))
  = startswith "." (body ++ [x]).
Proof.
  intros Hx1 Hx2 Hb.
  set (name := body ++ [x]).
  assert (Hname : has_char "/" name = false).
  { unfold name, has_char in *; rewrite existsb_app, Hb; simpl.
    rewrite orb_false_r; apply Ascii.eqb_neq; exact Hx1. }
  assert (Hstart : startswith "/" name = false).
  { clearbody name; destruct name as [|c t]; [reflexivity|].
    unfold has_char in Hname; cbn [existsb] in Hname.
    apply orb_false_iff in Hname as (Hc & _).
    change (s_ "/") with ["/"%char]; cbn [startswith].
    rewrite Ascii.eqb_sym, Hc; reflexivity. }
  assert (Hstrip : forall pre,
             rstrip_by (fun c => (c =? "\")%char || (c =? "/")%char)
                       (pre ++ name) = pre ++ name).
  { intros pre; unfold name; rewrite app_assoc; apply rstrip_by_last.
    apply orb_false_iff; split; apply Ascii.eqb_neq; assumption. }
  unfold is_hidden_path, path_join, basename; rewrite Hstart.
  destruct (is_empty root || endswith "/" root) eqn:Hr.
  - rewrite Hstrip.
    destruct root as [|r0 root']; [simpl; rewrite after_last_absent; auto|].
    simpl in Hr; apply (endswith_char "/") in Hr as (pre & ->).
    rewrite <- app_assoc; simpl.
    rewrite after_last_sep by exact Hname; reflexivity.
  - change (root ++ s_ "/" ++ name) with (root ++ "/"%char :: name).
    replace (root ++ "/"%char :: name) with ((root ++ ["/"%char]) ++ name)
      by (rewrite <- app_assoc; reflexivity).
    rewrite Hstrip, <- app_assoc; simpl.
    rewrite after_last_sep by exact Hname; reflexivity.
Qed.

Lemma is_hidden_path_join_witness :
  is_hidden_path (path_join "/root/proj" ".git") = true
  /\ is_hidden_path (path_join "/root/.cache" "data") = false.
Proof.
  split.
  - exact (@is_hidden_path_join "/root/proj" ".gi" "t" ltac:(discriminate)
             ltac:(discriminate) eq_refl).
  - exact (@is_hidden_path_join "/root/.cache" "dat" "a" ltac:(discriminate)
             ltac:(discriminate) eq_refl).
Defined.

(** ** [fnmatch] *)

Lemma glob_match_literals (pat name : str) :
  glob_match (map GLit pat) name = str_eqb pat name.
Proof.
  revert name; induction pat as [|c pat IH]; intros [|d name]; simpl;
    try reflexivity.
  rewrite IH; reflexivity.
Qed.

Lemma glob_star_iff (g : list glob_item) (s : str) :
  glob_match (GStar :: g) s = true
  <-> exists pre post, s = pre ++ post /\ glob_match g post = true.
Proof.
  simpl; induction s as [|c s IH].
  - rewrite orb_false_r; split.
    + intros H; exists [], []; auto.
    + intros (pre & post & E & H).
      symmetry in E; apply app_eq_nil in E as (_ & ->); exact H.
  - rewrite orb_true_iff, IH; split.
    + intros [H | (pre & post & -> & H)].
      * exists [], (c :: s); auto.
      * exists (c :: pre), post; auto.
    + intros (pre & post & E & H); destruct pre as [|d pre]; simpl in E.
      * left; rewrite E; exact H.
      * injection E as -> ->; right; exists pre, post; auto.
Qed.

Lemma endswith_iff (suffix s : str) :
  endswith suffix s = true <-> exists pre, s = pre ++ suffix.
Proof.
  unfold endswith; rewrite startswith_iff; split.
  - intros (post & E); exists (rev post).
    rewrite <- (rev_involutive s), E, rev_app_distr, rev_involutive.
    reflexivity.
  - intros (pre & ->); exists (rev pre); apply rev_app_distr.
Qed.

(** X3. A shell pattern without wildcard characters matches its own text
    and nothing else; [*] followed by text without wildcard characters
    matches exactly the names that end in that text, which is also what
    the file-type filter [fname.endswith(filetype)] accepts. *)
Theorem fnmatch_plain_and_suffix (text name : str) :
  plain_name text = true ->
  fnmatchcase name text = str_eqb text name
  /\ fnmatchcase name (s_ "*" ++ text) = endswith text name.
Proof.
  intros Hp; unfold fnmatchcase.
  pose proof (translate_plain text [] Hp) as Ht.
  rewrite app_nil_r in Ht; change (translate []) with (@nil glob_item) in Ht.
  rewrite app_nil_r in Ht.
  split.
  - rewrite Ht; apply glob_match_literals.
  - change (translate (s_ "*" ++ text)) with (GStar :: translate text).
    rewrite Ht; apply eq_true_iff_eq.
    rewrite glob_star_iff, endswith_iff; split.
    + intros (pre & post & -> & H).
      rewrite glob_match_literals in H; apply str_eqb_eq in H; subst.
      exists pre; reflexivity.
    + intros (pre & ->); exists pre, text; split; [reflexivity|].
      rewrite glob_match_literals; apply str_eqb_eq; reflexivity.
Qed.

Lemma fnmatch_plain_and_suffix_witness :
  fnmatchcase "notes.txt" ".txt" = str_eqb ".txt" "notes.txt"
  /\ fnmatchcase "notes.txt" "*.txt" = endswith ".txt" "notes.txt".
Proof. exact (@fnmatch_plain_and_suffix ".txt" "notes.txt" eq_refl). Defined.

(** ** Ignore rules: composition and what a rule list cannot do *)

Lemma lines_from_newline (a b cur : str) :
  lines_from cur (a ++ c_nl :: b)
  = lines_from cur (a ++ [c_nl]) ++ lines_from [] b.
Proof.
  revert cur; induction a as [|x a IH]; intros cur.
  - reflexivity.
  - cbn [app lines_from]; destruct (x =? c_nl)%char.
    + rewrite IH; reflexivity.
    + apply IH.
Qed.

Lemma rules_of_lines_acc (acc : list rule) (lines : list str) :
  rules_of_lines acc lines = acc ++ rules_of_lines [] lines.
Proof.
  revert acc; induction lines as [|raw lines IH]; intros acc; simpl.
  - rewrite app_nil_r; reflexivity.
  - destruct (parse_rule_line raw) as [r|].
    + rewrite (IH (acc ++ [r])), (IH [r]), <- app_assoc; reflexivity.
    + apply IH.
Qed.

Lemma rules_of_lines_app (l1 l2 : list str) :
  rules_of_lines [] (l1 ++ l2)
  = rules_of_lines [] l1 ++ rules_of_lines [] l2.
Proof.
  induction l1 as [|raw l1 IH]; simpl; [reflexivity|].
  destruct (parse_rule_line raw) as [r|]; [|exact IH].
  rewrite (rules_of_lines_acc [r]), (rules_of_lines_acc [r] l1), IH.
  reflexivity.
Qed.

(** X4. Loading an ignore file made of a first part that ends in a
    newline followed by a second part gives the rules of the first part
    followed by the rules of the second; so rules appended to a file come
    last and, by the evaluation order, override the earlier ones. *)
Theorem load_gitignore_rules_app (first second : str) :
  load_gitignore_rules (Some ((first ++ [c_nl]) ++ second))
  = load_gitignore_rules (Some (first ++ [c_nl]))
    ++ load_gitignore_rules (Some second).
Proof.
  unfold load_gitignore_rules, readlines.
  rewrite <- app_assoc; cbn [app].
  rewrite lines_from_newline; apply rules_of_lines_app.
Qed.

Lemma gitignore_all_negated (rel : str) (is_dir : bool) (rules : list rule) :
  forallb rule_negated rules = true ->
  gitignore_ignored rel is_dir rules = false.
Proof.
  induction rules as [|r rules IH] using rev_ind; [reflexivity|].
  rewrite forallb_app, andb_true_iff; simpl; rewrite andb_true_r.
  intros (Hrs & Hr); rewrite gitignore_ignored_snoc, Hr, (IH Hrs).
  destruct (rule_matches rel is_dir r); reflexivity.
Qed.

Lemma gitignore_file_skips_dir_only (rel : str) (rules : list rule) :
  gitignore_ignored rel false rules
  = gitignore_ignored rel false (filter (fun r => negb (snd r)) rules).
Proof.
  induction rules as [|r rules IH] using rev_ind; [reflexivity|].
  rewrite filter_app, gitignore_ignored_snoc; simpl.
  destruct r as [[pat negated] dir_only]; destruct dir_only; simpl.
  - rewrite app_nil_r; exact IH.
  - rewrite gitignore_ignored_snoc, IH; reflexivity.
Qed.

(** X5. A rule list can only ignore through a rule that is not negated:
    when every rule is a negation nothing is ignored.  For a file the
    directory-only rules play no part: the verdict is that of the list
    with the directory-only rules removed. *)
Theorem gitignore_rules_without_effect :
  (forall rel is_dir rules,
     forallb rule_negated rules = true ->
     gitignore_ignored rel is_dir rules = false)
  /\ (forall rel rules,
        gitignore_ignored rel false rules
        = gitignore_ignored rel false (filter (fun r => negb (snd r)) rules)).
Proof.
  split; [exact gitignore_all_negated | exact gitignore_file_skips_dir_only].
Qed.

Lemma gitignore_rules_without_effect_witness :
  gitignore_ignored "keep.log" false
    (load_gitignore_rules (Some (s_ "!keep.log" ++ [c_nl] ++ s_ "!*.txt")))
  = false.
Proof.
  exact (proj1 gitignore_rules_without_effect (s_ "keep.log") false
           (load_gitignore_rules
              (Some (s_ "!keep.log" ++ [c_nl] ++ s_ "!*.txt")))
           eq_refl).
Defined.

(** ** Ignore rules: directory-only rules and top-level entries *)

Lemma until_close_none (s : str) :
  has_char "]" s = false -> until_close s = None.
Proof.
  unfold has_char; induction s as [|c s IH]; [reflexivity|].
  cbn [existsb until_close]; rewrite orb_false_iff; intros (Hc & Hs).
  rewrite Hc, (IH Hs); reflexivity.
Qed.

Lemma until_close_app (a suf : str) :
  has_char "]" suf = false ->
  until_close (a ++ suf)
  = match until_close a with
    | Some (stuff, rest) => Some (stuff, rest ++ suf)
    | None => None
    end.
Proof.
  intros Hs; induction a as [|c a IH]; cbn [app until_close].
  - apply until_close_none, Hs.
  - destruct (c =? "]")%char; [reflexivity|].
    rewrite IH; destruct (until_close a) as [[stuff rest]|]; reflexivity.
Qed.

Lemma until_close_length (a stuff rest : str) :
  until_close a = Some (stuff, rest) -> length stuff < length a.
Proof.
  revert stuff rest; induction a as [|c a IH]; intros stuff rest;
    cbn [until_close]; [discriminate|].
  destruct (c =? "]")%char.
  - intros [= <- <-]; simpl; lia.
  - destruct (until_close a) as [[stuff' rest']|]; [|discriminate].
    intros [= <- <-]; specialize (IH _ _ eq_refl); simpl; lia.
Qed.

Lemma keep_first_app (a suf : str) :
  has_char "]" suf = false ->
  keep_first "]" (a ++ suf)
  = match keep_first "]" a with
    | Some (stuff, rest) => Some (stuff, rest ++ suf)
    | None => None
    end.
Proof.
  intros Hs; destruct a as [|d a]; cbn [app].
  - destruct suf as [|d suf]; [reflexivity|].
    unfold has_char in Hs; cbn [existsb] in Hs.
    apply orb_false_iff in Hs; destruct Hs as (Hd & Hs).
    unfold keep_first; rewrite Hd.
    change (until_close (d :: suf) = None).
    apply until_close_none; unfold has_char; cbn [existsb].
    rewrite Hd, Hs; reflexivity.
  - unfold keep_first; destruct (d =? "]")%char.
    + rewrite until_close_app by exact Hs.
      destruct (until_close a) as [[stuff rest]|]; reflexivity.
    + change (d :: a ++ suf) with ((d :: a) ++ suf).
      apply until_close_app, Hs.
Qed.

Lemma keep_first_length (a stuff rest : str) :
  keep_first "]" a = Some (stuff, rest) -> length stuff < length a.
Proof.
  destruct a as [|d a]; [discriminate|]; unfold keep_first.
  destruct (d =? "]")%char.
  - destruct (until_close a) as [[stuff' rest']|] eqn:E; [|discriminate].
    intros [= <- <-]; apply until_close_length in E; simpl; lia.
  - apply until_close_length.
Qed.

Lemma split_bracket_app (a suf : str) :
  has_char "]" suf = false ->
  split_bracket (a ++ suf)
  = match split_bracket a with
    | Some (stuff, rest) => Some (stuff, rest ++ suf)
    | None => None
    end.
Proof.
  intros Hs; destruct a as [|c a]; cbn [app].
  - destruct suf as [|c suf]; [reflexivity|].
    unfold split_bracket; destruct (c =? "!")%char.
    + assert (H : has_char "]" suf = false).
      { unfold has_char in Hs |- *; cbn [existsb] in Hs.
        apply orb_false_iff in Hs; tauto. }
      pose proof (keep_first_app [] suf H) as E; cbn [app] in E.
      rewrite E; reflexivity.
    + pose proof (keep_first_app [] (c :: suf) Hs) as E; cbn [app] in E.
      rewrite E; reflexivity.
  - unfold split_bracket; destruct (c =? "!")%char.
    + rewrite keep_first_app by exact Hs.
      destruct (keep_first "]" a) as [[stuff rest]|]; reflexivity.
    + change (c :: a ++ suf) with ((c :: a) ++ suf).
      apply keep_first_app, Hs.
Qed.

Lemma split_bracket_length (a stuff rest : str) :
  split_bracket a = Some (stuff, rest) -> length stuff < length a.
Proof.
  destruct a as [|c a]; [discriminate|]; unfold split_bracket.
  destruct (c =? "!")%char.
  - destruct (keep_first "]" a) as [[stuff' rest']|] eqn:E; [|discriminate].
    intros [= <- <-]; apply keep_first_length in E; simpl; lia.
  - apply keep_first_length.
Qed.

(** A suffix without a closing bracket is translated on its own. *)
Lemma translate_from_app (suf : str) :
  has_char "]" suf = false ->
  forall (p : str) (skip : nat),
    skip <= length p ->
    translate_from skip (p ++ suf)
    = translate_from skip p ++ translate_from 0 suf.
Proof.
  intros Hs; induction p as [|c p IH]; intros skip Hk.
  - assert (skip = 0) by (simpl in Hk; lia); subst skip.
    destruct suf; reflexivity.
  - cbn [app translate_from]; destruct skip as [|k].
    + destruct (c =? "*")%char;
        [rewrite IH by lia; reflexivity|].
      destruct (c =? "?")%char;
        [rewrite IH by lia; reflexivity|].
      destruct (c =? "[")%char;
        [|rewrite IH by lia; reflexivity].
      rewrite split_bracket_app by exact Hs.
      destruct (split_bracket p) as [[stuff rest]|] eqn:E.
      * apply split_bracket_length in E.
        rewrite IH by lia; reflexivity.
      * rewrite IH by lia; reflexivity.
    + apply IH; simpl in Hk; lia.
Qed.

Lemma glob_match_needs_char (c : ascii) (g' : list glob_item) :
  forall (items : list glob_item) (s : str),
    glob_match (items ++ GLit c :: g') s = true -> has_char c s = true.
Proof.
  unfold has_char.
  induction items as [|[| |neg ranges|d] items IH]; intros s;
    cbn [app glob_match].
  - destruct s as [|d s]; [discriminate|].
    rewrite andb_true_iff, Ascii.eqb_eq; intros (-> & _).
    cbn [existsb]; rewrite Ascii.eqb_refl; reflexivity.
  - induction s as [|x s IHs].
    + rewrite orb_false_r; apply IH.
    + rewrite orb_true_iff; intros [H | H]; [apply IH, H|].
      cbn [existsb]; rewrite (IHs H), orb_true_r; reflexivity.
  - destruct s as [|x s]; [discriminate|].
    intros H; cbn [existsb]; rewrite (IH s H), orb_true_r; reflexivity.
  - destruct s as [|x s]; [discriminate|].
    rewrite andb_true_iff; intros (_ & H).
    cbn [existsb]; rewrite (IH s H), orb_true_r; reflexivity.
  - destruct s as [|x s]; [discriminate|].
    rewrite andb_true_iff; intros (_ & H).
    cbn [existsb]; rewrite (IH s H), orb_true_r; reflexivity.
Qed.

Lemma dir_suffix_needs_separator (p name : str) :
  has_char "/" name = false ->
  fnmatchcase name (p ++ s_ "/**") = false.
Proof.
  intros Hn; unfold fnmatchcase, translate.
  rewrite translate_from_app by (reflexivity || lia).
  change (translate_from 0 (s_ "/**")) with [GLit "/"; GStar; GStar].
  destruct (glob_match _ name) eqn:E; [|reflexivity].
  apply glob_match_needs_char in E; congruence.
Qed.

Lemma parse_rule_line_dir_only (raw pat : str) (negated : bool) :
  parse_rule_line raw = Some (pat, negated, true) ->
  exists p, pat = p ++ s_ "/**".
Proof.
  unfold parse_rule_line.
  destruct (is_empty (strip raw) || startswith "#" (strip raw));
    [discriminate|].
  set (line := if startswith "!" (strip raw) then strip (tl (strip raw))
               else strip raw).
  destruct (startswith "!" (strip raw) && is_empty line); [discriminate|].
  destruct (endswith "/" line); intros [= <- _].
  eexists; reflexivity.
Qed.

Lemma rules_of_lines_from (lines : list str) (r : rule) :
  In r (rules_of_lines [] lines) ->
  exists raw, In raw lines /\ parse_rule_line raw = Some r.
Proof.
  induction lines as [|raw lines IH]; cbn [rules_of_lines]; [intros []|].
  destruct (parse_rule_line raw) as [r'|] eqn:E.
  - rewrite rules_of_lines_acc; cbn [app]; intros [<- | H].
    + exists raw; split; [left; reflexivity | exact E].
    + destruct (IH H) as (raw' & Hin & Hp).
      exists raw'; split; [right; exact Hin | exact Hp].
  - intros H; destruct (IH H) as (raw' & Hin & Hp).
    exists raw'; split; [right; exact Hin | exact Hp].
Qed.

Lemma top_level_skips_dir_only (rel : str) (is_dir : bool)
    (rules : list rule) :
  has_char "/" rel = false ->
  Forall (fun r : rule =>
            snd r = true -> exists p, fst (fst r) = p ++ s_ "/**") rules ->
  gitignore_ignored rel is_dir rules
  = gitignore_ignored rel is_dir (filter (fun r => negb (snd r)) rules).
Proof.
  intros Hrel; induction rules as [|r rules IH] using rev_ind;
    [reflexivity|].
  intros Hall; apply Forall_app in Hall; destruct Hall as (Hrs & Hr).
  inversion Hr as [|? ? Hform _]; subst.
  rewrite filter_app, gitignore_ignored_snoc.
  destruct r as [[pat negated] [|]].
  - destruct (Hform eq_refl) as (p & Hp); cbn [fst] in Hp; subst pat.
    assert (Hs : has_char "/" (p ++ s_ "/**") = true).
    { unfold has_char; rewrite existsb_app; cbn; apply orb_true_r. }
    unfold rule_matches.
    rewrite Hs, dir_suffix_needs_separator by exact Hrel.
    rewrite andb_false_r.
    cbn [filter snd negb]; rewrite app_nil_r.
    exact (IH Hrs).
  - cbn [filter snd negb].
    rewrite gitignore_ignored_snoc, (IH Hrs); reflexivity.
Qed.

(** X26. For an entry directly in the base directory the directory-only
    rules of an ignore file play no part, whether the entry is a file or
    a directory: every such rule is loaded as a pattern that ends in
    [/**], which needs a separator in the path it matches, and the
    relative path of a top-level entry has none.  The verdict is that of
    the rule list with the directory-only rules removed. *)
Theorem dir_only_rules_skip_top_level (gitignore : option str) (rel : str)
    (is_dir : bool) :
  has_char "/" rel = false ->
  gitignore_ignored rel is_dir (load_gitignore_rules gitignore)
  = gitignore_ignored rel is_dir
      (filter (fun r => negb (snd r)) (load_gitignore_rules gitignore)).
Proof.
  intros Hrel; apply top_level_skips_dir_only; [exact Hrel|].
  destruct gitignore as [text|]; [|constructor].
  apply Forall_forall; intros [[pat negated] dir_only] Hin Hd.
  cbn [snd fst] in *; subst dir_only.
  apply rules_of_lines_from in Hin; destruct Hin as (raw & _ & Hp).
  exact (parse_rule_line_dir_only _ Hp).
Qed.

Lemma dir_only_rules_skip_top_level_witness :
  gitignore_ignored (s_ "build") true
    (load_gitignore_rules (Some (s_ "build/" ++ [c_nl] ++ s_ "*.log")))
  = gitignore_ignored (s_ "build") true
      (filter (fun r => negb (snd r))
         (load_gitignore_rules (Some (s_ "build/" ++ [c_nl] ++ s_ "*.log")))).
Proof.
  apply (@dir_only_rules_skip_top_level
           (Some (s_ "build/" ++ [c_nl] ++ s_ "*.log")) (s_ "build") true).
  reflexivity.
Defined.

(** ** Traversal: what every yielded entry satisfies *)

Lemma node_nested_ind (P : node -> Prop) :
  (forall f, P (NFile f)) ->
  (forall listable m entries,
     Forall (fun e => P (snd e)) entries -> P (NDir listable m entries)) ->
  forall n, P n.
Proof.
  intros Hf Hd; fix IH 1; intros [f | listable m entries].
  - apply Hf.
  - apply Hd; induction entries as [|[name child] es IHes]; constructor.
    + apply IH.
    + exact IHes.
Qed.

Section WalkInvariant.

Variable base_dir : str.
Variable depth_limit : option Z.
Variable skip_hidden : bool.
Variable gitignore_rules : list rule.
Variable on_yield : list str -> list str.

(** What holds of a directory when it is reached, and of the entry it
    yields. *)
Variable reached : str -> node -> Prop.
Variable yielded : walk_entry -> Prop.

Hypothesis yield_ok :
  forall root m entries,
    reached root (NDir true m entries) ->
    yielded (root,
             prune_dirs base_dir depth_limit skip_hidden gitignore_rules root
                        (dir_names entries),
             keep_files base_dir skip_hidden gitignore_rules root
                        (file_names entries)).

Hypothesis descend_ok :
  forall root m entries d name child,
    reached root (NDir true m entries) ->
    In d (on_yield (prune_dirs base_dir depth_limit skip_hidden
                               gitignore_rules root (dir_names entries))) ->
    In (name, child) entries -> name = d ->
    reached (path_join root d) child.

Lemma walk_invariant (n : node) :
  forall root, reached root n ->
  Forall yielded (walk base_dir depth_limit skip_hidden gitignore_rules
                       on_yield root n).
Proof.
  induction n as [f | listable m entries IH] using node_nested_ind;
    intros root Hr; [constructor|].
  cbn [walk]; destruct listable; [|constructor].
  constructor; [eapply yield_ok, Hr|].
  apply Forall_flat_map, Forall_forall; intros d Hd.
  assert (Hsub : forall es,
             incl es entries ->
             Forall yielded
               ((fix visit (es0 : list (str * node)) : list walk_entry :=
                   match es0 with
                   | [] => []
                   | (name, child) :: es' =>
                       if str_eqb name d
                       then walk base_dir depth_limit skip_hidden
                                 gitignore_rules on_yield
                                 (path_join root d) child
                       else visit es'
                   end) es)).
  { induction es as [|[name child] es IHes]; intros Hincl; [constructor|].
    destruct (str_eqb name d) eqn:E.
    - rewrite Forall_forall in IH.
      apply (IH (name, child)); [apply Hincl; left; reflexivity|].
      apply str_eqb_eq in E.
      eapply descend_ok; try eassumption. apply Hincl; left; reflexivity.
    - apply IHes; intros x Hx; apply Hincl; right; exact Hx. }
  apply Hsub, incl_refl.
Qed.

End WalkInvariant.

Lemma exclude_dirs_incl (globs dirs : list str) (d : str) :
  In d (exclude_dirs globs dirs) -> In d dirs.
Proof.
  destruct globs; simpl; [auto|].
  intros H; apply filter_In in H; tauto.
Qed.

Lemma prune_dirs_incl (base : str) (limit : option Z) (sh : bool)
    (rules : list rule) (root : str) (dirs : list str) (d : str) :
  In d (prune_dirs base limit sh rules root dirs) ->
  In d dirs
  /\ (forall l, limit = Some l -> (cur_depth base root < l)%Z)
  /\ (sh = true -> is_hidden_path (path_join root d) = false)
  /\ (rules <> [] ->
      gitignore_ignored (rel_posix base root d) true rules = false).
Proof.
  unfold prune_dirs; intros H.
  set (d1 := match limit with
             | Some l => if (l <=? cur_depth base root)%Z then [] else dirs
             | None => dirs
             end) in H.
  set (d2 := if sh
             then filter (fun x => negb (is_hidden_path (path_join root x))) d1
             else d1) in H.
  assert (H2 : In d d2).
  { destruct rules; [exact H | apply filter_In in H; tauto]. }
  assert (H1 : In d d1).
  { unfold d2 in H2; destruct sh; [apply filter_In in H2; tauto | exact H2]. }
  repeat split.
  - unfold d1 in H1; destruct limit as [l|]; [|exact H1].
    destruct (l <=? cur_depth base root)%Z; [contradiction | exact H1].
  - intros l ->; unfold d1 in H1.
    destruct (l <=? cur_depth base root)%Z eqn:E; [contradiction|].
    apply Z.leb_gt in E; exact E.
  - intros ->; unfold d2 in H2; apply filter_In in H2 as (_ & H2).
    apply negb_true_iff in H2; exact H2.
  - intros Hr; destruct rules; [congruence|].
    apply filter_In in H as (_ & H); apply negb_true_iff in H; exact H.
Qed.

Lemma keep_files_incl (base : str) (sh : bool) (rules : list rule)
    (root : str) (files : list str) (f : str) :
  In f (keep_files base sh rules root files) ->
  In f files
  /\ (sh = true -> is_hidden_path (path_join root f) = false)
  /\ (rules <> [] ->
      gitignore_ignored (rel_posix base root f) false rules = false).
Proof.
  unfold keep_files; intros H.
  set (f1 := if sh
             then filter (fun x => negb (is_hidden_path (path_join root x)))
                         files
             else files) in H.
  assert (H1 : In f f1).
  { destruct rules; [exact H | apply filter_In in H; tauto]. }
  repeat split.
  - unfold f1 in H1; destruct sh; [apply filter_In in H1; tauto | exact H1].
  - intros ->; unfold f1 in H1; apply filter_In in H1 as (_ & H1).
    apply negb_true_iff in H1; exact H1.
  - intros Hr; destruct rules; [congruence|].
    apply filter_In in H as (_ & H); apply negb_true_iff in H; exact H.
Qed.

(** X6. Whatever the tree, the depth limit and the consumer's pruning,
    the traversal with hidden entries skipped and a non-empty rule list
    never yields a hidden name or a name the rules ignore, neither among
    the subdirectories nor among the files of any entry. *)
Theorem walk_yields_no_hidden_or_ignored
    (fs : filesystem) (depth_limit : option Z) (r : rule) (rs : list rule)
    (on_yield : list str -> list str) :
  Forall
    (fun e : walk_entry =>
       let '(root, dirs, files) := e in
       Forall (fun d =>
                 is_hidden_path (path_join root d) = false
                 /\ gitignore_ignored (rel_posix (fs_base fs) root d) true
                                      (r :: rs) = false) dirs
       /\ Forall (fun f =>
                    is_hidden_path (path_join root f) = false
                    /\ gitignore_ignored (rel_posix (fs_base fs) root f) false
                                         (r :: rs) = false) files)
    (walk_with_depth fs depth_limit true (r :: rs) on_yield).
Proof.
  unfold walk_with_depth.
  apply (@walk_invariant (fs_base fs) depth_limit true (r :: rs) on_yield
           (fun _ _ => True)); [| auto | exact I].
  intros root m entries _; split; apply Forall_forall; intros x Hx.
  - apply prune_dirs_incl in Hx as (_ & _ & Hh & Hi).
    split; [apply Hh; reflexivity | apply Hi; discriminate].
  - apply keep_files_incl in Hx as (_ & Hh & Hi).
    split; [apply Hh; reflexivity | apply Hi; discriminate].
Qed.

(** ** Traversal: the directories entered *)

Lemma exclude_dirs_kept (globs dirs : list str) (d : str) :
  In d (exclude_dirs globs dirs) -> glob_any d globs = false.
Proof.
  destruct globs as [|g globs]; [reflexivity|].
  unfold exclude_dirs; intros H; apply filter_In in H.
  destruct H as [_ H]; apply negb_true_iff in H; exact H.
Qed.

(** X24. The workers never enter a directory they pruned: every entry of
    a worker's traversal is for the base directory or for a subdirectory
    whose name no exclude glob matches and that is neither hidden, when
    hidden entries are skipped, nor ignored by the rules. *)
Theorem walk_enters_only_kept_directories
    (fs : filesystem) (depth_limit : option Z) (skip_hidden : bool)
    (gitignore_rules : list rule) (exclude_globs : list str) :
  Forall (fun e : walk_entry =>
            kept_directory (fs_base fs) skip_hidden gitignore_rules
                           exclude_globs (fst (fst e)))
         (walk_with_depth fs depth_limit skip_hidden gitignore_rules
                          (exclude_dirs exclude_globs)).
Proof.
  apply (@walk_invariant (fs_base fs) depth_limit skip_hidden
           gitignore_rules (exclude_dirs exclude_globs)
           (fun root _ => kept_directory (fs_base fs) skip_hidden
                            gitignore_rules exclude_globs root)).
  - intros root m entries H; exact H.
  - intros root m entries d name child _ Hd _ _.
    right; exists root, d; split; [reflexivity|].
    split; [exact (exclude_dirs_kept _ _ _ Hd)|].
    apply exclude_dirs_incl, prune_dirs_incl in Hd.
    destruct Hd as (_ & _ & Hh & Hi); split.
    + destruct skip_hidden; [apply Hh; reflexivity | reflexivity].
    + destruct gitignore_rules as [|r rs]; [reflexivity|].
      apply Hi; discriminate.
  - left; reflexivity.
Qed.

(** ** Traversal: the depth limit *)

Lemma count_char_absent (c : ascii) (s : str) :
  has_char c s = false -> count_char c s = 0.
Proof.
  unfold has_char, count_char; induction s as [|d s IH]; simpl;
    [reflexivity|].
  rewrite orb_false_iff; intros (Hd & Hs); rewrite Hd; apply IH, Hs.
Qed.

Lemma count_char_app (c : ascii) (a b : str) :
  count_char c (a ++ b) = count_char c a + count_char c b.
Proof. unfold count_char; rewrite filter_app, length_app; reflexivity. Qed.

Lemma rstrip_char_no_trailing (c : ascii) (s : str) :
  endswith [c] s = false -> rstrip_char c s = s.
Proof.
  unfold endswith, rstrip_char, rstrip_by; simpl; intros H.
  rewrite lstrip_by_fixed; [apply rev_involutive|].
  destruct (rev s) as [|d t]; [reflexivity|].
  rewrite andb_true_r in H; rewrite Ascii.eqb_sym, H; reflexivity.
Qed.

Lemma endswith_last (c x : ascii) (body : str) :
  endswith [c] (body ++ [x]) = (c =? x)%char.
Proof.
  unfold endswith; rewrite rev_unit; simpl; apply andb_true_r.
Qed.

Lemma path_join_depth (root name : str) :
  tidy_path root = true ->
  is_empty name = false -> has_char "/" name = false ->
  tidy_path (path_join root name) = true
  /\ sep_depth (path_join root name) = S (sep_depth root).
Proof.
  intros Ht Hne Hs.
  destruct (exists_last (l:=name)) as (body & x & E);
    [destruct name; [discriminate | discriminate]|].
  assert (Hx : ("/" =? x)%char = false).
  { destruct ("/" =? x)%char eqn:Ex; [|reflexivity].
    apply Ascii.eqb_eq in Ex; subst x.
    assert (In "/"%char name) by (rewrite E; apply in_or_app; right; left;
                                  reflexivity).
    apply has_char_In in H; congruence. }
  assert (Hstart : startswith "/" name = false).
  { destruct name as [|c t]; [discriminate|].
    unfold has_char in Hs; cbn [existsb] in Hs.
    apply orb_false_iff in Hs as (Hc & _).
    change (s_ "/") with ["/"%char]; cbn [startswith].
    rewrite Ascii.eqb_sym, Hc; reflexivity. }
  assert (Hend : forall pre, endswith "/" (pre ++ name) = false).
  { intros pre; rewrite E, app_assoc.
    change (s_ "/") with ["/"%char]; rewrite endswith_last; exact Hx. }
  assert (Hnonempty : forall pre, is_empty (pre ++ name) = false).
  { intros pre; destruct pre; [exact Hne | reflexivity]. }
  assert (Hdepth : forall pre,
             sep_depth (pre ++ name) = count_char "/" pre).
  { intros pre; unfold sep_depth.
    rewrite rstrip_char_no_trailing by apply Hend.
    rewrite count_char_app, (count_char_absent _ _ Hs); lia. }
  unfold tidy_path in Ht; apply andb_true_iff in Ht as (Hr & Ht).
  unfold path_join; rewrite Hstart.
  apply orb_true_iff in Ht as [Ht | Ht].
  - apply negb_true_iff in Ht.
    destruct root as [|r0 root']; [discriminate|].
    cbn [is_empty orb]; rewrite Ht.
    change (s_ "/" ++ name) with ("/"%char :: name).
    replace ((r0 :: root') ++ "/"%char :: name)
      with (((r0 :: root') ++ ["/"%char]) ++ name)
      by (rewrite <- app_assoc; reflexivity).
    split.
    + unfold tidy_path; rewrite Hnonempty, Hend; reflexivity.
    + rewrite Hdepth, count_char_app; unfold sep_depth.
      rewrite rstrip_char_no_trailing by exact Ht.
      change (count_char "/" ["/"%char]) with 1; lia.
  - apply str_eqb_eq in Ht; subst root.
    change (is_empty (s_ "/") || endswith "/" "/") with true; cbv iota.
    split.
    + unfold tidy_path; rewrite Hnonempty, Hend; reflexivity.
    + rewrite Hdepth; reflexivity.
Qed.

Lemma well_named_child (listable : bool) (m : option nat)
    (entries : list (str * node)) (name : str) (child : node) :
  well_named (NDir listable m entries) = true ->
  In (name, child) entries ->
  is_empty name = false /\ has_char "/" name = false
  /\ well_named child = true.
Proof.
  cbn [well_named]; rewrite forallb_forall; intros H Hin.
  specialize (H _ Hin); cbv beta iota in H.
  apply andb_true_iff in H as (H & Hc).
  apply andb_true_iff in H as (Hn & Hs).
  apply negb_true_iff in Hn, Hs; auto.
Qed.

(** X7. With a depth limit, on a tree whose entry names are those of a
    directory listing and from a normalised base directory, no entry the
    traversal yields lies deeper below the base than the limit (a
    negative limit counting as 0), while every worker prunes with its
    exclude globs. *)
Theorem walk_never_exceeds_depth_limit
    (fs : filesystem) (limit : Z) (skip_hidden : bool) (rules : list rule)
    (exclude_globs : list str) :
  tidy_path (fs_base fs) = true ->
  well_named (fs_root fs) = true ->
  Forall (fun e : walk_entry =>
            (cur_depth (fs_base fs) (fst (fst e)) <= Z.max 0 limit)%Z)
         (walk_with_depth fs (Some limit) skip_hidden rules
                          (exclude_dirs exclude_globs)).
Proof.
  intros Hbase Hroot; unfold walk_with_depth.
  apply (@walk_invariant (fs_base fs) (Some limit) skip_hidden rules
           (exclude_dirs exclude_globs)
           (fun root n =>
              tidy_path root = true /\ well_named n = true
              /\ (cur_depth (fs_base fs) root <= Z.max 0 limit)%Z)).
  - intros root m entries (_ & _ & H); exact H.
  - intros root m entries d name child (Ht & Hw & Hd) Hin Hchild ->.
    apply exclude_dirs_incl, prune_dirs_incl in Hin as (_ & Hlim & _).
    specialize (Hlim limit eq_refl).
    destruct (well_named_child _ _ _ _ _ Hw Hchild) as (Hn & Hs & Hc).
    destruct (path_join_depth root d Ht Hn Hs) as (Ht' & Hdepth).
    repeat split; [exact Ht' | exact Hc|].
    unfold cur_depth in *; rewrite Hdepth; lia.
  - repeat split; [exact Hbase | exact Hroot|].
    rewrite cur_depth_base; lia.
Qed.

Lemma walk_never_exceeds_depth_limit_witness :
  Forall (fun e : walk_entry =>
            (cur_depth "/root" (fst (fst e)) <= Z.max 0 1)%Z)
         (walk_with_depth data_fs (Some 1%Z) false [] (exclude_dirs [])).
Proof.
  exact (@walk_never_exceeds_depth_limit data_fs 1%Z false [] [] eq_refl
           eq_refl).
Defined.

(** ** Workers: the effect of a run on the state *)

Transparent pause_loop.

Section Effect.

Variable cancel : nat -> bool.
Variable pause_spins : nat -> nat.
Variable Q : match_record -> Prop.

Lemma effect_refl (st : TabState) : effect Q st st.
Proof.
  repeat split; [exists [] | exists [] | | ]; rewrite ?app_nil_r; simpl;
    auto.
Qed.

Lemma effect_trans (a b c : TabState) :
  effect Q a b -> effect Q b c -> effect Q a c.
Proof.
  intros ((l1 & R1 & M1 & F1) & (m1 & L1) & S1 & E1)
         ((l2 & R2 & M2 & F2) & (m2 & L2) & S2 & E2).
  repeat split.
  - exists (l1 ++ l2); rewrite R2, R1, M2, M1, length_app, app_assoc.
    repeat split; [lia | apply Forall_app; auto].
  - exists (m1 ++ m2); rewrite L2, L1, app_assoc; reflexivity.
  - lia.
  - auto.
Qed.

(** A step that leaves the queues and counters alone and does not clear
    the stop flag. *)
Lemma effect_quiet (st st' : TabState) :
  same_output st st' ->
  (stop_event st = true -> stop_event st' = true) ->
  effect Q st st'.
Proof.
  intros (R & L & S & M) E; repeat split; auto.
  - exists []; rewrite app_nil_r, M; simpl; auto.
  - exists []; rewrite app_nil_r; exact L.
  - lia.
Qed.

Lemma effect_stop_is_set (st : TabState) :
  effect Q st (snd (stop_is_set cancel st)).
Proof.
  apply effect_quiet; [apply stop_is_set_same|].
  simpl; intros ->; reflexivity.
Qed.

Lemma spin_keeps_stop (n : nat) (st : TabState) :
  stop_event st = true -> stop_event (spin cancel n st) = true.
Proof.
  revert st; induction n as [|n IH]; intros st H; simpl; [exact H|].
  rewrite H; reflexivity.
Qed.

Lemma effect_pause_loop (st : TabState) :
  effect Q st (pause_loop cancel pause_spins st).
Proof.
  apply effect_quiet; [apply pause_loop_same|].
  unfold pause_loop; simpl; apply spin_keeps_stop.
Qed.

Lemma effect_checked (st : TabState) :
  effect Q st (pause_loop cancel pause_spins (snd (stop_is_set cancel st))).
Proof.
  eapply effect_trans; [apply effect_stop_is_set | apply effect_pause_loop].
Qed.

Lemma effect_log_put (msg : str) (st : TabState) :
  effect Q st (log_put msg st).
Proof.
  repeat split; simpl; auto.
  - exists []; rewrite app_nil_r; simpl; auto.
  - exists [msg]; reflexivity.
Qed.

Lemma effect_incr_scanned (st : TabState) : effect Q st (incr_scanned st).
Proof.
  repeat split; simpl; auto.
  - exists []; rewrite app_nil_r; simpl; auto.
  - exists []; rewrite app_nil_r; reflexivity.
Qed.

Lemma effect_stop_set (st : TabState) : effect Q st (stop_set st).
Proof.
  repeat split; simpl; auto.
  - exists []; rewrite app_nil_r; simpl; auto.
  - exists []; rewrite app_nil_r; reflexivity.
Qed.

Lemma effect_emit (r : match_record) (st : TabState) :
  Q r -> effect Q st (result_put r (incr_matches st)).
Proof.
  intros H; repeat split; simpl; auto.
  - exists [r]; simpl; repeat split; [lia | auto].
  - exists []; rewrite app_nil_r; reflexivity.
Qed.

Lemma effect_content_scan (mc : matcher) (lines : list str) (st : TabState) :
  effect Q st (fst (content_scan cancel pause_spins mc lines st)).
Proof.
  revert st; induction lines as [|line rest IH]; intros st; simpl.
  - apply effect_refl.
  - pose proof (effect_stop_is_set st) as H1.
    pose proof (effect_checked st) as H2.
    unfold stop_is_set in H1, H2; simpl in H1, H2.
    destruct (stop_event st || cancel (stop_reads st)); simpl; [exact H1|].
    destruct (mc line) as [[|]|]; simpl; try exact H2.
    eapply effect_trans; [exact H2 | apply IH].
Qed.

End Effect.

Lemma effect_weaken (Q Q' : match_record -> Prop) (st st' : TabState) :
  (forall r, Q r -> Q' r) -> effect Q st st' -> effect Q' st st'.
Proof.
  intros H ((l & R & M & F) & L & S & E); repeat split; auto.
  exists l; repeat split; auto.
  eapply Forall_impl; [exact H | exact F].
Qed.

Opaque pause_loop.

(** ** Content worker: what it emits *)

Section TextEffect.

Variable fs : filesystem.
Variable cancel : nat -> bool.
Variable pause_spins : nat -> nat.
Variables include_globs exclude_globs : list str.
Variable max_mb : Q.
Variable first_match_per_file : bool.
Variable filetype : str.
Variable is_match : matcher.

Lemma scan_lines_effect (fpath : str) (all : list str) :
  forall (lines pre : list str) (i : nat) (matched : bool) (st : TabState),
    all = pre ++ lines -> i = S (length pre) ->
    effect (fun r =>
              exists j line,
                r = ContentRecord fpath j (rstrip_nl line)
                /\ nth_error all (j - 1) = Some line /\ 1 <= j
                /\ is_match line = Some true)
           st
           (fst (scan_lines cancel pause_spins first_match_per_file is_match
                            fpath i lines matched st)).
Proof.
  induction lines as [|line rest IH]; intros pre i matched st Hall Hi.
  - apply effect_refl.
  - cbn [scan_lines].
    match goal with
    | |- effect ?R _ _ =>
        pose proof (effect_stop_is_set cancel R st) as H1;
        pose proof (effect_checked cancel pause_spins R st) as H2
    end.
    unfold stop_is_set in H1, H2 |- *; cbn [snd] in H1, H2.
    destruct (stop_event st || cancel (stop_reads st)); [exact H1|].
    set (st2 := pause_loop cancel pause_spins _) in *.
    assert (Hnext : all = (pre ++ [line]) ++ rest
                    /\ S i = S (length (pre ++ [line]))).
    { rewrite <- app_assoc, length_app; simpl; split; [exact Hall | lia]. }
    destruct Hnext as (Hall' & Hi').
    destruct (is_match line) as [[|]|] eqn:Hm; cbn [fst].
    + match goal with
      | |- effect ?R _ _ =>
          assert (Hemit : effect R st2
                            (result_put
                               (ContentRecord fpath i (rstrip_nl line))
                               (incr_matches st2)))
      end.
      { apply effect_emit; exists i, line; repeat split; auto; [|lia].
        rewrite Hall, Hi; simpl; rewrite Nat.sub_0_r.
        rewrite nth_error_app2, Nat.sub_diag by lia; reflexivity. }
      destruct first_match_per_file; cbn [fst].
      * eapply effect_trans; eassumption.
      * eapply effect_trans; [exact H2|].
        eapply effect_trans; [exact Hemit|].
        apply (IH _ _ _ _ Hall' Hi').
    + eapply effect_trans; [exact H2 | apply (IH _ _ _ _ Hall' Hi')].
    + exact H2.
Qed.

Variable entries : list walk_entry.

Lemma text_file_effect (root : str) (dirs files : list str) (fname : str)
    (st : TabState) :
  In (root, dirs, files) entries -> In fname files ->
  effect (content_record_ok fs include_globs exclude_globs filetype is_match
                            entries)
         st
         (text_file fs cancel pause_spins include_globs exclude_globs max_mb
                    first_match_per_file filetype is_match root fname st).
Proof.
  intros Hentry Hfile; unfold text_file.
  destruct (negb (str_eqb filetype "All") && negb (endswith filetype fname))
    eqn:Htype; [apply effect_refl|].
  destruct (glob_rejected include_globs exclude_globs fname) eqn:Hglob;
    [apply effect_refl|].
  match goal with |- context [if ?c then st else _] => destruct c end;
    [apply effect_refl|].
  destruct (is_binary_quick fs (path_join root fname)) eqn:Hbin;
    [apply effect_incr_scanned|].
  destruct (read_file fs (path_join root fname)) as [text|] eqn:Hread;
    [|apply effect_incr_scanned].
  eapply effect_trans; [apply effect_incr_scanned|].
  eapply effect_weaken;
    [|apply (@scan_lines_effect (path_join root fname) (readlines text)
               (readlines text) [] 1 false _ eq_refl eq_refl)].
  intros r (j & line & -> & Hnth & Hj & Hm).
  exists root, dirs, files, fname, text, j, line; repeat split; auto.
  apply andb_false_iff in Htype as [H | H]; apply negb_false_iff in H; auto.
Qed.

Lemma text_files_effect (root : str) (dirs files : list str) :
  In (root, dirs, files) entries ->
  forall (rest : list str) (st : TabState),
    incl rest files ->
    effect (content_record_ok fs include_globs exclude_globs filetype is_match
                            entries)
         st
           (text_files fs cancel pause_spins include_globs exclude_globs
                       max_mb first_match_per_file filetype is_match root
                       rest st).
Proof.
  intros Hentry; induction rest as [|fname rest IH]; intros st Hincl;
    cbn [text_files]; [apply effect_refl|].
  match goal with
  | |- effect ?R _ _ =>
      pose proof (effect_stop_is_set cancel R st) as H1;
      pose proof (effect_checked cancel pause_spins R st) as H2
  end.
  unfold stop_is_set in H1, H2 |- *; cbn [snd] in H1, H2.
  destruct (stop_event st || cancel (stop_reads st)); [exact H1|].
  eapply effect_trans; [exact H2|].
  eapply effect_trans.
  - apply (text_file_effect root dirs files fname); [exact Hentry|].
    apply Hincl; left; reflexivity.
  - apply IH; intros x Hx; apply Hincl; right; exact Hx.
Qed.

Lemma text_dirs_effect (rest : list walk_entry) (st : TabState) :
  incl rest entries ->
  effect (content_record_ok fs include_globs exclude_globs filetype is_match
                            entries)
         st
         (text_dirs fs cancel pause_spins include_globs exclude_globs max_mb
                    first_match_per_file filetype is_match rest st).
Proof.
  revert st; induction rest as [|[[root dirs] files] rest IH];
    intros st Hincl; cbn [text_dirs]; [apply effect_refl|].
  match goal with
  | |- effect ?R _ _ => pose proof (effect_stop_is_set cancel R st) as H1
  end.
  unfold stop_is_set in H1 |- *; cbn [snd] in H1.
  destruct (stop_event st || cancel (stop_reads st)); [exact H1|].
  eapply effect_trans; [exact H1|].
  eapply effect_trans; [apply effect_log_put|].
  eapply effect_trans.
  - apply (@text_files_effect root dirs files);
      [apply Hincl; left; reflexivity | apply incl_refl].
  - apply IH; intros x Hx; apply Hincl; right; exact Hx.
Qed.

End TextEffect.

(** ** FileName worker: what it emits *)

Lemma content_scan_true (cancel : nat -> bool) (pause_spins : nat -> nat)
    (mc : matcher) (lines : list str) (st : TabState) :
  snd (content_scan cancel pause_spins mc lines st) = Some true ->
  exists line, In line lines /\ mc line = Some true.
Proof.
  revert st; induction lines as [|line rest IH]; intros st; simpl;
    [discriminate|].
  destruct (stop_event st || cancel (stop_reads st)); [discriminate|].
  destruct (mc line) as [[|]|] eqn:Hm; simpl; try discriminate.
  - intros _; exists line; auto.
  - intros H; destruct (IH _ H) as (l & Hl & Hml); exists l; auto.
Qed.

Section FileEffect.

Variable fs : filesystem.
Variable cancel : nat -> bool.
Variable pause_spins : nat -> nat.
Variables include_globs exclude_globs : list str.
Variable max_mb : Q.
Variable content_filter_on : bool.
Variables match_name match_content : matcher.
Variable entries : list walk_entry.

Lemma file_file_effect (root : str) (dirs files : list str) (fname : str)
    (st : TabState) :
  In (root, dirs, files) entries -> In fname files ->
  effect (file_record_ok fs include_globs exclude_globs max_mb
                         content_filter_on match_name match_content entries)
         st
         (fst (file_file fs cancel pause_spins include_globs exclude_globs
                         max_mb content_filter_on match_name match_content
                         root fname st)).
Proof.
  intros Hentry Hfile; unfold file_file.
  destruct (glob_rejected include_globs exclude_globs fname) eqn:Hglob;
    [apply effect_refl|].
  destruct (getsize fs (path_join root fname)) as [size|] eqn:Hsize;
    [|apply effect_refl].
  destruct (over_cap max_mb size) eqn:Hcap; [apply effect_refl|].
  destruct (match_name fname) as [[|]|] eqn:Hname; cbn [fst];
    try apply effect_incr_scanned.
  assert (Hemit : forall s,
             (content_filter_on = true ->
              is_binary_quick fs (path_join root fname) = false
              /\ exists text line,
                   read_file fs (path_join root fname) = Some text
                   /\ In line (readlines text)
                   /\ match_content line = Some true) ->
             effect (file_record_ok fs include_globs exclude_globs max_mb
                       content_filter_on match_name match_content entries)
                    s
                    (result_put
                       (FileRecord (path_join root fname) size
                                   (getmtime fs (path_join root fname))
                                   content_filter_on)
                       (incr_matches s))).
  { intros s Hc; apply effect_emit.
    exists root, dirs, files, fname, size; repeat split; auto;
      apply Hc; assumption. }
  destruct content_filter_on eqn:Hon.
  - destruct (is_binary_quick fs (path_join root fname)) eqn:Hbin;
      [apply effect_incr_scanned|].
    destruct (read_file fs (path_join root fname)) as [text|] eqn:Hread;
      [|apply effect_incr_scanned].
    pose proof (effect_content_scan cancel pause_spins
                  (file_record_ok fs include_globs exclude_globs max_mb
                     true match_name match_content entries)
                  match_content (readlines text) (incr_scanned st)) as Hscan.
    pose proof (content_scan_true cancel pause_spins match_content
                  (readlines text) (incr_scanned st)) as Htrue.
    destruct (content_scan cancel pause_spins match_content (readlines text)
                (incr_scanned st)) as [st2 [[|]|]];
      cbn [fst snd] in *;
      try (eapply effect_trans; [apply effect_incr_scanned | exact Hscan]).
    eapply effect_trans; [apply effect_incr_scanned|].
    eapply effect_trans; [exact Hscan|].
    apply Hemit; intros _; split; [reflexivity|].
    destruct (Htrue eq_refl) as (line & Hl & Hm).
    exists text, line; auto.
  - eapply effect_trans; [apply effect_incr_scanned|].
    apply Hemit; discriminate.
Qed.

Lemma file_files_effect (root : str) (dirs files : list str) :
  In (root, dirs, files) entries ->
  forall (rest : list str) (st : TabState),
    incl rest files ->
    effect (file_record_ok fs include_globs exclude_globs max_mb
                           content_filter_on match_name match_content entries)
           st
           (fst (file_files fs cancel pause_spins include_globs exclude_globs
                            max_mb content_filter_on match_name match_content
                            root rest st)).
Proof.
  intros Hentry; induction rest as [|fname rest IH]; intros st Hincl;
    cbn [file_files]; [apply effect_refl|].
  match goal with
  | |- effect ?R _ _ =>
      pose proof (effect_stop_is_set cancel R st) as H1;
      pose proof (effect_checked cancel pause_spins R st) as H2
  end.
  unfold stop_is_set in H1, H2 |- *; cbn [snd] in H1, H2.
  destruct (stop_event st || cancel (stop_reads st)); [exact H1|].
  set (st2 := pause_loop cancel pause_spins _) in *.
  pose proof (@file_file_effect root dirs files fname st2 Hentry
                (Hincl fname (or_introl eq_refl))) as Hf.
  destruct (file_file fs cancel pause_spins include_globs exclude_globs
              max_mb content_filter_on match_name match_content root fname
              st2) as [st3 [|]]; cbn [fst] in Hf |- *.
  - eapply effect_trans; eassumption.
  - eapply effect_trans; [exact H2|].
    eapply effect_trans; [exact Hf|].
    apply IH; intros x Hx; apply Hincl; right; exact Hx.
Qed.

Lemma file_dirs_effect (rest : list walk_entry) (st : TabState) :
  incl rest entries ->
  effect (file_record_ok fs include_globs exclude_globs max_mb
                         content_filter_on match_name match_content entries)
         st
         (fst (file_dirs fs cancel pause_spins include_globs exclude_globs
                         max_mb content_filter_on match_name match_content
                         rest st)).
Proof.
  revert st; induction rest as [|[[root dirs] files] rest IH];
    intros st Hincl; cbn [file_dirs]; [apply effect_refl|].
  match goal with
  | |- effect ?R _ _ => pose proof (effect_stop_is_set cancel R st) as H1
  end.
  unfold stop_is_set in H1 |- *; cbn [snd] in H1.
  destruct (stop_event st || cancel (stop_reads st)); [exact H1|].
  set (st2 := log_put _ _).
  pose proof (@file_files_effect root dirs files
                (Hincl _ (or_introl eq_refl)) files st2 (incl_refl _)) as Hf.
  assert (H2 : effect (file_record_ok fs include_globs exclude_globs max_mb
                         content_filter_on match_name match_content entries)
                      st st2).
  { eapply effect_trans; [exact H1 | apply effect_log_put]. }
  destruct (file_files fs cancel pause_spins include_globs exclude_globs
              max_mb content_filter_on match_name match_content root files
              st2) as [st3 [|]]; cbn [fst] in Hf |- *.
  - eapply effect_trans; eassumption.
  - eapply effect_trans; [exact H2|].
    eapply effect_trans; [exact Hf|].
    apply IH; intros x Hx; apply Hincl; right; exact Hx.
Qed.

End FileEffect.

(** ** FolderName worker: what it emits *)

Section FolderEffect.

Variable fs : filesystem.
Variable cancel : nat -> bool.
Variable pause_spins : nat -> nat.
Variables include_globs exclude_globs : list str.
Variable max_mb : Q.
Variable skip_hidden : bool.
Variable gitignore_rules : list rule.
Variable content_filter_on : bool.
Variables match_folder match_content : matcher.
Variable entries : list walk_entry.
Variable Q : match_record -> Prop.

Lemma folder_entries_effect (folder : str) (es : list (str * bool)) :
  forall (seen : nat) (st : TabState),
    let out := folder_entries fs cancel pause_spins include_globs
                 exclude_globs max_mb skip_hidden gitignore_rules
                 content_filter_on match_content folder es seen st in
    effect Q st (fst out)
    /\ snd (snd out) <= seen + length (filter (fun e => snd e) es).
Proof.
  induction es as [|e rest IH]; intros seen st; cbv zeta.
  - simpl; split; [apply effect_refl | lia].
  - cbn [folder_entries].
    pose proof (effect_stop_is_set cancel Q st) as H1.
    pose proof (effect_checked cancel pause_spins Q st) as H2.
    unfold stop_is_set in H1, H2 |- *; cbn [snd] in H1, H2.
    destruct (stop_event st || cancel (stop_reads st)).
    { cbn [fst snd]; split; [exact H1 | lia]. }
    set (st2 := pause_loop cancel pause_spins _) in *.
    assert (Hnext : forall n st3,
               effect Q st st3 ->
               n <= seen + (if snd e then 1 else 0) ->
               let out := folder_entries fs cancel pause_spins include_globs
                            exclude_globs max_mb skip_hidden gitignore_rules
                            content_filter_on match_content folder rest n
                            st3 in
               effect Q st (fst out)
               /\ snd (snd out)
                  <= seen + length (filter (fun e0 => snd e0) (e :: rest))).
    { intros n st3 H3 Hn; cbv zeta.
      destruct (IH n st3) as (Ha & Hb); split.
      - eapply effect_trans; eassumption.
      - cbn [filter]; destruct (snd e); simpl in *; lia. }
    destruct (entry_considered fs include_globs exclude_globs skip_hidden
                gitignore_rules folder e) eqn:Hc; cbn [negb];
      [|apply Hnext; [exact H2 | lia]].
    assert (He : snd e = true).
    { unfold entry_considered in Hc; destruct e as [n [|]];
        [reflexivity | discriminate]. }
    destruct (getsize fs (path_join folder (fst e))) as [size|];
      [|apply Hnext; [exact H2 | lia]].
    destruct (over_cap max_mb size); [apply Hnext; [exact H2 | lia]|].
    destruct content_filter_on; cbn [negb];
      [|apply Hnext; [exact H2 | rewrite He; lia]].
    destruct (is_binary_quick fs (path_join folder (fst e)));
      [apply Hnext; [exact H2 | rewrite He; lia]|].
    destruct (read_file fs (path_join folder (fst e))) as [text|];
      [|apply Hnext; [exact H2 | rewrite He; lia]].
    pose proof (effect_content_scan cancel pause_spins Q match_content
                  (readlines text) st2) as Hscan.
    destruct (content_scan cancel pause_spins match_content (readlines text)
                st2) as [st3 [[|]|]]; cbn [fst] in Hscan;
      try (apply Hnext;
           [eapply effect_trans; eassumption | rewrite He; lia]).
    cbn [fst snd]; split; [eapply effect_trans; eassumption|].
    cbn [filter]; rewrite He; simpl; lia.
Qed.

End FolderEffect.

Section FolderRecords.

Variable fs : filesystem.
Variable cancel : nat -> bool.
Variable pause_spins : nat -> nat.
Variables include_globs exclude_globs : list str.
Variable max_mb : Q.
Variable skip_hidden : bool.
Variable gitignore_rules : list rule.
Variable content_filter_on : bool.
Variables match_folder match_content : matcher.
Variable entries : list walk_entry.

Lemma folder_dir_effect (root : str) (dirs files : list str) (dname : str)
    (st : TabState) :
  In (root, dirs, files) entries ->
  In dname (exclude_dirs exclude_globs dirs) ->
  effect (folder_record_ok fs exclude_globs max_mb content_filter_on
                           match_folder entries)
         st
         (fst (folder_dir fs cancel pause_spins include_globs exclude_globs
                          max_mb skip_hidden gitignore_rules content_filter_on
                          match_folder match_content root dname st)).
Proof.
  intros Hentry Hdir; unfold folder_dir.
  destruct (match_folder dname) as [[|]|] eqn:Hname; cbn [fst];
    try apply effect_incr_scanned.
  pose proof (folder_content_matches_result fs cancel pause_spins
                include_globs exclude_globs max_mb skip_hidden
                gitignore_rules content_filter_on match_content
                (path_join root dname) (incr_scanned st)) as (_ & Hscan).
  assert (Heff :
            effect (folder_record_ok fs exclude_globs max_mb content_filter_on
                      match_folder entries)
                   (incr_scanned st)
                   (fst (folder_content_matches fs cancel pause_spins
                           include_globs exclude_globs max_mb skip_hidden
                           gitignore_rules content_filter_on match_content
                           (path_join root dname) (incr_scanned st)))
            /\ match scandir fs (path_join root dname) with
               | Some es =>
                   snd (snd (folder_content_matches fs cancel pause_spins
                               include_globs exclude_globs max_mb skip_hidden
                               gitignore_rules content_filter_on
                               match_content (path_join root dname)
                               (incr_scanned st)))
                   <= length (filter (fun e => snd e) es)
               | None =>
                   snd (snd (folder_content_matches fs cancel pause_spins
                               include_globs exclude_globs max_mb skip_hidden
                               gitignore_rules content_filter_on
                               match_content (path_join root dname)
                               (incr_scanned st))) = 0
               end).
  { unfold folder_content_matches.
    destruct (scandir fs (path_join root dname)) as [es|].
    - apply (folder_entries_effect fs cancel pause_spins include_globs
               exclude_globs max_mb skip_hidden gitignore_rules
               content_filter_on match_content
               (folder_record_ok fs exclude_globs max_mb content_filter_on
                  match_folder entries)
               (path_join root dname) es 0 (incr_scanned st)).
    - split; [apply effect_refl | reflexivity]. }
  destruct Heff as (Heff & Hseen).
  destruct (folder_content_matches fs cancel pause_spins include_globs
              exclude_globs max_mb skip_hidden gitignore_rules
              content_filter_on match_content (path_join root dname)
              (incr_scanned st)) as [st2 [matched seen]];
    cbn [fst snd] in *.
  destruct (content_filter_on && negb matched) eqn:Hskip; cbn [fst].
  - eapply effect_trans; [apply effect_incr_scanned | exact Heff].
  - eapply effect_trans; [apply effect_incr_scanned|].
    eapply effect_trans; [exact Heff|].
    apply effect_emit.
    exists root, dirs, files, dname, seen; repeat split; auto.
    intros Hon; rewrite Hon in Hskip; simpl in Hskip.
    apply negb_false_iff in Hskip; apply Hscan, Hskip.
Qed.

Lemma folder_names_effect (root : str) (dirs files : list str) :
  In (root, dirs, files) entries ->
  forall (rest : list str) (st : TabState),
    incl rest (exclude_dirs exclude_globs dirs) ->
    effect (folder_record_ok fs exclude_globs max_mb content_filter_on
                             match_folder entries)
           st
           (fst (folder_names fs cancel pause_spins include_globs
                   exclude_globs max_mb skip_hidden gitignore_rules
                   content_filter_on match_folder match_content root rest
                   st)).
Proof.
  intros Hentry; induction rest as [|dname rest IH]; intros st Hincl;
    cbn [folder_names]; [apply effect_refl|].
  match goal with
  | |- effect ?R _ _ =>
      pose proof (effect_stop_is_set cancel R st) as H1;
      pose proof (effect_checked cancel pause_spins R st) as H2
  end.
  unfold stop_is_set in H1, H2 |- *; cbn [snd] in H1, H2.
  destruct (stop_event st || cancel (stop_reads st)); [exact H1|].
  set (st2 := pause_loop cancel pause_spins _) in *.
  pose proof (@folder_dir_effect root dirs files dname st2 Hentry
                (Hincl dname (or_introl eq_refl))) as Hf.
  destruct (folder_dir fs cancel pause_spins include_globs exclude_globs
              max_mb skip_hidden gitignore_rules content_filter_on
              match_folder match_content root dname st2) as [st3 [|]];
    cbn [fst] in Hf |- *.
  - eapply effect_trans; eassumption.
  - eapply effect_trans; [exact H2|].
    eapply effect_trans; [exact Hf|].
    apply IH; intros x Hx; apply Hincl; right; exact Hx.
Qed.

Lemma folder_dirs_effect (rest : list walk_entry) (st : TabState) :
  incl rest entries ->
  effect (folder_record_ok fs exclude_globs max_mb content_filter_on
                           match_folder entries)
         st
         (fst (folder_dirs fs cancel pause_spins include_globs exclude_globs
                           max_mb skip_hidden gitignore_rules
                           content_filter_on match_folder match_content
                           rest st)).
Proof.
  revert st; induction rest as [|[[root dirs] files] rest IH];
    intros st Hincl; cbn [folder_dirs]; [apply effect_refl|].
  match goal with
  | |- effect ?R _ _ => pose proof (effect_stop_is_set cancel R st) as H1
  end.
  unfold stop_is_set in H1 |- *; cbn [snd] in H1.
  destruct (stop_event st || cancel (stop_reads st)); [exact H1|].
  set (st2 := log_put _ _).
  pose proof (@folder_names_effect root dirs files
                (Hincl _ (or_introl eq_refl))
                (exclude_dirs exclude_globs dirs) st2 (incl_refl _)) as Hf.
  assert (H2 : effect (folder_record_ok fs exclude_globs max_mb
                         content_filter_on match_folder entries) st st2).
  { eapply effect_trans; [exact H1 | apply effect_log_put]. }
  destruct (folder_names fs cancel pause_spins include_globs exclude_globs
              max_mb skip_hidden gitignore_rules content_filter_on
              match_folder match_content root
              (exclude_dirs exclude_globs dirs) st2) as [st3 [|]];
    cbn [fst] in Hf |- *.
  - eapply effect_trans; eassumption.
  - eapply effect_trans; [exact H2|].
    eapply effect_trans; [exact Hf|].
    apply IH; intros x Hx; apply Hincl; right; exact Hx.
Qed.

End FolderRecords.

(** ** External backend: what it emits *)

Lemma rg_events_effect (cancel : nat -> bool) (pause_spins : nat -> nat)
    (events : list rg_event) :
  forall (rest : list rg_event) (searched : option nat) (st : TabState),
    incl rest events ->
    effect (rg_record_ok events) st
           (fst (rg_events cancel pause_spins rest searched st)).
Proof.
  induction rest as [|ev rest IH]; intros searched st Hincl;
    cbn [rg_events]; [apply effect_refl|].
  pose proof (effect_stop_is_set cancel (rg_record_ok events) st) as H1.
  pose proof (effect_checked cancel pause_spins (rg_record_ok events) st)
    as H2.
  unfold stop_is_set in H1, H2 |- *; cbn [snd] in H1, H2.
  destruct (stop_event st || cancel (stop_reads st)); [exact H1|].
  set (st2 := pause_loop cancel pause_spins _) in *.
  assert (Hrest : incl rest events)
    by (intros x Hx; apply Hincl; right; exact Hx).
  assert (Hev : In ev events) by (apply Hincl; left; reflexivity).
  destruct ev as [[path|] [line_no|] text | n |];
    try (eapply effect_trans; [exact H2 | apply IH; exact Hrest]).
  eapply effect_trans; [exact H2|].
  eapply effect_trans; [|apply IH; exact Hrest].
  apply effect_emit; exists path, line_no, text; auto.
Qed.

(** ** Workers: records, counter and log *)

Lemma in_step_refl (st : TabState) : in_step st st.
Proof. exists [], []; rewrite !app_nil_r; simpl; auto. Qed.

Lemma in_step_trans (a b c : TabState) :
  in_step a b -> in_step b c -> in_step a c.
Proof.
  intros (l1 & m1 & R1 & M1 & L1) (l2 & m2 & R2 & M2 & L2).
  exists (l1 ++ l2), (m1 ++ m2).
  rewrite R2, R1, M2, M1, L2, L1, length_app, !app_assoc.
  repeat split; lia.
Qed.

Lemma effect_in_step (Q : match_record -> Prop) (st st' : TabState) :
  effect Q st st' -> in_step st st'.
Proof.
  intros ((l & R & M & _) & (m & L) & _); exists l, m; auto.
Qed.

Lemma worker_text_in_step (host : host_re)
    (fs : filesystem) (cancel : nat -> bool) (pause_spins : nat -> nat)
    (rg_path : option str) (popen : list str -> option (list rg_event * str))
    (fmt_g : Q -> str) (include_globs exclude_globs : list str) (max_mb : Q)
    (depth_limit : option Z) (skip_hidden respect_gitignore : bool)
    (gitignore_rules : list rule) (use_ripgrep first_match_per_file : bool)
    (pattern : str) (use_regex case whole : bool) (filetype : str)
    (st : TabState) :
  let out := worker_text host fs cancel pause_spins rg_path popen fmt_g
               include_globs exclude_globs max_mb depth_limit skip_hidden
               respect_gitignore gitignore_rules use_ripgrep
               first_match_per_file pattern use_regex case whole filetype st in
  in_step st (fst out)
  /\ if snd out
     then stop_event (fst out) = stop_event st
          /\ result_q (fst out) = result_q st
     else stop_event (fst out) = true.
Proof.
  cbv zeta; unfold worker_text.
  destruct (if use_ripgrep then rg_path else None) as [rg|]; cbn [fst snd].
  - unfold worker_text_ripgrep.
    set (st0 := log_put _ st).
    assert (H0 : in_step st st0)
      by (apply (effect_in_step (Q:=fun _ => True)), effect_log_put).
    destruct (popen _) as [[events err]|].
    + pose proof (@rg_events_effect cancel pause_spins events events None
                    st0 (incl_refl _)) as He.
      destruct (rg_events cancel pause_spins events None st0)
        as [st1 searched]; cbn [fst] in He.
      apply effect_in_step in He.
      split; [|destruct searched, (is_empty err); reflexivity].
      eapply in_step_trans; [exact H0|].
      eapply in_step_trans; [exact He|].
      unfold stop_is_set.
      destruct searched, (is_empty err);
        [exists [], [] | exists [], [err] | exists [], [] | exists [], [err]];
        rewrite ?app_nil_r; simpl; auto.
    + split; [|reflexivity].
      eapply in_step_trans; [exact H0|].
      exists [], [s_ "Failed to start rg: " ++ [c_nl]];
        rewrite ?app_nil_r; simpl; auto.
  - set (st0 := if use_ripgrep then log_put rg_missing_line st else st).
    assert (H0 : in_step st st0).
    { unfold st0; destruct use_ripgrep; [|apply in_step_refl].
      apply (effect_in_step (Q:=fun _ => True)), effect_log_put. }
    destruct (compile_matcher host pattern use_regex case whole)
      as [m|[e| | |]]; cbn [fst snd];
      try (split; [exact H0|];
           unfold st0; destruct use_ripgrep; split; reflexivity).
    + split; [|reflexivity].
      eapply in_step_trans; [exact H0|].
      eapply effect_in_step, effect_trans;
        [|apply (effect_stop_set (fun _ => True))].
      eapply effect_weaken;
        [|apply (@text_dirs_effect fs cancel pause_spins include_globs
                   exclude_globs max_mb first_match_per_file filetype m
                   _ _ st0
                   (incl_refl (walk_with_depth fs depth_limit skip_hidden
                                 gitignore_rules
                                 (exclude_dirs exclude_globs))))].
      auto.
    + split; [|reflexivity].
      eapply in_step_trans; [exact H0|].
      eapply effect_in_step, effect_trans;
        [apply (effect_log_put (fun _ => True))
        |apply (effect_stop_set (fun _ => True))].
Qed.

(** X8. Every record a run of the Content worker on the native path adds
    to the result queue is a line the matcher accepts, taken from a file
    that the traversal yielded, that passed the file-type and glob
    filters, that is readable and not binary; its line number is the
    1-based position of the line in the file and its text is the line
    without the terminator. *)
Theorem content_worker_emits_matching_lines (host : host_re)
    (fs : filesystem) (cancel : nat -> bool) (pause_spins : nat -> nat)
    (popen : list str -> option (list rg_event * str)) (fmt_g : Q -> str)
    (include_globs exclude_globs : list str) (max_mb : Q)
    (depth_limit : option Z) (skip_hidden respect_gitignore : bool)
    (gitignore_rules : list rule) (use_ripgrep first_match_per_file : bool)
    (pattern : str) (use_regex case whole : bool) (filetype : str)
    (st : TabState) :
  exists l,
    result_q (fst (worker_text host fs cancel pause_spins None popen fmt_g
                     include_globs exclude_globs max_mb depth_limit
                     skip_hidden respect_gitignore gitignore_rules
                     use_ripgrep first_match_per_file pattern use_regex case
                     whole filetype st))
    = result_q st ++ l
    /\ Forall
         (fun r =>
            exists m,
              compile_matcher host pattern use_regex case whole = Ok m
              /\ content_record_ok fs include_globs exclude_globs filetype m
                   (walk_with_depth fs depth_limit skip_hidden
                      gitignore_rules (exclude_dirs exclude_globs)) r) l.
Proof.
  unfold worker_text.
  replace (if use_ripgrep then @None str else None) with (@None str)
    by (destruct use_ripgrep; reflexivity).
  set (st0 := if use_ripgrep then log_put rg_missing_line st else st).
  assert (H0 : result_q st0 = result_q st)
    by (unfold st0; destruct use_ripgrep; reflexivity).
  destruct (compile_matcher host pattern use_regex case whole) as [m|e].
  - pose proof (@text_dirs_effect fs cancel pause_spins include_globs
                  exclude_globs max_mb first_match_per_file filetype m
                  _ _ st0
                   (incl_refl (walk_with_depth fs depth_limit skip_hidden
                                 gitignore_rules
                                 (exclude_dirs exclude_globs))))
    as ((l & R & _ & F) & _).
    exists l; simpl; rewrite R, H0; split; [reflexivity|].
    eapply Forall_impl; [|exact F].
    intros r Hr; exists m; auto.
  - destruct e; exists []; simpl; rewrite app_nil_r, H0; auto.
Qed.

(** X9. Every record a run of the FileName worker adds is for a file that
    the traversal yielded, that passed the glob filters and the size cap
    and whose name the name matcher accepts; when the content filter is
    on the file is not binary and holds a line the content matcher
    accepts. *)
Theorem file_worker_emits_matching_files (host : host_re)
    (fs : filesystem) (cancel : nat -> bool) (pause_spins : nat -> nat)
    (include_globs exclude_globs : list str) (max_mb : Q)
    (depth_limit : option Z) (skip_hidden : bool)
    (gitignore_rules : list rule)
    (fname_pat : str) (fname_regex fname_case fname_whole : bool)
    (content_filter_on : bool) (content_pat : str)
    (content_regex content_case content_whole : bool) (st : TabState) :
  exists l,
    result_q (fst (worker_file host fs cancel pause_spins include_globs
                     exclude_globs max_mb depth_limit skip_hidden
                     gitignore_rules fname_pat fname_regex fname_case
                     fname_whole content_filter_on content_pat content_regex
                     content_case content_whole st))
    = result_q st ++ l
    /\ Forall
         (fun r =>
            exists mn mc,
              compile_matcher host fname_pat fname_regex fname_case
                              fname_whole
              = Ok mn
              /\ content_matcher host content_filter_on content_pat
                                 content_regex content_case content_whole
                 = Ok mc
              /\ file_record_ok fs include_globs exclude_globs max_mb
                   content_filter_on mn mc
                   (walk_with_depth fs depth_limit skip_hidden
                      gitignore_rules (exclude_dirs exclude_globs)) r) l.
Proof.
  unfold worker_file.
  destruct (compile_matcher host fname_pat fname_regex fname_case
              fname_whole)
    as [mn|e]; [|destruct e; exists []; simpl; rewrite app_nil_r; auto].
  destruct (content_matcher host content_filter_on content_pat content_regex
              content_case content_whole) as [mc|e];
    [|destruct e; exists []; simpl; rewrite app_nil_r; auto].
  pose proof (@file_dirs_effect fs cancel pause_spins include_globs
                exclude_globs max_mb content_filter_on mn mc
                _ _ st
                   (incl_refl (walk_with_depth fs depth_limit skip_hidden
                                 gitignore_rules
                                 (exclude_dirs exclude_globs))))
    as ((l & R & _ & F) & _).
  exists l; split.
  - destruct (file_dirs _ _ _ _ _ _ _ _ _ _ st) as [st1 [|]]; exact R.
  - eapply Forall_impl; [|exact F].
    intros r Hr; exists mn, mc; auto.
Qed.

(** X10. Every record a run of the FolderName worker adds is for a
    subdirectory that the traversal yielded and the exclude globs left,
    whose name the folder matcher accepts; the count of files it carries
    is at most the number of files directly inside the folder, and with
    the content filter on the folder holds a scannable file. *)
Theorem folder_worker_emits_matching_folders (host : host_re)
    (fs : filesystem) (cancel : nat -> bool) (pause_spins : nat -> nat)
    (include_globs exclude_globs : list str) (max_mb : Q)
    (depth_limit : option Z) (skip_hidden : bool)
    (gitignore_rules : list rule)
    (folder_pat : str) (folder_regex folder_case folder_whole : bool)
    (content_filter_on : bool) (content_pat : str)
    (content_regex content_case content_whole : bool) (st : TabState) :
  exists l,
    result_q (fst (worker_folder host fs cancel pause_spins include_globs
                     exclude_globs max_mb depth_limit skip_hidden
                     gitignore_rules folder_pat folder_regex folder_case
                     folder_whole content_filter_on content_pat content_regex
                     content_case content_whole st))
    = result_q st ++ l
    /\ Forall
         (fun r =>
            exists mf,
              compile_matcher host folder_pat folder_regex folder_case
                              folder_whole = Ok mf
              /\ folder_record_ok fs exclude_globs max_mb content_filter_on
                   mf
                   (walk_with_depth fs depth_limit skip_hidden
                      gitignore_rules (exclude_dirs exclude_globs)) r) l.
Proof.
  unfold worker_folder.
  destruct (compile_matcher host folder_pat folder_regex folder_case
              folder_whole)
    as [mf|e]; [|destruct e; exists []; simpl; rewrite app_nil_r; auto].
  destruct (content_matcher host content_filter_on content_pat content_regex
              content_case content_whole) as [mc|e];
    [|destruct e; exists []; simpl; rewrite app_nil_r; auto].
  pose proof (@folder_dirs_effect fs cancel pause_spins include_globs
                exclude_globs max_mb skip_hidden gitignore_rules
                content_filter_on mf mc _ _ st
                   (incl_refl (walk_with_depth fs depth_limit skip_hidden
                                 gitignore_rules
                                 (exclude_dirs exclude_globs))))
    as ((l & R & _ & F) & _).
  exists l; split.
  - destruct (folder_dirs _ _ _ _ _ _ _ _ _ _ _ _ st) as [st1 [|]]; exact R.
  - eapply Forall_impl; [|exact F].
    intros r Hr; exists mf; auto.
Qed.

Lemma compile_matcher_total (host : host_re) (pattern : str)
    (use_regex case whole : bool) (m : matcher) :
  compile_matcher host pattern use_regex case whole = Ok m -> total m.
Proof.
  unfold compile_matcher; destruct use_regex.
  - destruct (re_compile _ _) as [pat|e]; simpl; [|discriminate].
    intros [= <-] line; discriminate.
  - intros [= <-] line; destruct whole; [|discriminate].
    rewrite re_search_word_wrapped; discriminate.
Qed.

Lemma spawn_worker_in_step (host : host_re)
    (fs : filesystem) (cancel : nat -> bool) (pause_spins : nat -> nat)
    (rg_path : option str) (popen : list str -> option (list rg_event * str))
    (fmt_g : Q -> str) (rq : SearchRequest) (st : TabState) :
  let out :=
    spawn_worker host fs cancel pause_spins rg_path popen fmt_g rq st in
  in_step st (fst out)
  /\ if snd out
     then stop_event (fst out) = stop_event st
          /\ result_q (fst out) = result_q st
     else stop_event (fst out) = true.
Proof.
  cbv zeta; unfold spawn_worker.
  destruct (rq_mode rq).
  - apply worker_text_in_step.
  - unfold worker_file.
    destruct (compile_matcher host _ _ _ _) as [mn|[e| | |]] eqn:Hn;
      cbn [fst snd];
      try (split; [apply in_step_refl | split; reflexivity]).
    2:{ split; [|reflexivity].
        eapply effect_in_step, effect_trans;
          [apply (effect_log_put (fun _ => True))
          |apply (effect_stop_set (fun _ => True))]. }
    destruct (content_matcher host _ _ _ _ _) as [mc|[e| | |]];
      cbn [fst snd];
      try (split; [apply in_step_refl | split; reflexivity]).
    2:{ split; [|reflexivity].
        eapply effect_in_step, effect_trans;
          [apply (effect_log_put (fun _ => True))
          |apply (effect_stop_set (fun _ => True))]. }
    match goal with
    | |- context [file_dirs _ _ _ ?a ?b ?c ?d mn mc ?en st] =>
        pose proof (@file_dirs_effect fs cancel pause_spins a b c d mn mc
                      en en st (incl_refl en)) as He;
        pose proof (@file_dirs_no_escape fs cancel pause_spins a b c d mn mc
                      en st (compile_matcher_total _ _ _ _ _ Hn)) as Hs;
        destruct (file_dirs fs cancel pause_spins a b c d mn mc en st)
          as [st1 [|]]
    end; cbn [fst snd] in *; [discriminate Hs|].
    split; [|reflexivity].
    eapply effect_in_step, effect_trans; [exact He|].
    apply effect_stop_set.
  - unfold worker_folder.
    destruct (compile_matcher host _ _ _ _) as [mf|[e| | |]] eqn:Hf;
      cbn [fst snd];
      try (split; [apply in_step_refl | split; reflexivity]).
    2:{ split; [|reflexivity].
        eapply effect_in_step, effect_trans;
          [apply (effect_log_put (fun _ => True))
          |apply (effect_stop_set (fun _ => True))]. }
    destruct (content_matcher host _ _ _ _ _) as [mc|[e| | |]];
      cbn [fst snd];
      try (split; [apply in_step_refl | split; reflexivity]).
    2:{ split; [|reflexivity].
        eapply effect_in_step, effect_trans;
          [apply (effect_log_put (fun _ => True))
          |apply (effect_stop_set (fun _ => True))]. }
    match goal with
    | |- context [folder_dirs _ _ _ ?a ?b ?c ?d ?e ?f mf mc ?en st] =>
        pose proof (@folder_dirs_effect fs cancel pause_spins a b c d e f
                      mf mc en en st (incl_refl en)) as He;
        pose proof (@folder_dirs_no_escape fs cancel pause_spins a b c d e f
                      mf mc en st (compile_matcher_total _ _ _ _ _ Hf)) as Hs;
        destruct (folder_dirs fs cancel pause_spins a b c d e f mf mc en st)
          as [st1 [|]]
    end; cbn [fst snd] in *; [discriminate Hs|].
    split; [|reflexivity].
    eapply effect_in_step, effect_trans; [exact He|].
    apply effect_stop_set.
Qed.

(** An exception escapes the worker exactly when the run is native and
    the set-up meets, before any [re.error], an exception of
    [re.compile] that is not one. *)
Lemma spawn_worker_escapes (host : host_re)
    (fs : filesystem) (cancel : nat -> bool) (pause_spins : nat -> nat)
    (rg_path : option str) (popen : list str -> option (list rg_event * str))
    (fmt_g : Q -> str) (rq : SearchRequest) (st : TabState) :
  snd (spawn_worker host fs cancel pause_spins rg_path popen fmt_g rq st)
  = negb (uses_external rg_path rq) && setup_escapes host rq.
Proof.
  destruct (uses_external rg_path rq) eqn:Hext.
  - unfold uses_external in Hext; unfold spawn_worker.
    destruct (rq_mode rq); try discriminate.
    destruct rg_path as [rg|]; [|discriminate].
    unfold worker_text; rewrite Hext; reflexivity.
  - cbn [negb andb]; unfold setup_escapes.
    destruct (first_failure host rq) as [[is_content e]|] eqn:Hfirst.
    { rewrite (@failed_setup_run host fs cancel pause_spins rg_path popen
                 fmt_g rq is_content e st Hext Hfirst).
      destruct e; reflexivity. }
    unfold first_failure in Hfirst.
    destruct (spec_failure host (rq_primary rq)) eqn:Hp; [discriminate|].
    apply spec_valid_compile in Hp as (m & Hp).
    assert (Hcontent :
              rq_mode rq <> TextMode ->
              exists mc,
                content_matcher host (rq_content_filter_on rq)
                  (ps_pattern (rq_content rq)) (ps_regex (rq_content rq))
                  (ps_case (rq_content rq)) (ps_whole (rq_content rq))
                = Ok mc).
    { intros Hmode; unfold content_matcher.
      destruct (rq_mode rq); [elim Hmode; reflexivity| |];
        (destruct (rq_content_filter_on rq); [|eexists; reflexivity];
         destruct (spec_failure host (rq_content rq)) eqn:Hc;
         [discriminate|]; exact (spec_valid_compile _ _ Hc)). }
    unfold uses_external in Hext; unfold spawn_worker.
    destruct (rq_mode rq).
    + unfold worker_text.
      replace (if rq_use_ripgrep rq then rg_path else None)
        with (@None str)
        by (destruct (rq_use_ripgrep rq), rg_path; congruence).
      rewrite Hp; reflexivity.
    + destruct Hcontent as (mc & Hc); [discriminate|].
      unfold worker_file; rewrite Hp, Hc.
      match goal with
      | |- context [file_dirs _ _ _ ?a ?b ?c ?d m mc ?en st] =>
          pose proof (@file_dirs_no_escape fs cancel pause_spins a b c d m mc
                        en st (compile_matcher_total _ _ _ _ _ Hp)) as Hs;
          destruct (file_dirs fs cancel pause_spins a b c d m mc en st)
            as [st1 [|]]
      end; cbn [fst snd] in *; [discriminate Hs | reflexivity].
    + destruct Hcontent as (mc & Hc); [discriminate|].
      unfold worker_folder; rewrite Hp, Hc.
      match goal with
      | |- context [folder_dirs _ _ _ ?a ?b ?c ?d ?e ?f m mc ?en st] =>
          pose proof (@folder_dirs_no_escape fs cancel pause_spins a b c d e
                        f m mc en st (compile_matcher_total _ _ _ _ _ Hp))
            as Hs;
          destruct (folder_dirs fs cancel pause_spins a b c d e f m mc en st)
            as [st1 [|]]
      end; cbn [fst snd] in *; [discriminate Hs | reflexivity].
Qed.

(** X11. In every run of a worker, in all three modes and on either
    backend, the result queue and the log are only appended to and the
    match counter advances by exactly the number of records added.  An
    exception escapes the worker exactly when the run is native and the
    first spec on which [re.compile] raises makes it raise something
    other than [re.error] (a repeat count of [MAXREPEAT], say): the stop
    flag and the result queue are then as they were.  Every other run
    ends with the stop flag set; the matchers the set-up builds never
    raise. *)
Theorem workers_count_what_they_emit (host : host_re)
    (fs : filesystem) (cancel : nat -> bool) (pause_spins : nat -> nat)
    (rg_path : option str) (popen : list str -> option (list rg_event * str))
    (fmt_g : Q -> str) (rq : SearchRequest) (st : TabState) :
  let out :=
    spawn_worker host fs cancel pause_spins rg_path popen fmt_g rq st in
  in_step st (fst out)
  /\ snd out = negb (uses_external rg_path rq) && setup_escapes host rq
  /\ if snd out
     then stop_event (fst out) = stop_event st
          /\ result_q (fst out) = result_q st
     else stop_event (fst out) = true.
Proof.
  cbv zeta.
  pose proof (spawn_worker_in_step host fs cancel pause_spins rg_path popen
                fmt_g rq st) as (Hstep & Hend).
  split; [exact Hstep|].
  split; [apply spawn_worker_escapes | exact Hend].
Qed.

(** ** A run whose stop flag is already set *)

Section Stopped.

Variable host : host_re.
Variable fs : filesystem.
Variable cancel : nat -> bool.
Variable pause_spins : nat -> nat.

Lemma text_dirs_stopped include_globs exclude_globs max_mb first_match
    filetype (m : matcher) (entries : list walk_entry) (st : TabState) :
  stop_event st = true ->
  untouched st (text_dirs fs cancel pause_spins include_globs exclude_globs
                          max_mb first_match filetype m entries st).
Proof.
  intros H; destruct entries as [|[[root dirs] files] rest];
    cbn [text_dirs]; unfold stop_is_set; rewrite ?H;
    repeat split; reflexivity.
Qed.

Lemma file_dirs_stopped include_globs exclude_globs max_mb content_filter_on
    (mn mc : matcher) (entries : list walk_entry) (st : TabState) :
  stop_event st = true ->
  untouched st (fst (file_dirs fs cancel pause_spins include_globs
                               exclude_globs max_mb content_filter_on mn mc
                               entries st))
  /\ snd (file_dirs fs cancel pause_spins include_globs exclude_globs max_mb
                    content_filter_on mn mc entries st) = false.
Proof.
  intros H; destruct entries as [|[[root dirs] files] rest];
    cbn [file_dirs]; unfold stop_is_set; rewrite ?H;
    repeat split; reflexivity.
Qed.

Lemma folder_dirs_stopped include_globs exclude_globs max_mb skip_hidden
    gitignore_rules content_filter_on (mf mc : matcher)
    (entries : list walk_entry) (st : TabState) :
  stop_event st = true ->
  untouched st (fst (folder_dirs fs cancel pause_spins include_globs
                                 exclude_globs max_mb skip_hidden
                                 gitignore_rules content_filter_on mf mc
                                 entries st))
  /\ snd (folder_dirs fs cancel pause_spins include_globs exclude_globs
                      max_mb skip_hidden gitignore_rules content_filter_on
                      mf mc entries st) = false.
Proof.
  intros H; destruct entries as [|[[root dirs] files] rest];
    cbn [folder_dirs]; unfold stop_is_set; rewrite ?H;
    repeat split; reflexivity.
Qed.

Lemma rg_events_stopped (events : list rg_event) (searched : option nat)
    (st : TabState) :
  stop_event st = true ->
  untouched st (fst (rg_events cancel pause_spins events searched st))
  /\ snd (rg_events cancel pause_spins events searched st) = searched.
Proof.
  intros H; destruct events as [|ev rest];
    cbn [rg_events]; unfold stop_is_set; rewrite ?H;
    repeat split; reflexivity.
Qed.

End Stopped.

(** X12. A worker started on a state whose stop flag is already set adds
    no record and leaves the file counter and the match counter as they
    are, in all three modes and on either backend. *)
Theorem stopped_run_emits_nothing (host : host_re)
    (fs : filesystem) (cancel : nat -> bool) (pause_spins : nat -> nat)
    (rg_path : option str) (popen : list str -> option (list rg_event * str))
    (fmt_g : Q -> str) (rq : SearchRequest) (st : TabState) :
  stop_event st = true ->
  untouched st (fst (spawn_worker host fs cancel pause_spins rg_path popen
                                  fmt_g rq st)).
Proof.
  intros H; unfold spawn_worker.
  destruct (rq_mode rq); cbn [fst].
  - unfold worker_text.
    destruct (if rq_use_ripgrep rq then rg_path else None) as [rg|].
    + unfold worker_text_ripgrep.
      destruct (popen _) as [[events err]|];
        [|repeat split; reflexivity].
      match goal with
      | |- context [rg_events _ _ events None ?s] =>
          destruct (@rg_events_stopped cancel pause_spins events None s)
            as [(R & F & M) E];
          [destruct (rq_use_ripgrep rq); exact H|];
          destruct (rg_events cancel pause_spins events None s)
            as [st1 searched]
      end.
      cbn [fst snd] in R, F, M, E; subst searched.
      unfold untouched; unfold stop_is_set.
      destruct (is_empty err); simpl; rewrite R, F, M; auto.
    + destruct (compile_matcher host _ _ _ _) as [m|e].
      * match goal with
        | |- context [text_dirs _ _ _ ?a ?b ?c ?d ?e m ?en ?s] =>
            destruct (@text_dirs_stopped fs cancel pause_spins a b c d e m
                        en s) as (R & F & M);
            [destruct (rq_use_ripgrep rq); exact H|]
        end.
        unfold untouched; simpl; rewrite R, F, M.
        destruct (rq_use_ripgrep rq); auto.
      * unfold untouched; destruct e, (rq_use_ripgrep rq); simpl; auto.
  - unfold worker_file.
    destruct (compile_matcher host _ _ _ _) as [mn|e];
      [|destruct e; repeat split; reflexivity].
    destruct (content_matcher host _ _ _ _ _) as [mc|e];
      [|destruct e; repeat split; reflexivity].
    match goal with
    | |- context [file_dirs _ _ _ ?a ?b ?c ?d mn mc ?en st] =>
        destruct (@file_dirs_stopped fs cancel pause_spins a b c d mn mc
                    en st H) as [U E];
        destruct (file_dirs fs cancel pause_spins a b c d mn mc en st)
          as [st1 [|]]
    end; [discriminate E|exact U].
  - unfold worker_folder.
    destruct (compile_matcher host _ _ _ _) as [mf|e];
      [|destruct e; repeat split; reflexivity].
    destruct (content_matcher host _ _ _ _ _) as [mc|e];
      [|destruct e; repeat split; reflexivity].
    match goal with
    | |- context [folder_dirs _ _ _ ?a ?b ?c ?d ?e ?f mf mc ?en st] =>
        destruct (@folder_dirs_stopped fs cancel pause_spins a b c d e f mf
                    mc en st H) as [U E];
        destruct (folder_dirs fs cancel pause_spins a b c d e f mf mc en st)
          as [st1 [|]]
    end; [discriminate E|exact U].
Qed.

Lemma stopped_run_emits_nothing_witness :
  stop_event (stop_set new_run) = true
  /\ untouched (stop_set new_run)
       (fst (spawn_worker no_host demo_fs never_cancel never_pause None
                          no_process fmt_zero unused_content_request
                          (stop_set new_run))).
Proof.
  split; [reflexivity|].
  apply (@stopped_run_emits_nothing no_host demo_fs never_cancel never_pause
           None no_process fmt_zero unused_content_request
           (stop_set new_run)).
  reflexivity.
Defined.

(** ** Stopping truncates the results *)

Transparent pause_loop.

Section Prefix.

Variable cancel : nat -> bool.
Variable pause_spins : nat -> nat.

Lemma emits_refl (st : TabState) : emits cancel [] 0 st st.
Proof. unfold emits; rewrite app_nil_r, Nat.add_0_r; auto. Qed.

Lemma emits_trans (l1 l2 : list match_record) (n1 n2 : nat)
    (a b c : TabState) :
  emits cancel l1 n1 a b -> emits cancel l2 n2 b c ->
  emits cancel (l1 ++ l2) (n1 + n2) a c.
Proof.
  intros (R1 & F1 & M1 & C1) (R2 & F2 & M2 & C2).
  unfold emits; rewrite R2, R1, F2, F1, app_assoc.
  repeat split; auto; lia.
Qed.

Lemma emits_stop_is_set (st : TabState) :
  emits cancel [] 0 st (snd (stop_is_set cancel st)).
Proof.
  unfold emits, stop_is_set; cbn [snd stop_event result_q files_scanned].
  rewrite app_nil_r, Nat.add_0_r; repeat split.
  - intros ->; reflexivity.
  - intros Hc ->; rewrite Hc; reflexivity.
Qed.

Lemma emits_spin (n : nat) (st : TabState) :
  emits cancel [] 0 st (spin cancel n st).
Proof.
  revert st; induction n as [|n IH]; intros st; cbn [spin];
    [apply emits_refl|].
  pose proof (emits_stop_is_set st) as H.
  unfold stop_is_set in *; cbn [snd] in H.
  destruct (stop_event st || cancel (stop_reads st)); [exact H|].
  exact (emits_trans H (IH _)).
Qed.

Lemma emits_pause_loop (st : TabState) :
  emits cancel [] 0 st (pause_loop cancel pause_spins st).
Proof.
  destruct (emits_spin (pause_spins (pause_waits st)) st)
    as (R & F & M & C).
  unfold emits, pause_loop; cbn [stop_event result_q files_scanned]; auto.
Qed.

Lemma emits_checked (st : TabState) :
  emits cancel [] 0 st
        (pause_loop cancel pause_spins (snd (stop_is_set cancel st))).
Proof.
  exact (emits_trans (emits_stop_is_set st) (emits_pause_loop _)).
Qed.

Lemma emits_log_put (msg : str) (st : TabState) :
  emits cancel [] 0 st (log_put msg st).
Proof.
  unfold emits, log_put; cbn [stop_event result_q files_scanned].
  rewrite app_nil_r, Nat.add_0_r; auto.
Qed.

Lemma emits_incr_scanned (st : TabState) :
  emits cancel [] 1 st (incr_scanned st).
Proof.
  unfold emits, incr_scanned, set_files_scanned;
    cbn [stop_event result_q files_scanned].
  rewrite app_nil_r; repeat split; auto; lia.
Qed.

Lemma emits_put (r : match_record) (st : TabState) :
  emits cancel [r] 0 st (result_put r (incr_matches st)).
Proof.
  unfold emits, result_put, incr_matches;
    cbn [stop_event result_q files_scanned].
  rewrite Nat.add_0_r; auto.
Qed.

Lemma prefix_nil (n : nat) (a b : TabState) :
  emits cancel [] n a b -> emits_prefix_of cancel [] n a b.
Proof.
  intros (R & F & M & C); exists [], [].
  split; [exact R|]; split; [reflexivity|].
  split; [reflexivity|]; split; [|split]; auto.
Qed.

Lemma prefix_all (l : list match_record) (n : nat) (a b : TabState) :
  stop_event a = false ->
  emits cancel l n a b -> emits_prefix_of cancel l n a b.
Proof.
  intros Ha (R & F & M & C); exists l, []; rewrite app_nil_r.
  split; [exact R|]; split; [reflexivity|].
  split; [|split; [|split]]; auto.
  intros Hc; rewrite Hc in Ha; discriminate.
Qed.

Lemma prefix_at_stop (full : list match_record) (n : nat) (st : TabState) :
  fst (stop_is_set cancel st) = true ->
  emits_prefix_of cancel full n st (snd (stop_is_set cancel st)).
Proof.
  unfold stop_is_set; cbn [fst snd]; intros H.
  exists [], full; cbn [stop_event result_q files_scanned].
  rewrite app_nil_r, H.
  split; [reflexivity|]; split; [reflexivity|].
  split; [reflexivity|]; split; [discriminate|]; split; [reflexivity|].
  intros Hc Hs; rewrite Hs, Hc in H; discriminate.
Qed.

Lemma prefix_seq (s1 s2 : list match_record) (n1 n2 : nat)
    (a b c : TabState) :
  emits_prefix_of cancel s1 n1 a b -> emits_prefix_of cancel s2 n2 b c ->
  emits_prefix_of cancel (s1 ++ s2) (n1 + n2) a c.
Proof.
  intros (l1 & t1 & R1 & E1 & G1 & D1 & M1 & C1)
         (l2 & t2 & R2 & E2 & G2 & D2 & M2 & C2).
  destruct (stop_event b) eqn:Hb.
  - rewrite (G2 eq_refl), app_nil_r in R2.
    exists l1, (t1 ++ s2); rewrite R2, R1, E1, app_assoc.
    split; [reflexivity|]; split; [reflexivity|].
    split; [exact G1|]; split; [|split].
    + intros Hc; rewrite (M2 eq_refl) in Hc; discriminate.
    + intros _; apply M2; reflexivity.
    + intros Hk Ha; discriminate (C1 Hk Ha).
  - destruct (D1 eq_refl) as [-> F1]; rewrite app_nil_r in E1; subst s1.
    exists (l1 ++ l2), t2; rewrite R2, R1, E2, !app_assoc.
    split; [reflexivity|]; split; [reflexivity|].
    split; [|split; [|split]].
    + intros Ha; discriminate (M1 Ha).
    + intros Hc; destruct (D2 Hc) as [-> F2]; split; [reflexivity|].
      rewrite F2, F1; lia.
    + intros Ha; discriminate (M1 Ha).
    + intros Hk Ha; apply C2; [exact Hk | reflexivity].
Qed.

Lemma emits_then_prefix (l1 s2 : list match_record) (n1 n2 : nat)
    (a b c : TabState) :
  stop_event a = false ->
  emits cancel l1 n1 a b -> emits_prefix_of cancel s2 n2 b c ->
  emits_prefix_of cancel (l1 ++ s2) (n1 + n2) a c.
Proof.
  intros Ha (R1 & F1 & M1 & C1) (l2 & t2 & R2 & E2 & G2 & D2 & M2 & C2).
  exists (l1 ++ l2), t2; rewrite R2, R1, E2, !app_assoc.
  split; [reflexivity|]; split; [reflexivity|].
  split; [|split; [|split]].
  - intros Hc; rewrite Hc in Ha; discriminate.
  - intros Hc; destruct (D2 Hc) as [-> F2]; split; [reflexivity|].
    rewrite F2, F1; lia.
  - intros Hc; rewrite Hc in Ha; discriminate.
  - intros Hk _; apply C2; [exact Hk | apply C1; assumption].
Qed.

Lemma prefix_eq (s s' : list match_record) (n n' : nat) (a b : TabState) :
  s = s' -> n = n' ->
  emits_prefix_of cancel s n a b -> emits_prefix_of cancel s' n' a b.
Proof. intros -> ->; auto. Qed.

End Prefix.

Opaque pause_loop.

Lemma numbered_from_cons (i : nat) (line : str) (rest : list str) :
  numbered_from i (line :: rest) = (i, line) :: numbered_from (S i) rest.
Proof. reflexivity. Qed.

Section TextPrefix.

Variable fs : filesystem.
Variable cancel : nat -> bool.
Variable pause_spins : nat -> nat.
Variables include_globs exclude_globs : list str.
Variable max_mb : Q.
Variable first_match_per_file : bool.
Variable filetype : str.
Variable is_match : matcher.
Hypothesis is_match_total : total is_match.

Lemma scan_lines_prefix (fpath : str) :
  forall (lines : list str) (i : nat) (matched : bool) (st : TabState),
    emits_prefix_of cancel
      (first_only first_match_per_file
         (map (fun p : nat * str =>
                 ContentRecord fpath (fst p) (rstrip_nl (snd p)))
              (filter (fun p : nat * str => accepts is_match (snd p))
                      (numbered_from i lines))))
      0 st
      (fst (scan_lines cancel pause_spins first_match_per_file is_match
                       fpath i lines matched st)).
Proof.
  induction lines as [|line rest IH]; intros i matched st.
  - cbn [scan_lines fst].
    apply prefix_eq with (s := []) (n := 0);
      [destruct first_match_per_file; reflexivity | reflexivity|].
    apply prefix_nil, emits_refl.
  - cbn [scan_lines].
    match goal with
    | |- emits_prefix_of _ ?full ?n _ _ =>
        pose proof (@prefix_at_stop cancel full n st) as Hstop
    end.
    pose proof (emits_checked cancel pause_spins st) as Hchk.
    unfold stop_is_set in Hstop, Hchk |- *; cbn [fst snd] in Hstop, Hchk.
    destruct (stop_event st || cancel (stop_reads st)) eqn:E;
      [exact (Hstop eq_refl)|].
    apply orb_false_iff in E; destruct E as [Hs _].
    set (st2 := pause_loop cancel pause_spins _) in *.
    rewrite numbered_from_cons; cbn [filter snd]; unfold accepts at 1.
    destruct (is_match line) as [[|]|] eqn:Em;
      [| |elim (is_match_total Em)].
    + cbn [map fst snd].
      set (r := ContentRecord fpath i (rstrip_nl line)).
      assert (He : emits cancel [r] 0 st (result_put r (incr_matches st2))).
      { exact (emits_trans Hchk (emits_put cancel r st2)). }
      destruct first_match_per_file eqn:Ef; cbn [first_only fst].
      * cbn [firstn]; apply prefix_all; assumption.
      * specialize (IH (S i) true (result_put r (incr_matches st2))).
        cbn [first_only] in IH.
        exact (emits_then_prefix Hs He IH).
    + specialize (IH (S i) matched st2).
      exact (emits_then_prefix Hs Hchk IH).
Qed.

Lemma text_file_prefix (root fname : str) (st : TabState) :
  emits_prefix_of cancel
    (file_matches fs include_globs exclude_globs max_mb first_match_per_file
                  filetype is_match root fname)
    (if text_counted fs include_globs exclude_globs max_mb filetype root
                     fname then 1 else 0)
    st
    (text_file fs cancel pause_spins include_globs exclude_globs max_mb
               first_match_per_file filetype is_match root fname st).
Proof.
  unfold text_file, file_matches, text_counted, size_capped.
  destruct (str_eqb filetype "All"), (endswith filetype fname);
    cbn [negb andb orb];
    try (apply prefix_nil, emits_refl);
    (destruct (glob_rejected include_globs exclude_globs fname);
     cbn [negb andb]; [apply prefix_nil, emits_refl|]);
    (match goal with
     | |- context [if ?c then ?x else false] =>
         destruct (if c then x else false) eqn:Hcap
     end; cbn [negb andb]; [apply prefix_nil, emits_refl|]);
    (destruct (is_binary_quick fs (path_join root fname));
     cbn [negb]; [apply prefix_nil, emits_incr_scanned|]);
    (destruct (read_file fs (path_join root fname)) as [text|];
     [|apply prefix_nil, emits_incr_scanned]);
    apply (prefix_seq (prefix_nil (emits_incr_scanned cancel st))
                      (scan_lines_prefix (path_join root fname)
                         (readlines text) 1 false (incr_scanned st))).
Qed.

Lemma text_files_prefix (root : str) :
  forall (files : list str) (st : TabState),
    emits_prefix_of cancel
      (flat_map (file_matches fs include_globs exclude_globs max_mb
                   first_match_per_file filetype is_match root) files)
      (length (filter (text_counted fs include_globs exclude_globs max_mb
                         filetype root) files))
      st
      (text_files fs cancel pause_spins include_globs exclude_globs max_mb
                  first_match_per_file filetype is_match root files st).
Proof.
  induction files as [|fname rest IH]; intros st; cbn [text_files].
  - apply prefix_nil, emits_refl.
  - match goal with
    | |- emits_prefix_of _ ?full ?n _ _ =>
        pose proof (@prefix_at_stop cancel full n st) as Hstop
    end.
    pose proof (emits_checked cancel pause_spins st) as Hchk.
    unfold stop_is_set in Hstop, Hchk |- *; cbn [fst snd] in Hstop, Hchk.
    destruct (stop_event st || cancel (stop_reads st)) eqn:E;
      [exact (Hstop eq_refl)|].
    apply orb_false_iff in E; destruct E as [Hs _].
    set (st2 := pause_loop cancel pause_spins _) in *.
    eapply prefix_eq;
      [| |exact (emits_then_prefix Hs Hchk
                   (prefix_seq (text_file_prefix root fname st2)
                               (IH _)))].
    + reflexivity.
    + cbn [filter].
      destruct (text_counted _ _ _ _ _ _ _); reflexivity.
Qed.

Lemma text_dirs_prefix :
  forall (entries : list walk_entry) (st : TabState),
    emits_prefix_of cancel
      (content_matches fs include_globs exclude_globs max_mb
                       first_match_per_file filetype is_match entries)
      (content_counted fs include_globs exclude_globs max_mb filetype
                       entries)
      st
      (text_dirs fs cancel pause_spins include_globs exclude_globs max_mb
                 first_match_per_file filetype is_match entries st).
Proof.
  induction entries as [|[[root dirs] files] rest IH]; intros st;
    cbn [text_dirs].
  - apply prefix_nil, emits_refl.
  - match goal with
    | |- emits_prefix_of _ ?full ?n _ _ =>
        pose proof (@prefix_at_stop cancel full n st) as Hstop
    end.
    pose proof (emits_stop_is_set cancel st) as Hchk.
    unfold stop_is_set in Hstop, Hchk |- *; cbn [fst snd] in Hstop, Hchk.
    destruct (stop_event st || cancel (stop_reads st)) eqn:E;
      [exact (Hstop eq_refl)|].
    apply orb_false_iff in E; destruct E as [Hs _].
    match goal with
    | |- context [log_put ?msg ?s] =>
        pose proof (emits_trans Hchk (emits_log_put cancel msg s)) as Hlog;
        set (st2 := log_put msg s) in *
    end.
    eapply prefix_eq;
      [| |exact (emits_then_prefix Hs Hlog
                   (prefix_seq (text_files_prefix root files st2)
                               (IH _)))].
    + reflexivity.
    + unfold content_counted; cbn [flat_map fst snd].
      rewrite length_app; reflexivity.
Qed.

End TextPrefix.

(** X13. Stopping truncates the results of the Content worker and never
    alters them: on the native path the records a run adds are a prefix
    of the records of all matching lines of all counted, readable,
    non-binary files in traversal order.  A run that nobody stops adds
    all of them and advances the file counter by the number of files
    that pass the file type, the globs and the size check. *)
Theorem content_worker_results (host : host_re)
    (fs : filesystem) (cancel : nat -> bool) (pause_spins : nat -> nat)
    (popen : list str -> option (list rg_event * str)) (fmt_g : Q -> str)
    (include_globs exclude_globs : list str) (max_mb : Q)
    (depth_limit : option Z) (skip_hidden respect_gitignore : bool)
    (gitignore_rules : list rule) (use_ripgrep first_match_per_file : bool)
    (pattern : str) (use_regex case whole : bool) (filetype : str)
    (m : matcher) (st : TabState) :
  compile_matcher host pattern use_regex case whole = Ok m ->
  let entries := walk_with_depth fs depth_limit skip_hidden gitignore_rules
                                 (exclude_dirs exclude_globs) in
  let st' := fst (worker_text host fs cancel pause_spins None popen fmt_g
                    include_globs exclude_globs max_mb depth_limit
                    skip_hidden respect_gitignore gitignore_rules
                    use_ripgrep first_match_per_file pattern use_regex case
                    whole filetype st) in
  exists l t,
    result_q st' = result_q st ++ l
    /\ content_matches fs include_globs exclude_globs max_mb
                       first_match_per_file filetype m entries = l ++ t
    /\ ((forall k, cancel k = false) -> stop_event st = false ->
        t = []
        /\ files_scanned st'
           = files_scanned st
             + content_counted fs include_globs exclude_globs max_mb
                               filetype entries).
Proof.
  intros Hm; cbv zeta; unfold worker_text.
  replace (if use_ripgrep then @None str else None) with (@None str)
    by (destruct use_ripgrep; reflexivity).
  rewrite Hm.
  set (st0 := if use_ripgrep then log_put rg_missing_line st else st).
  assert (H0 : result_q st0 = result_q st
               /\ files_scanned st0 = files_scanned st
               /\ stop_event st0 = stop_event st)
    by (unfold st0; destruct use_ripgrep; auto).
  destruct H0 as (R0 & F0 & S0).
  destruct (@text_dirs_prefix fs cancel pause_spins include_globs
              exclude_globs max_mb first_match_per_file filetype m
              (compile_matcher_total _ _ _ _ _ Hm)
              (walk_with_depth fs depth_limit skip_hidden gitignore_rules
                               (exclude_dirs exclude_globs)) st0)
    as (l & t & R & E & _ & D & _ & C).
  exists l, t; cbn [fst stop_set result_q files_scanned].
  rewrite R, R0, <- F0; split; [reflexivity|]; split; [exact E|].
  intros Hk Hs; apply D, C; [exact Hk | congruence].
Qed.

Lemma content_worker_results_witness :
  exists l,
    result_q (fst (worker_text no_host demo_fs never_cancel never_pause None
                     no_process fmt_zero [] [] 0%Q None false false []
                     false false (s_ "hello") false true false (s_ "All")
                     new_run))
    = result_q new_run ++ l
    /\ content_matches demo_fs [] [] 0%Q false (s_ "All")
         (fun line => Some (contains (s_ "hello") line))
         (walk_with_depth demo_fs None false [] (exclude_dirs [])) = l.
Proof.
  destruct (@content_worker_results no_host demo_fs never_cancel never_pause
              no_process fmt_zero [] [] 0%Q None false false [] false false
              (s_ "hello") false true false (s_ "All")
              (fun line => Some (contains (s_ "hello") line)) new_run
              eq_refl) as (l & t & R & E & H).
  destruct (H (fun _ => eq_refl) eq_refl) as [Ht _].
  exists l; split; [exact R|].
  rewrite E, Ht, app_nil_r; reflexivity.
Defined.

(** ** External backend: stopping truncates the results *)

Section RgPrefix.

Variable cancel : nat -> bool.
Variable pause_spins : nat -> nat.

Lemma rg_events_prefix :
  forall (events : list rg_event) (searched : option nat) (st : TabState),
    emits_prefix_of cancel (rg_records events) 0 st
      (fst (rg_events cancel pause_spins events searched st)).
Proof.
  induction events as [|ev rest IH]; intros searched st; cbn [rg_events].
  - apply prefix_nil, emits_refl.
  - match goal with
    | |- emits_prefix_of _ ?full ?n _ _ =>
        pose proof (@prefix_at_stop cancel full n st) as Hstop
    end.
    pose proof (emits_checked cancel pause_spins st) as Hchk.
    unfold stop_is_set in Hstop, Hchk |- *; cbn [fst snd] in Hstop, Hchk.
    destruct (stop_event st || cancel (stop_reads st)) eqn:E;
      [exact (Hstop eq_refl)|].
    apply orb_false_iff in E; destruct E as [Hs _].
    set (st2 := pause_loop cancel pause_spins _) in *.
    unfold rg_records; cbn [flat_map]; fold (rg_records rest).
    destruct ev as [[path|] [line_no|] text | n |];
      try exact (emits_then_prefix Hs Hchk (IH _ st2)).
    exact (emits_then_prefix Hs
             (emits_trans Hchk (emits_put cancel _ st2)) (IH _ _)).
Qed.

Hypothesis never : forall k, cancel k = false.

Lemma rg_events_searched :
  forall (events : list rg_event) (searched : option nat) (st : TabState),
    stop_event st = false ->
    snd (rg_events cancel pause_spins events searched st)
    = rg_searched events searched.
Proof.
  induction events as [|ev rest IH]; intros searched st Hs;
    cbn [rg_events]; [reflexivity|].
  destruct (emits_checked cancel pause_spins st) as (_ & _ & _ & Hc).
  specialize (Hc never Hs).
  unfold stop_is_set in Hc |- *; cbn [fst snd] in Hc.
  rewrite Hs, never in Hc |- *; cbn [orb] in Hc |- *.
  set (st2 := pause_loop cancel pause_spins _) in *.
  unfold rg_searched; cbn [fold_left].
  destruct ev as [[path|] [line_no|] text | n |];
    try (apply IH; exact Hc).
Qed.

End RgPrefix.

(** X14. Stopping truncates the results of the external backend in the
    same way: the records a run adds are a prefix of the records of the
    child's match events that carry a path and a line number, each with
    its text stripped of the line terminator.  A run that nobody stops
    adds all of them and sets the file counter to the count of the last
    summary event, when there is one with a count. *)
Theorem rg_adapter_results (host : host_re)
    (fs : filesystem) (cancel : nat -> bool) (pause_spins : nat -> nat)
    (rg : str) (popen : list str -> option (list rg_event * str))
    (fmt_g : Q -> str) (include_globs exclude_globs : list str) (max_mb : Q)
    (depth_limit : option Z) (skip_hidden respect_gitignore : bool)
    (gitignore_rules : list rule) (first_match_per_file : bool)
    (pattern : str) (use_regex case whole : bool) (filetype : str)
    (events : list rg_event) (err : str) (st : TabState) :
  popen (rg_command fs fmt_g include_globs exclude_globs max_mb depth_limit
                    skip_hidden respect_gitignore first_match_per_file
                    pattern use_regex case whole filetype rg)
  = Some (events, err) ->
  let st' := fst (worker_text host fs cancel pause_spins (Some rg) popen
                    fmt_g include_globs exclude_globs max_mb depth_limit
                    skip_hidden respect_gitignore gitignore_rules true
                    first_match_per_file pattern use_regex case whole
                    filetype st) in
  exists l t,
    result_q st' = result_q st ++ l
    /\ rg_records events = l ++ t
    /\ ((forall k, cancel k = false) -> stop_event st = false ->
        t = []
        /\ files_scanned st'
           = match rg_searched events None with
             | Some n => n
             | None => files_scanned st
             end).
Proof.
  intros Hp; cbv zeta; unfold worker_text, worker_text_ripgrep.
  cbn [fst]; rewrite Hp.
  set (st0 := log_put _ st).
  pose proof (rg_events_prefix cancel pause_spins events None st0)
    as (l & t & R & E & _ & D & _ & C).
  pose proof (fun Hk => @rg_events_searched cancel pause_spins Hk events
                          None st0) as Hsrch.
  destruct (rg_events cancel pause_spins events None st0)
    as [st1 searched]; cbn [fst snd] in *.
  exists l, t.
  split; [|split; [exact E|]].
  - unfold stop_is_set; destruct searched, (is_empty err); exact R.
  - intros Hk Hs.
    specialize (Hsrch Hk Hs); subst searched.
    destruct (D (C Hk Hs)) as [-> F]; split; [reflexivity|].
    unfold stop_is_set.
    destruct (rg_searched events None), (is_empty err);
      cbn [stop_set set_files_scanned log_put files_scanned];
      try reflexivity; rewrite F; cbn [st0 log_put files_scanned]; lia.
Qed.

Lemma rg_adapter_results_witness :
  exists l,
    result_q (fst (worker_text no_host demo_fs never_cancel never_pause
                     (Some (s_ "rg")) one_match_process fmt_zero [] [] 0%Q
                     None false false [] true false (s_ "hello") false true
                     false (s_ "All") new_run))
    = result_q new_run ++ l
    /\ rg_records [RgMatch (Some (s_ "/root/a.txt")) (Some 1)
                           (s_ "hello" ++ [c_nl]);
                   RgOther; RgSummary (Some 3)] = l
    /\ files_scanned
         (fst (worker_text no_host demo_fs never_cancel never_pause
                 (Some (s_ "rg")) one_match_process fmt_zero [] [] 0%Q None
                 false false [] true false (s_ "hello") false true false
                 (s_ "All") new_run)) = 3.
Proof.
  destruct (@rg_adapter_results no_host demo_fs never_cancel never_pause
              (s_ "rg") one_match_process fmt_zero [] [] 0%Q None false false []
              false (s_ "hello") false true false (s_ "All")
              [RgMatch (Some (s_ "/root/a.txt")) (Some 1)
                       (s_ "hello" ++ [c_nl]);
               RgOther; RgSummary (Some 3)] [] new_run eq_refl)
    as (l & t & R & E & H).
  destruct (H (fun _ => eq_refl) eq_refl) as [Ht F].
  exists l; split; [exact R|]; split; [|exact F].
  rewrite E, Ht, app_nil_r; reflexivity.
Defined.

(** ** FileName worker: stopping truncates the results *)

Lemma content_matcher_total (host : host_re) (content_filter_on : bool)
    (content_pat : str) (content_regex content_case content_whole : bool)
    (mc : matcher) :
  content_matcher host content_filter_on content_pat content_regex content_case
                  content_whole = Ok mc ->
  total mc.
Proof.
  unfold content_matcher; destruct content_filter_on.
  - apply compile_matcher_total.
  - intros [= <-] line; discriminate.
Qed.

Lemma prefix_cut (cancel : nat -> bool) (full : list match_record) (n : nat)
    (a b : TabState) :
  emits cancel [] n a b -> stop_event b = true ->
  emits_prefix_of cancel full n a b.
Proof.
  intros (R & F & M & C) Hb; exists [], full.
  split; [exact R|]; split; [reflexivity|]; split; [reflexivity|].
  split; [|split]; auto.
  intros Hc; rewrite Hc in Hb; discriminate.
Qed.

Section FilePrefix.

Variable fs : filesystem.
Variable cancel : nat -> bool.
Variable pause_spins : nat -> nat.
Variables include_globs exclude_globs : list str.
Variable max_mb : Q.
Variable content_filter_on : bool.
Variables match_name match_content : matcher.
Hypothesis match_name_total : total match_name.
Hypothesis match_content_total : total match_content.

Lemma content_scan_found :
  forall (lines : list str) (st : TabState),
    emits cancel [] 0 st
          (fst (content_scan cancel pause_spins match_content lines st))
    /\ (snd (content_scan cancel pause_spins match_content lines st)
        = Some true ->
        existsb (accepts match_content) lines = true)
    /\ (stop_event
          (fst (content_scan cancel pause_spins match_content lines st))
        = false ->
        snd (content_scan cancel pause_spins match_content lines st)
        = Some (existsb (accepts match_content) lines)).
Proof.
  induction lines as [|line rest IH]; intros st; cbn [content_scan].
  - cbn [fst snd existsb]; split; [apply emits_refl|].
    split; [discriminate | reflexivity].
  - pose proof (emits_stop_is_set cancel st) as Hstop.
    pose proof (emits_checked cancel pause_spins st) as Hchk.
    unfold stop_is_set in Hstop, Hchk |- *; cbn [fst snd] in Hstop, Hchk.
    destruct (stop_event st || cancel (stop_reads st)) eqn:E.
    + cbn [fst snd stop_event]; split; [exact Hstop|].
      split; discriminate.
    + set (st2 := pause_loop cancel pause_spins _) in *.
      cbn [existsb]; unfold accepts at 1 3.
      destruct (match_content line) as [[|]|] eqn:Em;
        [| |elim (match_content_total Em)].
      * cbn [fst snd orb]; split; [exact Hchk|]; split; reflexivity.
      * destruct (IH st2) as (He & Ht & Hf); cbn [orb].
        split; [exact (emits_trans Hchk He)|]; split; assumption.
Qed.

Lemma file_file_prefix (root fname : str) (a b : TabState) :
  stop_event a = false -> emits cancel [] 0 a b ->
  emits_prefix_of cancel
    (file_hit fs include_globs exclude_globs max_mb content_filter_on
              match_name match_content root fname)
    (if file_counted fs include_globs exclude_globs max_mb root fname
     then 1 else 0)
    a
    (fst (file_file fs cancel pause_spins include_globs exclude_globs max_mb
                    content_filter_on match_name match_content root fname
                    b)).
Proof.
  intros Ha Hab; unfold file_file, file_hit, file_counted.
  destruct (glob_rejected include_globs exclude_globs fname);
    cbn [negb andb fst]; [apply prefix_nil; exact Hab|].
  destruct (getsize fs (path_join root fname)) as [size|];
    cbn [andb fst]; [|apply prefix_nil; exact Hab].
  destruct (over_cap max_mb size); cbn [negb andb fst];
    [apply prefix_nil; exact Hab|].
  pose proof (emits_trans Hab (emits_incr_scanned cancel b)) as H1.
  cbn [Nat.add] in H1.
  unfold accepts at 1.
  destruct (match_name fname) as [[|]|] eqn:En;
    [| |elim (match_name_total En)]; cbn [andb fst];
    [|apply prefix_nil; exact H1].
  set (r := FileRecord (path_join root fname) size
                       (getmtime fs (path_join root fname))
                       content_filter_on).
  destruct content_filter_on eqn:Ecf; cbn [negb orb].
  2:{ cbn [fst]; apply prefix_all; [exact Ha|].
      exact (emits_trans H1 (emits_put cancel r _)). }
  destruct (is_binary_quick fs (path_join root fname)); cbn [negb andb fst];
    [apply prefix_nil; exact H1|].
  destruct (read_file fs (path_join root fname)) as [text|]; cbn [fst];
    [|apply prefix_nil; exact H1].
  destruct (content_scan_found (readlines text) (incr_scanned b))
    as (He & Ht & Hf).
  destruct (content_scan cancel pause_spins match_content (readlines text)
                         (incr_scanned b)) as [st2 res];
    cbn [fst snd] in *.
  pose proof (emits_trans H1 He) as H2; cbn [app Nat.add] in H2.
  destruct res as [[|]|]; cbn [fst].
  - rewrite (Ht eq_refl); apply prefix_all; [exact Ha|].
    exact (emits_trans H2 (emits_put cancel r st2)).
  - destruct (stop_event st2) eqn:Es; [apply prefix_cut; assumption|].
    specialize (Hf eq_refl); injection Hf as <-.
    apply prefix_nil; exact H2.
  - destruct (stop_event st2) eqn:Es; [apply prefix_cut; assumption|].
    discriminate (Hf eq_refl).
Qed.

Lemma file_files_prefix (root : str) :
  forall (files : list str) (st : TabState),
    emits_prefix_of cancel
      (flat_map (file_hit fs include_globs exclude_globs max_mb
                   content_filter_on match_name match_content root) files)
      (length (filter (file_counted fs include_globs exclude_globs max_mb
                         root) files))
      st
      (fst (file_files fs cancel pause_spins include_globs exclude_globs
                       max_mb content_filter_on match_name match_content
                       root files st)).
Proof.
  induction files as [|fname rest IH]; intros st; cbn [file_files].
  - apply prefix_nil, emits_refl.
  - match goal with
    | |- emits_prefix_of _ ?full ?n _ _ =>
        pose proof (@prefix_at_stop cancel full n st) as Hstop
    end.
    pose proof (emits_checked cancel pause_spins st) as Hchk.
    unfold stop_is_set in Hstop, Hchk |- *; cbn [fst snd] in Hstop, Hchk.
    destruct (stop_event st || cancel (stop_reads st)) eqn:E;
      [exact (Hstop eq_refl)|].
    apply orb_false_iff in E; destruct E as [Hs _].
    set (st2 := pause_loop cancel pause_spins _) in *.
    pose proof (file_file_prefix root fname Hs Hchk) as Hff.
    pose proof (@file_file_no_escape fs cancel pause_spins include_globs
                  exclude_globs max_mb content_filter_on match_name
                  match_content root fname st2 match_name_total) as Hesc.
    destruct (file_file fs cancel pause_spins include_globs exclude_globs
                        max_mb content_filter_on match_name match_content
                        root fname st2) as [st3 esc];
      cbn [fst snd] in Hff, Hesc; subst esc.
    eapply prefix_eq; [| |exact (prefix_seq Hff (IH st3))].
    + reflexivity.
    + cbn [filter].
      destruct (file_counted _ _ _ _ _ _); reflexivity.
Qed.

Lemma file_dirs_prefix :
  forall (entries : list walk_entry) (st : TabState),
    emits_prefix_of cancel
      (file_hits fs include_globs exclude_globs max_mb content_filter_on
                 match_name match_content entries)
      (files_counted fs include_globs exclude_globs max_mb entries)
      st
      (fst (file_dirs fs cancel pause_spins include_globs exclude_globs
                      max_mb content_filter_on match_name match_content
                      entries st)).
Proof.
  induction entries as [|[[root dirs] files] rest IH]; intros st;
    cbn [file_dirs].
  - apply prefix_nil, emits_refl.
  - match goal with
    | |- emits_prefix_of _ ?full ?n _ _ =>
        pose proof (@prefix_at_stop cancel full n st) as Hstop
    end.
    pose proof (emits_stop_is_set cancel st) as Hchk.
    unfold stop_is_set in Hstop, Hchk |- *; cbn [fst snd] in Hstop, Hchk.
    destruct (stop_event st || cancel (stop_reads st)) eqn:E;
      [exact (Hstop eq_refl)|].
    apply orb_false_iff in E; destruct E as [Hs _].
    match goal with
    | |- context [log_put ?msg ?s] =>
        pose proof (emits_trans Hchk (emits_log_put cancel msg s)) as Hlog;
        set (st2 := log_put msg s) in *
    end.
    pose proof (file_files_prefix root files st2) as Hfs.
    pose proof (@file_files_no_escape fs cancel pause_spins include_globs
                  exclude_globs max_mb content_filter_on match_name
                  match_content root files st2 match_name_total) as Hesc.
    destruct (file_files fs cancel pause_spins include_globs exclude_globs
                         max_mb content_filter_on match_name match_content
                         root files st2) as [st3 esc];
      cbn [fst snd] in Hfs, Hesc; subst esc.
    eapply prefix_eq;
      [| |exact (emits_then_prefix Hs Hlog (prefix_seq Hfs (IH st3)))].
    + reflexivity.
    + unfold files_counted; cbn [flat_map fst snd].
      rewrite length_app; reflexivity.
Qed.

End FilePrefix.

(** X15. Stopping truncates the results of the FileName worker and
    never alters them: the records a run adds are a prefix of the
    records of all counted files whose name the name matcher accepts
    and that pass the content filter, in traversal order.  A run that
    nobody stops adds all of them and advances the file counter by the
    number of files that pass the globs and the size cap. *)
Theorem file_worker_results (host : host_re)
    (fs : filesystem) (cancel : nat -> bool) (pause_spins : nat -> nat)
    (include_globs exclude_globs : list str) (max_mb : Q)
    (depth_limit : option Z) (skip_hidden : bool)
    (gitignore_rules : list rule)
    (fname_pat : str) (fname_regex fname_case fname_whole : bool)
    (content_filter_on : bool) (content_pat : str)
    (content_regex content_case content_whole : bool)
    (mn mc : matcher) (st : TabState) :
  compile_matcher host fname_pat fname_regex fname_case fname_whole = Ok mn ->
  content_matcher host content_filter_on content_pat content_regex content_case
                  content_whole = Ok mc ->
  let entries := walk_with_depth fs depth_limit skip_hidden gitignore_rules
                                 (exclude_dirs exclude_globs) in
  let st' := fst (worker_file host fs cancel pause_spins include_globs
                    exclude_globs max_mb depth_limit skip_hidden
                    gitignore_rules fname_pat fname_regex fname_case
                    fname_whole content_filter_on content_pat content_regex
                    content_case content_whole st) in
  exists l t,
    result_q st' = result_q st ++ l
    /\ file_hits fs include_globs exclude_globs max_mb content_filter_on
                 mn mc entries = l ++ t
    /\ ((forall k, cancel k = false) -> stop_event st = false ->
        t = []
        /\ files_scanned st'
           = files_scanned st
             + files_counted fs include_globs exclude_globs max_mb entries).
Proof.
  intros Hn Hc; cbv zeta; unfold worker_file; rewrite Hn, Hc.
  destruct (@file_dirs_prefix fs cancel pause_spins include_globs
              exclude_globs max_mb content_filter_on mn mc
              (compile_matcher_total _ _ _ _ _ Hn)
              (content_matcher_total _ _ _ _ _ _ Hc)
              (walk_with_depth fs depth_limit skip_hidden gitignore_rules
                               (exclude_dirs exclude_globs)) st)
    as (l & t & R & E & _ & D & _ & C).
  exists l, t.
  destruct (file_dirs _ _ _ _ _ _ _ _ _ _ st) as [st1 [|]];
    cbn [fst snd stop_set result_q files_scanned] in *;
    (split; [exact R|]; split; [exact E|]);
    intros Hk Hs; apply D, C; assumption.
Qed.

Lemma file_worker_results_witness :
  exists l,
    result_q (fst (worker_file no_host demo_fs never_cancel never_pause
                     [] [] 0%Q None false [] (s_ ".txt") false true false
                     false [] false false false new_run))
    = result_q new_run ++ l
    /\ file_hits demo_fs [] [] 0%Q false
         (fun line => Some (contains (s_ ".txt") line))
         (fun _ => Some true)
         (walk_with_depth demo_fs None false [] (exclude_dirs [])) = l.
Proof.
  destruct (@file_worker_results no_host demo_fs never_cancel never_pause
              [] [] 0%Q None false [] (s_ ".txt") false true false
              false [] false false false
              (fun line => Some (contains (s_ ".txt") line))
              (fun _ => Some true) new_run eq_refl eq_refl)
    as (l & t & R & E & H).
  destruct (H (fun _ => eq_refl) eq_refl) as [Ht _].
  exists l; split; [exact R|].
  rewrite E, Ht, app_nil_r; reflexivity.
Defined.

(** ** Preview highlighting in literal mode *)

Lemma re_parse_escape (needle : str) :
  re_parse (re_escape needle) = Ok (lit_seq needle REmpty).
Proof.
  assert (Htok : tokenize (re_escape needle) = Ok (map lit_token needle)).
  { rewrite <- (app_nil_r (re_escape needle)), tokenize_escape; simpl.
    rewrite app_nil_r; reflexivity. }
  assert (Hfuel : 2 * length (map lit_token needle) + 2
                  = S (length needle + S (length needle))).
  { rewrite length_map; lia. }
  assert (Hgroups : (max_groups <? open_groups (map lit_token needle))
                    = false).
  { rewrite <- (app_nil_r (map lit_token needle)), open_groups_literals.
    reflexivity. }
  unfold re_parse; rewrite Htok.
  unfold parse_tokens; rewrite Hgroups, Hfuel.
  cbn [parse_sub].
  rewrite <- (app_nil_r (map lit_token needle)).
  rewrite (@parse_seq_literals needle (S (length needle)) [] REmpty []
             eq_refl eq_refl).
  reflexivity.
Qed.

Lemma is_word_lower (c : ascii) : is_word (lower_char c) = is_word c.
Proof. each_char c; reflexivity. Qed.

Lemma at_boundary_lower (prev : option ascii) (s : str) :
  at_boundary (option_map lower_char prev) (lower s) = at_boundary prev s.
Proof.
  unfold at_boundary; f_equal.
  - destruct prev as [c|]; [apply is_word_lower | reflexivity].
  - destruct s as [|c s]; [reflexivity | apply is_word_lower].
Qed.

Lemma match_here_literal (ic : bool) (needle : str) :
  forall (prev : option ascii) (s : str),
    match_here ic (lit_seq needle REmpty) prev s
    = startswith (if ic then lower needle else needle)
                 (if ic then lower s else s).
Proof.
  unfold match_here; induction needle as [|c needle IH]; intros prev s.
  - destruct ic; reflexivity.
  - destruct s as [|d s]; [destruct ic; reflexivity|].
    cbn [lit_seq fold_right rmatch].
    fold (lit_seq needle REmpty); rewrite IH.
    destruct ic; reflexivity.
Qed.

Lemma search_literal (ic : bool) (needle : str) :
  forall (prev : option ascii) (s : str),
    search_from ic (lit_seq needle REmpty) prev s
    = contains (if ic then lower needle else needle)
               (if ic then lower s else s).
Proof.
  intros prev s; revert prev; induction s as [|d s IH]; intros prev;
    cbn [search_from]; rewrite match_here_literal.
  - destruct ic; reflexivity.
  - rewrite IH; destruct ic; reflexivity.
Qed.

Lemma rmatch_literal_then_boundary (needle : str) :
  forall (prev : option ascii) (s : str),
    rmatch true (lit_seq needle REmpty) prev s
           (fun p' s' => at_boundary p' s' && true)
    = rmatch false (lit_seq (lower needle) (RCat (RAt AtBoundary) REmpty))
             (option_map lower_char prev) (lower s) (fun _ _ => true).
Proof.
  induction needle as [|c needle IH]; intros prev s.
  - cbn [lower map lit_seq fold_right rmatch at_holds].
    rewrite at_boundary_lower; reflexivity.
  - destruct s as [|d s]; [reflexivity|].
    cbn [lower map lit_seq fold_right rmatch].
    fold (lit_seq needle REmpty).
    fold (lit_seq (map lower_char needle) (RCat (RAt AtBoundary) REmpty)).
    rewrite IH; reflexivity.
Qed.

Lemma match_here_whole_word_fold (needle : str) (prev : option ascii)
    (s : str) :
  match_here true (whole_word_group_regex needle) prev s
  = match_here false (whole_word_regex (lower needle))
               (option_map lower_char prev) (lower s).
Proof.
  unfold match_here, whole_word_group_regex, whole_word_regex.
  cbn [rmatch at_holds].
  rewrite at_boundary_lower, <- rmatch_literal_then_boundary; reflexivity.
Qed.

Lemma search_whole_word_fold (needle : str) :
  forall (prev : option ascii) (s : str),
    search_from true (whole_word_group_regex needle) prev s
    = search_from false (whole_word_regex (lower needle))
                  (option_map lower_char prev) (lower s).
Proof.
  intros prev s; revert prev; induction s as [|d s IH]; intros prev;
    cbn [search_from lower map]; rewrite match_here_whole_word_fold;
    [reflexivity|].
  rewrite IH; reflexivity.
Qed.

(** X16. In literal mode the expression the preview highlighter builds
    always compiles, and it finds a match in exactly the lines the
    worker's matcher accepts, for every pattern text and every setting of
    the case and whole-word options. *)
Theorem highlight_agrees_in_literal_mode (host : host_re) (pattern : str)
    (case whole : bool) :
  exists (m : matcher) (p : re_pattern),
    compile_matcher host pattern false case whole = Ok m
    /\ build_highlight_regex host pattern false case whole = Some p
    /\ forall line, m line = Some (pattern_search p line).
Proof.
  destruct (compile_matcher_literal host pattern case whole)
    as (m & Hm & Hline).
  unfold build_highlight_regex, re_compile.
  destruct whole.
  - rewrite re_parse_word_wrapped_group; cbn [rbind].
    exists m; eexists; split; [exact Hm|]; split; [reflexivity|].
    intros line; rewrite Hline; cbv zeta.
    unfold pattern_search; f_equal.
    destruct case; cbn [negb].
    + symmetry; apply search_whole_word_group.
    + symmetry; apply (search_whole_word_fold pattern None line).
  - rewrite re_parse_escape; cbn [rbind].
    exists m; eexists; split; [exact Hm|]; split; [reflexivity|].
    intros line; rewrite Hline; cbv zeta.
    unfold pattern_search; f_equal.
    rewrite search_literal; destruct case; reflexivity.
Qed.

(** ** Preview: the lines around a match *)

Lemma window_past_end (start stop : Z) (lines : list str) :
  forall i : nat,
    (stop < Z.of_nat i)%Z ->
    filter (fun p : nat * str =>
              (start <=? Z.of_nat (fst p))%Z
              && (Z.of_nat (fst p) <=? stop)%Z)
           (numbered_from i lines) = [].
Proof.
  induction lines as [|line rest IH]; intros i Hi; [reflexivity|].
  rewrite numbered_from_cons; cbn [filter fst].
  replace (Z.of_nat i <=? stop)%Z with false by (symmetry; lia).
  rewrite andb_false_r; apply IH; lia.
Qed.

Lemma context_loop_window (start stop : Z) (lines : list str) :
  forall (i : nat) (out : list (nat * str)),
    context_loop start stop i lines out
    = out ++ map (fun p : nat * str => (fst p, rstrip_nl (snd p)))
                 (filter (fun p : nat * str =>
                            (start <=? Z.of_nat (fst p))%Z
                            && (Z.of_nat (fst p) <=? stop)%Z)
                         (numbered_from i lines)).
Proof.
  induction lines as [|line rest IH]; intros i out; cbn [context_loop].
  - rewrite app_nil_r; reflexivity.
  - rewrite numbered_from_cons; cbn [filter fst].
    destruct (Z.of_nat i <? start)%Z eqn:E1.
    + replace (start <=? Z.of_nat i)%Z with false by (symmetry; lia).
      cbn [andb]; apply IH.
    + replace (start <=? Z.of_nat i)%Z with true by (symmetry; lia).
      cbn [andb].
      destruct (stop <? Z.of_nat i)%Z eqn:E2.
      * replace (Z.of_nat i <=? stop)%Z with false by (symmetry; lia).
        rewrite window_past_end by lia.
        rewrite app_nil_r; reflexivity.
      * replace (Z.of_nat i <=? stop)%Z with true by (symmetry; lia).
        rewrite IH; cbn [map fst snd].
        rewrite <- app_assoc; reflexivity.
Qed.

Lemma window_length (start stop : Z) (lines : list str) :
  forall i : nat,
    length (filter (fun p : nat * str =>
                      (start <=? Z.of_nat (fst p))%Z
                      && (Z.of_nat (fst p) <=? stop)%Z)
                   (numbered_from i lines))
    <= Z.to_nat (stop - Z.max start (Z.of_nat i) + 1).
Proof.
  induction lines as [|line rest IH]; intros i; [simpl; lia|].
  rewrite numbered_from_cons; cbn [filter fst].
  specialize (IH (S i)).
  destruct ((start <=? Z.of_nat i)%Z && (Z.of_nat i <=? stop)%Z) eqn:E.
  - apply andb_true_iff in E; destruct E as [E1 E2].
    cbn [length]; lia.
  - lia.
Qed.

Lemma numbered_from_nth (lines : list str) :
  forall (i k : nat) (line : str),
    nth_error lines k = Some line -> In (i + k, line) (numbered_from i lines).
Proof.
  induction lines as [|x rest IH]; intros i k line H;
    [destruct k; discriminate|].
  rewrite numbered_from_cons; destruct k as [|k]; cbn [nth_error] in H.
  - injection H as ->; left; rewrite Nat.add_0_r; reflexivity.
  - right; replace (i + S k) with (S i + k) by lia; apply IH; exact H.
Qed.

(** X17. The preview window of a readable file holds exactly the lines
    whose 1-based number lies between [center_line - context] and
    [center_line + context], in file order, each with its number and
    without its terminator: ending the loop at the first line past the
    window loses nothing.  It never holds more than [2 * context + 1]
    lines. *)
Theorem read_context_lines_window (fs : filesystem) (path text : str)
    (center_line context : Z) :
  read_file fs path = Some text ->
  read_context_lines fs path center_line context
  = map (fun p : nat * str => (fst p, rstrip_nl (snd p)))
        (filter (in_window center_line context)
                (numbered_from 1 (readlines text)))
  /\ length (read_context_lines fs path center_line context)
     <= Z.to_nat (2 * context + 1).
Proof.
  intros H; unfold read_context_lines; rewrite H.
  rewrite context_loop_window; cbn [app].
  split; [reflexivity|].
  rewrite length_map.
  eapply Nat.le_trans; [apply window_length|].
  lia.
Qed.

Lemma read_context_lines_window_witness :
  read_context_lines demo_fs (s_ "/root/a.txt") 2 0
  = map (fun p : nat * str => (fst p, rstrip_nl (snd p)))
        (filter (in_window 2 0)
                (numbered_from 1 (readlines (s_ "hello" ++ [c_nl]
                                             ++ s_ "world" ++ [c_nl]))))
  /\ length (read_context_lines demo_fs (s_ "/root/a.txt") 2 0)
     <= Z.to_nat (2 * 0 + 1).
Proof.
  apply (@read_context_lines_window demo_fs (s_ "/root/a.txt")
           (s_ "hello" ++ [c_nl] ++ s_ "world" ++ [c_nl]) 2 0).
  reflexivity.
Defined.

(** X18. The preview of a record of the Content worker shows the matched
    line: for a record the native worker can add, and a context that is
    not negative, the window read around the record's line number holds
    that number with the record's text, as long as the file is as the
    worker read it. *)
Theorem preview_shows_matched_line
    (fs : filesystem) (include_globs exclude_globs : list str)
    (filetype : str) (is_match : matcher) (entries : list walk_entry)
    (path : str) (line_no : nat) (text : str) (context : Z) :
  content_record_ok fs include_globs exclude_globs filetype is_match entries
                    (ContentRecord path line_no text) ->
  (0 <= context)%Z ->
  In (line_no, text)
     (read_context_lines fs path (Z.of_nat line_no) context).
Proof.
  intros (root & dirs & files & fname & body & j & line & E & _ & _ & _ & _
          & _ & Hread & Hnth & Hj & _) Hc.
  injection E as -> -> ->.
  unfold read_context_lines; rewrite Hread, context_loop_window; cbn [app].
  apply (in_map (fun p : nat * str => (fst p, rstrip_nl (snd p)))
                _ (j, line)).
  apply filter_In; split.
  - replace j with (1 + (j - 1)) at 1 by lia.
    apply numbered_from_nth; exact Hnth.
  - cbn [fst]; apply andb_true_iff; split; lia.
Qed.

Lemma preview_shows_matched_line_witness :
  In (2, s_ "world")
     (read_context_lines demo_fs (s_ "/root/a.txt") (Z.of_nat 2) 1).
Proof.
  apply (@preview_shows_matched_line demo_fs [] [] (s_ "All")
           (fun _ => Some true)
           [(s_ "/root", [], [s_ "a.txt"])]
           (s_ "/root/a.txt") 2 (s_ "world") 1).
  - exists (s_ "/root"), [], [s_ "a.txt"], (s_ "a.txt"),
      (s_ "hello" ++ [c_nl] ++ s_ "world" ++ [c_nl]), 2,
      (s_ "world" ++ [c_nl]).
    split; [reflexivity|].
    split; [left; reflexivity|].
    split; [left; reflexivity|].
    split; [reflexivity|].
    split; [left; reflexivity|].
    split; [reflexivity|].
    split; [reflexivity|].
    split; [reflexivity|].
    split; [lia | reflexivity].
  - lia.
Defined.

(** ** Consumer: the queue pump *)

Lemma striped_from_cons (idx : nat) (values : match_record)
    (l : list match_record) :
  striped_from idx (values :: l)
  = ResultRow values (stripe idx) :: striped_from (S idx) l.
Proof. reflexivity. Qed.

Lemma striped_from_app (l1 l2 : list match_record) :
  forall idx : nat,
    striped_from idx (l1 ++ l2)
    = striped_from idx l1 ++ striped_from (idx + length l1) l2.
Proof.
  induction l1 as [|x l1 IH]; intros idx.
  - cbn [app length]; rewrite Nat.add_0_r; reflexivity.
  - cbn [app length]; rewrite !striped_from_cons, IH; cbn [app].
    replace (S idx + length l1) with (idx + S (length l1)) by lia.
    reflexivity.
Qed.

Lemma striped_from_length (idx : nat) (l : list match_record) :
  length (striped_from idx l) = length l.
Proof.
  unfold striped_from.
  rewrite length_map, length_combine, length_seq; lia.
Qed.

Lemma shown_striped_from (l : list match_record) :
  forall idx : nat, shown (striped_from idx l) = l.
Proof.
  induction l as [|x l IH]; intros idx; [reflexivity|].
  rewrite striped_from_cons; unfold shown; cbn [flat_map app].
  f_equal; apply IH.
Qed.

Lemma striped_from_no_placeholder (l : list match_record) :
  forall idx : nat, existsb is_empty_row (striped_from idx l) = false.
Proof.
  induction l as [|x l IH]; intros idx; [reflexivity|].
  rewrite striped_from_cons; cbn [existsb is_empty_row orb]; apply IH.
Qed.

Lemma shown_app (a b : list tree_row) : shown (a ++ b) = shown a ++ shown b.
Proof. apply flat_map_app. Qed.

Lemma shown_without_placeholder (rows : list tree_row) :
  shown (filter (fun r => negb (is_empty_row r)) rows) = shown rows.
Proof.
  induction rows as [|[|values tag] rows IH]; [reflexivity|exact IH|].
  cbn [filter is_empty_row negb]; unfold shown; cbn [flat_map app].
  f_equal; exact IH.
Qed.

Lemma drain_results_spec :
  forall (budget : nat) (q : list match_record) (idx : nat)
         (rows : list tree_row) (drained : bool),
    drain_results budget q idx rows drained
    = (skipn budget q, rows ++ striped_from idx (firstn budget q),
       drained || negb (is_empty_list (firstn budget q))).
Proof.
  induction budget as [|budget IH]; intros q idx rows drained.
  - cbn [drain_results skipn firstn]; cbn.
    rewrite app_nil_r, orb_false_r; reflexivity.
  - destruct q as [|values q]; cbn [drain_results skipn firstn].
    + cbn; rewrite app_nil_r, orb_false_r; reflexivity.
    + rewrite IH, striped_from_cons, <- app_assoc; cbn [app].
      cbn [is_empty_list negb]; rewrite orb_true_r; reflexivity.
Qed.

Lemma drain_logs_spec :
  forall (budget : nat) (q text : list str) (drained : bool),
    drain_logs budget q text drained
    = (skipn budget q, text ++ firstn budget q,
       drained || negb (is_empty_list (firstn budget q))).
Proof.
  induction budget as [|budget IH]; intros q text drained.
  - cbn [drain_logs skipn firstn]; cbn.
    rewrite app_nil_r, orb_false_r; reflexivity.
  - destruct q as [|msg q]; cbn [drain_logs skipn firstn].
    + cbn; rewrite app_nil_r, orb_false_r; reflexivity.
    + rewrite IH, <- app_assoc; cbn [app].
      cbn [is_empty_list negb]; rewrite orb_true_r; reflexivity.
Qed.

Lemma firstn_is_empty {A : Type} (n : nat) (l : list A) :
  0 < n -> is_empty_list (firstn n l) = is_empty_list l.
Proof. destruct n; [lia|]; destruct l; reflexivity. Qed.

Lemma max_results_positive : 0 < max_results_per_tick.
Proof. unfold max_results_per_tick; lia. Qed.

Lemma max_logs_positive : 0 < max_logs_per_tick.
Proof. unfold max_logs_per_tick; lia. Qed.

(** The rows the first loop starts from. *)
Lemma pump_queues_running (v : TabView) :
  pause_event v = true ->
  let st := tv_run v in
  let rows0 := if existsb is_empty_row (result_tree v)
               then filter (fun r => negb (is_empty_row r)) (result_tree v)
               else result_tree v in
  let drained := negb (is_empty_list (result_q st))
                 || negb (is_empty_list (log_q st)) in
  pump_queues v
  = ({| tv_run := with_queues (skipn max_logs_per_tick (log_q st))
                    (skipn max_results_per_tick (result_q st)) st;
        pause_event := true;
        result_tree :=
          rows0 ++ striped_from (length rows0)
                     (firstn max_results_per_tick (result_q st));
        log_text := log_text v ++ firstn max_logs_per_tick (log_q st) |},
     if negb (stop_event st) || drained
     then Some (if negb (is_empty_list
                           (skipn max_results_per_tick (result_q st)))
                   || negb (is_empty_list
                              (skipn max_logs_per_tick (log_q st)))
                then 1 else 120)
     else None).
Proof.
  intros Hp; cbv zeta; unfold pump_queues; rewrite Hp.
  rewrite drain_results_spec, drain_logs_spec.
  cbv beta iota zeta.
  rewrite (firstn_is_empty _ max_results_positive),
          (firstn_is_empty _ max_logs_positive).
  cbn [orb].
  destruct (negb (stop_event (tv_run v))
            || (negb (is_empty_list (result_q (tv_run v)))
                || negb (is_empty_list (log_q (tv_run v)))));
    reflexivity.
Qed.

Lemma pump_queues_paused (v : TabView) :
  pause_event v = false ->
  pump_queues v
  = ({| tv_run := with_queues (log_q (tv_run v)) (result_q (tv_run v))
                              (tv_run v);
        pause_event := false;
        result_tree := result_tree v;
        log_text := log_text v |},
     if negb (stop_event (tv_run v))
     then Some (if negb (is_empty_list (result_q (tv_run v)))
                   || negb (is_empty_list (log_q (tv_run v)))
                then 1 else 120)
     else None).
Proof.
  intros Hp; unfold pump_queues; rewrite Hp.
  cbv beta iota zeta; rewrite orb_false_r.
  destruct (negb (stop_event (tv_run v))); reflexivity.
Qed.

Lemma shown_rows0 (rows : list tree_row) :
  shown (if existsb is_empty_row rows
         then filter (fun r => negb (is_empty_row r)) rows
         else rows) = shown rows.
Proof.
  destruct (existsb is_empty_row rows);
    [apply shown_without_placeholder | reflexivity].
Qed.

(** X19. One call of the pump loses nothing and reorders nothing: the
    records shown followed by the records still queued are the same
    sequence before and after the call, and so are the messages in the
    log pane followed by those still queued.  A call moves at most
    [max_results_per_tick] records and [max_logs_per_tick] messages,
    moves nothing while the run is paused, and leaves the counters, the
    stop flag and the pause event as they are. *)
Theorem pump_tick_conserves (v : TabView) :
  let v' := fst (pump_queues v) in
  shown (result_tree v') ++ result_q (tv_run v')
  = shown (result_tree v) ++ result_q (tv_run v)
  /\ log_text v' ++ log_q (tv_run v') = log_text v ++ log_q (tv_run v)
  /\ length (shown (result_tree v'))
     <= length (shown (result_tree v)) + max_results_per_tick
  /\ length (log_text v') <= length (log_text v) + max_logs_per_tick
  /\ (if pause_event v then True
      else result_tree v' = result_tree v /\ log_text v' = log_text v
           /\ result_q (tv_run v') = result_q (tv_run v)
           /\ log_q (tv_run v') = log_q (tv_run v))
  /\ stop_event (tv_run v') = stop_event (tv_run v)
  /\ files_scanned (tv_run v') = files_scanned (tv_run v)
  /\ matches_found (tv_run v') = matches_found (tv_run v)
  /\ pause_event v' = pause_event v.
Proof.
  cbv zeta; destruct (pause_event v) eqn:Hp.
  - rewrite (pump_queues_running v Hp).
    cbn [fst tv_run result_tree log_text pause_event with_queues result_q
         log_q stop_event files_scanned matches_found].
    rewrite shown_app, shown_rows0, shown_striped_from.
    rewrite <- !app_assoc, !firstn_skipn, !length_app.
    pose proof (firstn_le_length max_results_per_tick
                                 (result_q (tv_run v))).
    pose proof (firstn_le_length max_logs_per_tick (log_q (tv_run v))).
    repeat split; lia.
  - rewrite (pump_queues_paused v Hp).
    cbn [fst tv_run result_tree log_text pause_event with_queues result_q
         log_q stop_event files_scanned matches_found].
    repeat split; lia.
Qed.

(** X20. The pump keeps the tree striped: from a tree that holds only
    the placeholder, or whose rows alternate from an even first row, a
    call made while the run is not paused leaves a tree without the
    placeholder whose rows alternate from an even first row. *)
Theorem pump_tick_keeps_stripes (v : TabView) :
  result_tree v = [EmptyRow] \/ striped (result_tree v) ->
  pause_event v = true ->
  striped (result_tree (fst (pump_queues v))).
Proof.
  intros Ht Hp; rewrite (pump_queues_running v Hp); cbn [fst result_tree].
  unfold striped; rewrite shown_app, shown_rows0, shown_striped_from.
  destruct Ht as [-> | Hs].
  - reflexivity.
  - unfold striped in Hs.
    remember (shown (result_tree v)) as l eqn:El.
    rewrite Hs, striped_from_no_placeholder.
    rewrite striped_from_app, striped_from_length; reflexivity.
Qed.

Lemma pump_tick_keeps_stripes_witness :
  striped (result_tree (fst (pump_queues waiting_view))).
Proof.
  apply (@pump_tick_keeps_stripes waiting_view);
    [left; reflexivity | reflexivity].
Defined.

(** X21. Once the worker has finished and the run is not paused, the
    pump comes to an end, and by then both queues are empty, every queued
    record is in the tree after the rows that were there, in queue order,
    and every queued message is in the log pane: one more call than there
    are queued items is always enough. *)
Theorem pump_shows_everything :
  forall (fuel : nat) (v : TabView),
    stop_event (tv_run v) = true ->
    pause_event v = true ->
    length (result_q (tv_run v)) + length (log_q (tv_run v)) < fuel ->
    exists v',
      pump_run fuel v = Some v'
      /\ result_q (tv_run v') = [] /\ log_q (tv_run v') = []
      /\ shown (result_tree v') = shown (result_tree v) ++ result_q (tv_run v)
      /\ log_text v' = log_text v ++ log_q (tv_run v).
Proof.
  induction fuel as [|fuel IH]; intros v Hs Hp Hlen; [lia|].
  cbn [pump_run]; rewrite (pump_queues_running v Hp), Hs; cbn [negb orb].
  destruct (result_q (tv_run v)) as [|r rq] eqn:Er,
           (log_q (tv_run v)) as [|m lq] eqn:El;
    cbn [is_empty_list negb orb].
  - eexists; split; [reflexivity|].
    cbn [tv_run result_tree log_text with_queues result_q log_q].
    rewrite !skipn_nil, !firstn_nil, shown_app, shown_rows0, !app_nil_r.
    auto.
  - match goal with
    | |- exists v', pump_run fuel ?w = _ /\ _ =>
        destruct (IH w) as (v' & Hrun & Hr & Hl & Hsh & Hlog)
    end.
    + exact Hs.
    + reflexivity.
    + cbn [tv_run with_queues result_q log_q].
      rewrite !length_skipn; cbn [length] in *.
      pose proof max_logs_positive; lia.
    + exists v'; split; [exact Hrun|]; split; [exact Hr|];
        split; [exact Hl|].
      rewrite Hsh, Hlog.
      cbn [tv_run result_tree log_text with_queues result_q log_q].
      rewrite shown_app, shown_rows0, shown_striped_from.
      rewrite <- !app_assoc, !firstn_skipn; auto.
  - match goal with
    | |- exists v', pump_run fuel ?w = _ /\ _ =>
        destruct (IH w) as (v' & Hrun & Hr & Hl & Hsh & Hlog)
    end.
    + exact Hs.
    + reflexivity.
    + cbn [tv_run with_queues result_q log_q].
      rewrite !length_skipn; cbn [length] in *.
      pose proof max_results_positive; lia.
    + exists v'; split; [exact Hrun|]; split; [exact Hr|];
        split; [exact Hl|].
      rewrite Hsh, Hlog.
      cbn [tv_run result_tree log_text with_queues result_q log_q].
      rewrite shown_app, shown_rows0, shown_striped_from.
      rewrite <- !app_assoc, !firstn_skipn; auto.
  - match goal with
    | |- exists v', pump_run fuel ?w = _ /\ _ =>
        destruct (IH w) as (v' & Hrun & Hr & Hl & Hsh & Hlog)
    end.
    + exact Hs.
    + reflexivity.
    + cbn [tv_run with_queues result_q log_q].
      rewrite !length_skipn; cbn [length] in *.
      pose proof max_results_positive; lia.
    + exists v'; split; [exact Hrun|]; split; [exact Hr|];
        split; [exact Hl|].
      rewrite Hsh, Hlog.
      cbn [tv_run result_tree log_text with_queues result_q log_q].
      rewrite shown_app, shown_rows0, shown_striped_from.
      rewrite <- !app_assoc, !firstn_skipn; auto.
Qed.

Lemma pump_shows_everything_witness :
  exists v',
    pump_run 3 (with_run (stop_set (tv_run waiting_view)) waiting_view)
    = Some v'
    /\ result_q (tv_run v') = [] /\ log_q (tv_run v') = []
    /\ shown (result_tree v')
       = [ContentRecord (s_ "/root/a.txt") 1 (s_ "hello")]
    /\ log_text v' = [s_ "Scanning: /root" ++ [c_nl]].
Proof.
  apply (@pump_shows_everything 3
           (with_run (stop_set (tv_run waiting_view)) waiting_view));
    [reflexivity | reflexivity | simpl; lia].
Defined.

(** X22. A run that is stopped while it is paused keeps what is queued
    out of sight: with the stop flag set and the pause event cleared, a
    call of the pump moves nothing and does not schedule another call,
    and the pause button no longer resumes. *)
Theorem stop_while_paused_strands_queue (v : TabView) :
  stop_event (tv_run v) = true ->
  pause_event v = false ->
  pump_queues v = (v, None) /\ toggle_pause_resume v = v.
Proof.
  intros Hs Hp; split.
  - rewrite (pump_queues_paused v Hp), Hs; cbn [negb].
    destruct v as [[lq rq stop fsc mf sr pw] pause rows text].
    cbn in Hp; subst pause; reflexivity.
  - unfold toggle_pause_resume; rewrite Hs; reflexivity.
Qed.

Lemma stop_while_paused_strands_queue_witness :
  pump_queues (stop_search (pause_search waiting_view))
  = (stop_search (pause_search waiting_view), None)
  /\ toggle_pause_resume (stop_search (pause_search waiting_view))
     = stop_search (pause_search waiting_view).
Proof.
  apply (@stop_while_paused_strands_queue
           (stop_search (pause_search waiting_view)));
    reflexivity.
Defined.

(** ** Formatting a size *)

Example fmt_size_1 : fmt_size 1023 = s_ "1023 B".
Proof. vm_compute. reflexivity. Qed.
Example fmt_size_2 : fmt_size 1280 = s_ "1.2 KB".
Proof. vm_compute. reflexivity. Qed.
Example fmt_size_3 : fmt_size 1048575 = s_ "1024.0 KB".
Proof. vm_compute. reflexivity. Qed.
Example fmt_size_4 : fmt_size 1572864 = s_ "1.5 MB".
Proof. vm_compute. reflexivity. Qed.

Lemma round_tenths_close (n d : Z) :
  (0 < d)%Z ->
  (- d <= 2 * (10 * n - round_tenths n d * d) <= d)%Z.
Proof.
  intros Hd; unfold round_tenths.
  pose proof (Z.div_mod (10 * n) d ltac:(lia)) as E.
  pose proof (Z.mod_pos_bound (10 * n) d Hd) as B.
  set (q := (10 * n / d)%Z) in *; set (r := ((10 * n) mod d)%Z) in *.
  destruct (2 * r <? d)%Z eqn:E1; [nia|].
  destruct (d <? 2 * r)%Z eqn:E2; [nia|].
  destruct (Z.even q); nia.
Qed.

Lemma round_tenths_range (n d : Z) :
  (0 < d)%Z -> (d <= n)%Z -> (n < 1024 * d)%Z ->
  (10 <= round_tenths n d <= 10240)%Z.
Proof.
  intros Hd Hlo Hhi; unfold round_tenths.
  assert (Hq1 : (10 <= 10 * n / d)%Z)
    by (apply Z.div_le_lower_bound; lia).
  assert (Hq2 : (10 * n / d < 10240)%Z)
    by (apply Z.div_lt_upper_bound; lia).
  destruct (2 * ((10 * n) mod d) <? d)%Z; [lia|].
  destruct (d <? 2 * ((10 * n) mod d))%Z; [lia|].
  destruct (Z.even (10 * n / d)); lia.
Qed.

Lemma fmt_size_units_skip (unit : str) (rest : list str) (n d : Z) :
  (1024 * d <= n)%Z ->
  fmt_size_units (unit :: rest) n d = fmt_size_units rest n (1024 * d).
Proof.
  intros H; cbn [fmt_size_units].
  replace (n <? 1024 * d)%Z with false by (symmetry; lia); reflexivity.
Qed.

Lemma fmt_size_units_hit (unit : str) (rest : list str) (n d : Z) :
  (n < 1024 * d)%Z -> str_eqb unit "B" = false ->
  fmt_size_units (unit :: rest) n d
  = fmt_tenths (round_tenths n d) ++ s_ " " ++ unit.
Proof.
  intros H Hu; cbn [fmt_size_units].
  replace (n <? 1024 * d)%Z with true by (symmetry; lia).
  rewrite Hu; reflexivity.
Qed.

(** X23. [fmt_size] picks the unit by magnitude and rounds to the
    nearest tenth.  For a size below [2 ^ 53]: below 1024 it is printed
    as the integer it is, in bytes; from [1024 ^ k] up to (for [k] below
    5) [1024 ^ (k + 1)] it is printed in the unit of that scale, with a
    number of tenths that differs from the scaled size by at most half
    a tenth, is never below 1.0 and, because of the rounding, can reach
    1024.0. *)
Theorem fmt_size_unit_and_rounding (n : Z) :
  (0 <= n < 2 ^ 53)%Z ->
  (if (n <? 1024)%Z then fmt_size n = str_of_Z n ++ s_ " B" else True)
  /\ forall k : nat,
       1 <= k <= 5 ->
       (1024 ^ Z.of_nat k <= n)%Z ->
       k = 5 \/ (n < 1024 ^ Z.of_nat (k + 1))%Z ->
       exists m : Z,
         fmt_size n = fmt_tenths m ++ s_ " " ++ unit_name k
         /\ (10 <= m)%Z
         /\ (k = 5 \/ (m <= 10240)%Z)
         /\ (- 1024 ^ Z.of_nat k
             <= 2 * (10 * n - m * 1024 ^ Z.of_nat k)
             <= 1024 ^ Z.of_nat k)%Z.
Proof.
  intros Hn; split.
  - destruct (n <? 1024)%Z eqn:E; [|exact I].
    unfold fmt_size, size_units; cbn [fmt_size_units].
    replace (n <? 1024 * 1)%Z with true by (symmetry; lia).
    reflexivity.
  - intros k Hk Hlo Hhi.
    assert (P1 : (1024 * 1 = 1024 ^ 1)%Z) by reflexivity.
    assert (P2 : (1024 * 1024 ^ 1 = 1024 ^ 2)%Z) by reflexivity.
    assert (P3 : (1024 * 1024 ^ 2 = 1024 ^ 3)%Z) by reflexivity.
    assert (P4 : (1024 * 1024 ^ 3 = 1024 ^ 4)%Z) by reflexivity.
    assert (P5 : (1024 * 1024 ^ 4 = 1024 ^ 5)%Z) by reflexivity.
    assert (Q1 : (0 < 1024 ^ 1)%Z) by reflexivity.
    assert (Q2 : (0 < 1024 ^ 2)%Z) by reflexivity.
    assert (Q3 : (0 < 1024 ^ 3)%Z) by reflexivity.
    assert (Q4 : (0 < 1024 ^ 4)%Z) by reflexivity.
    assert (Q5 : (0 < 1024 ^ 5)%Z) by reflexivity.
    assert (M2 : (1024 ^ 1 < 1024 ^ 2)%Z) by reflexivity.
    assert (M3 : (1024 ^ 2 < 1024 ^ 3)%Z) by reflexivity.
    assert (M4 : (1024 ^ 3 < 1024 ^ 4)%Z) by reflexivity.
    assert (M5 : (1024 ^ 4 < 1024 ^ 5)%Z) by reflexivity.
    unfold fmt_size, size_units.
    destruct k as [|[|[|[|[|[|k]]]]]]; try lia;
      cbn [Z.of_nat Pos.of_succ_nat Pos.succ Nat.add] in Hlo, Hhi |- *.
    + rewrite fmt_size_units_skip, P1 by lia.
      rewrite fmt_size_units_hit by (try reflexivity; lia).
      exists (round_tenths n (1024 ^ 1)); split; [reflexivity|].
      pose proof (@round_tenths_range n (1024 ^ 1)).
      pose proof (@round_tenths_close n (1024 ^ 1)).
      repeat split; try right; lia.
    + rewrite fmt_size_units_skip, P1 by lia.
      rewrite fmt_size_units_skip, P2 by lia.
      rewrite fmt_size_units_hit by (try reflexivity; lia).
      exists (round_tenths n (1024 ^ 2)); split; [reflexivity|].
      pose proof (@round_tenths_range n (1024 ^ 2)).
      pose proof (@round_tenths_close n (1024 ^ 2)).
      repeat split; try right; lia.
    + rewrite fmt_size_units_skip, P1 by lia.
      rewrite fmt_size_units_skip, P2 by lia.
      rewrite fmt_size_units_skip, P3 by lia.
      rewrite fmt_size_units_hit by (try reflexivity; lia).
      exists (round_tenths n (1024 ^ 3)); split; [reflexivity|].
      pose proof (@round_tenths_range n (1024 ^ 3)).
      pose proof (@round_tenths_close n (1024 ^ 3)).
      repeat split; try right; lia.
    + rewrite fmt_size_units_skip, P1 by lia.
      rewrite fmt_size_units_skip, P2 by lia.
      rewrite fmt_size_units_skip, P3 by lia.
      rewrite fmt_size_units_skip, P4 by lia.
      rewrite fmt_size_units_hit by (try reflexivity; lia).
      exists (round_tenths n (1024 ^ 4)); split; [reflexivity|].
      pose proof (@round_tenths_range n (1024 ^ 4)).
      pose proof (@round_tenths_close n (1024 ^ 4)).
      repeat split; try right; lia.
    + rewrite fmt_size_units_skip, P1 by lia.
      rewrite fmt_size_units_skip, P2 by lia.
      rewrite fmt_size_units_skip, P3 by lia.
      rewrite fmt_size_units_skip, P4 by lia.
      rewrite fmt_size_units_skip, P5 by lia.
      cbn [fmt_size_units].
      exists (round_tenths n (1024 ^ 5)); split; [reflexivity|].
      pose proof (@round_tenths_close n (1024 ^ 5)).
      assert (10 <= round_tenths n (1024 ^ 5))%Z.
      { unfold round_tenths.
        assert (10 <= 10 * n / 1024 ^ 5)%Z
          by (apply Z.div_le_lower_bound; lia).
        destruct (2 * ((10 * n) mod 1024 ^ 5) <? 1024 ^ 5)%Z; [lia|].
        destruct (1024 ^ 5 <? 2 * ((10 * n) mod 1024 ^ 5))%Z; [lia|].
        destruct (Z.even (10 * n / 1024 ^ 5)); lia. }
      repeat split; try left; lia.
Qed.

Lemma fmt_size_unit_and_rounding_witness :
  exists m : Z,
    fmt_size 1280 = fmt_tenths m ++ s_ " " ++ unit_name 1
    /\ (10 <= m)%Z
    /\ (1 = 5 \/ (m <= 10240)%Z)
    /\ (- 1024 ^ Z.of_nat 1
        <= 2 * (10 * 1280 - m * 1024 ^ Z.of_nat 1)
        <= 1024 ^ Z.of_nat 1)%Z.
Proof.
  destruct (@fmt_size_unit_and_rounding 1280) as [_ H];
    [split; [lia | reflexivity]|].
  apply (H 1); [lia | simpl; lia | right; simpl; lia].
Defined.

(** ** FolderName worker: a run that nobody stops *)

Section FolderExact.

Variable fs : filesystem.
Variable cancel : nat -> bool.
Variable pause_spins : nat -> nat.
Variables include_globs exclude_globs : list str.
Variable max_mb : Q.
Variable skip_hidden : bool.
Variable gitignore_rules : list rule.
Variable content_filter_on : bool.
Variables match_folder match_content : matcher.
Hypothesis match_folder_total : total match_folder.
Hypothesis match_content_total : total match_content.
Hypothesis never : forall k, cancel k = false.

Lemma checked_clear (st : TabState) :
  stop_event st = false ->
  stop_is_set cancel st = (false, snd (stop_is_set cancel st))
  /\ emits cancel [] 0 st
           (pause_loop cancel pause_spins (snd (stop_is_set cancel st)))
  /\ stop_event (pause_loop cancel pause_spins (snd (stop_is_set cancel st)))
     = false.
Proof.
  intros Hs; split; [|split].
  - unfold stop_is_set; rewrite Hs, never; reflexivity.
  - apply emits_checked.
  - destruct (emits_checked cancel pause_spins st) as (_ & _ & _ & C).
    apply C; assumption.
Qed.

Lemma folder_entries_exact (folder : str) :
  forall (es : list (str * bool)) (seen : nat) (st : TabState),
    stop_event st = false ->
    let files := filter (folder_file_counted fs include_globs exclude_globs
                           max_mb skip_hidden gitignore_rules folder) es in
    let holds := fun e : str * bool =>
      file_holds_match fs match_content (path_join folder (fst e)) in
    let out := folder_entries fs cancel pause_spins include_globs
                 exclude_globs max_mb skip_hidden gitignore_rules
                 content_filter_on match_content folder es seen st in
    emits cancel [] 0 st (fst out)
    /\ stop_event (fst out) = false
    /\ snd out
       = if content_filter_on && existsb holds files
         then (true, seen + S (length (before_first holds files)))
         else (false, seen + length files).
Proof.
  induction es as [|e rest IH]; intros seen st Hs; cbv zeta.
  - cbn [folder_entries filter existsb fst snd length].
    rewrite andb_false_r, Nat.add_0_r.
    split; [apply emits_refl|]; split; [exact Hs | reflexivity].
  - cbn [folder_entries].
    destruct (@checked_clear st Hs) as (E & Hchk & Hs2); rewrite E.
    set (st2 := pause_loop cancel pause_spins _) in *.
    assert (Hnext : forall seen',
               let out := folder_entries fs cancel pause_spins include_globs
                            exclude_globs max_mb skip_hidden gitignore_rules
                            content_filter_on match_content folder rest
                            seen' st2 in
               emits cancel [] 0 st (fst out)
               /\ stop_event (fst out) = false
               /\ snd out
                  = (if content_filter_on
                        && existsb
                             (fun e0 : str * bool =>
                                file_holds_match fs match_content
                                  (path_join folder (fst e0)))
                             (filter (folder_file_counted fs include_globs
                                        exclude_globs max_mb skip_hidden
                                        gitignore_rules folder) rest)
                     then (true,
                           seen' + S (length
                                        (before_first
                                           (fun e0 : str * bool =>
                                              file_holds_match fs
                                                match_content
                                                (path_join folder (fst e0)))
                                           (filter (folder_file_counted fs
                                                      include_globs
                                                      exclude_globs max_mb
                                                      skip_hidden
                                                      gitignore_rules folder)
                                                   rest))))
                     else (false,
                           seen' + length
                                     (filter (folder_file_counted fs
                                                include_globs exclude_globs
                                                max_mb skip_hidden
                                                gitignore_rules folder)
                                             rest)))).
    { intros seen'; destruct (IH seen' st2 Hs2) as (He & Hf & Hr).
      split; [exact (emits_trans Hchk He)|]; split; assumption. }
    cbn [filter].
    destruct (folder_file_counted fs include_globs exclude_globs max_mb
                skip_hidden gitignore_rules folder e) eqn:Ec;
      unfold folder_file_counted in Ec;
      (destruct (entry_considered fs include_globs exclude_globs skip_hidden
                   gitignore_rules folder e);
       cbn [negb andb] in Ec |- *;
       [|first [discriminate Ec | apply Hnext]]);
      (destruct (getsize fs (path_join folder (fst e))) as [size|];
       [|first [discriminate Ec | apply Hnext]]);
      (destruct (over_cap max_mb size); cbn [negb] in Ec |- *;
       try discriminate Ec; try apply Hnext).
    cbn [existsb before_first length].
    unfold file_holds_match at 1 3.
    destruct content_filter_on eqn:Ecf; cbn [negb andb].
    2:{ destruct (Hnext (S seen)) as (He & Hf & Hr).
        split; [exact He|]; split; [exact Hf|].
        rewrite Hr; cbn [andb]; f_equal; lia. }
    destruct (is_binary_quick fs (path_join folder (fst e)));
      cbn [negb andb orb].
    { destruct (Hnext (S seen)) as (He & Hf & Hr).
      split; [exact He|]; split; [exact Hf|].
      rewrite Hr; cbn [andb].
      destruct (existsb _ _); cbn [length]; f_equal; lia. }
    destruct (read_file fs (path_join folder (fst e))) as [text|];
      cbn [orb].
    2:{ destruct (Hnext (S seen)) as (He & Hf & Hr).
        split; [exact He|]; split; [exact Hf|].
        rewrite Hr; cbn [andb].
        destruct (existsb _ _); cbn [length]; f_equal; lia. }
    destruct (content_scan_found cancel pause_spins match_content_total
                (readlines text) st2) as (Hsc & _ & Hres).
    assert (Hs3 : stop_event
                    (fst (content_scan cancel pause_spins match_content
                                       (readlines text) st2)) = false).
    { destruct Hsc as (_ & _ & _ & C); apply C; assumption. }
    specialize (Hres Hs3).
    destruct (content_scan cancel pause_spins match_content (readlines text)
                           st2) as [st3 res]; cbn [fst snd] in *.
    subst res.
    destruct (existsb (accepts match_content) (readlines text));
      cbn [orb length fst snd].
    + split; [exact (emits_trans Hchk Hsc)|]; split; [exact Hs3|].
      f_equal; lia.
    + destruct (IH (S seen) st3 Hs3) as (He & Hf & Hr).
      split; [exact (emits_trans (emits_trans Hchk Hsc) He)|].
      split; [exact Hf|].
      rewrite Hr; cbn [andb].
      destruct (existsb _ _); cbn [length]; f_equal; lia.
Qed.

Lemma folder_dir_exact (root dname : str) (st : TabState) :
  stop_event st = false ->
  let out := folder_dir fs cancel pause_spins include_globs exclude_globs
               max_mb skip_hidden gitignore_rules content_filter_on
               match_folder match_content root dname st in
  emits cancel
        (folder_hit fs include_globs exclude_globs max_mb skip_hidden
                    gitignore_rules content_filter_on match_folder
                    match_content root dname)
        1 st (fst out)
  /\ stop_event (fst out) = false
  /\ snd out = false.
Proof.
  intros Hs; cbv zeta; unfold folder_dir, folder_hit.
  pose proof (emits_incr_scanned cancel st) as H1.
  unfold accepts at 1.
  destruct (match_folder dname) as [[|]|] eqn:Em;
    [| |elim (match_folder_total Em)]; cbn [andb fst snd];
    [|split; [exact H1|]; split; [exact Hs | reflexivity]].
  unfold folder_content_matches, folder_seen.
  destruct (scandir fs (path_join root dname)) as [es|].
  - destruct (@folder_entries_exact (path_join root dname) es 0
                (incr_scanned st) Hs) as (He & Hf & Hr).
    destruct (folder_entries fs cancel pause_spins include_globs
                exclude_globs max_mb skip_hidden gitignore_rules
                content_filter_on match_content (path_join root dname) es 0
                (incr_scanned st)) as [st2 [matched seen]];
      cbn [fst snd] in *.
    pose proof (emits_trans H1 He) as H2; cbn [app Nat.add] in H2.
    destruct (content_filter_on && existsb _ _) eqn:Eh;
      injection Hr as -> ->; cbn [fst snd negb andb].
    + rewrite andb_false_r; cbn [negb fst snd].
      split; [|split; [exact Hf | reflexivity]].
      exact (emits_trans H2 (emits_put cancel _ st2)).
    + destruct content_filter_on; cbn [andb negb fst snd].
      * split; [exact H2|]; split; [exact Hf | reflexivity].
      * split; [|split; [exact Hf | reflexivity]].
        exact (emits_trans H2 (emits_put cancel _ st2)).
  - cbn [filter existsb length]; rewrite andb_false_r; cbn [fst snd negb].
    destruct content_filter_on; cbn [andb negb fst snd].
    + split; [exact H1|]; split; [exact Hs | reflexivity].
    + split; [|split; [exact Hs | reflexivity]].
      exact (emits_trans H1 (emits_put cancel _ _)).
Qed.

Lemma folder_names_exact (root : str) :
  forall (dirs : list str) (st : TabState),
    stop_event st = false ->
    let out := folder_names fs cancel pause_spins include_globs exclude_globs
                 max_mb skip_hidden gitignore_rules content_filter_on
                 match_folder match_content root dirs st in
    emits cancel
          (flat_map (folder_hit fs include_globs exclude_globs max_mb
                       skip_hidden gitignore_rules content_filter_on
                       match_folder match_content root) dirs)
          (length dirs) st (fst out)
    /\ stop_event (fst out) = false
    /\ snd out = false.
Proof.
  induction dirs as [|dname rest IH]; intros st Hs; cbv zeta;
    cbn [folder_names flat_map length fst snd].
  - split; [apply emits_refl|]; split; [exact Hs | reflexivity].
  - destruct (@checked_clear st Hs) as (E & Hchk & Hs2); rewrite E.
    set (st2 := pause_loop cancel pause_spins _) in *.
    destruct (@folder_dir_exact root dname st2 Hs2) as (Hd & Hs3 & Hesc).
    destruct (folder_dir fs cancel pause_spins include_globs exclude_globs
                max_mb skip_hidden gitignore_rules content_filter_on
                match_folder match_content root dname st2) as [st3 esc];
      cbn [fst snd] in *; subst esc.
    destruct (IH st3 Hs3) as (Hr & Hs4 & Hesc).
    split; [|split; assumption].
    exact (emits_trans (emits_trans Hchk Hd) Hr).
Qed.

Lemma folder_dirs_exact :
  forall (entries : list walk_entry) (st : TabState),
    stop_event st = false ->
    let out := folder_dirs fs cancel pause_spins include_globs exclude_globs
                 max_mb skip_hidden gitignore_rules content_filter_on
                 match_folder match_content entries st in
    emits cancel
          (folder_hits fs include_globs exclude_globs max_mb skip_hidden
                       gitignore_rules content_filter_on match_folder
                       match_content entries)
          (folders_counted exclude_globs entries) st (fst out)
    /\ stop_event (fst out) = false
    /\ snd out = false.
Proof.
  induction entries as [|[[root dirs] files] rest IH]; intros st Hs;
    cbv zeta; cbn [folder_dirs fst snd].
  - split; [apply emits_refl|]; split; [exact Hs | reflexivity].
  - assert (E : stop_is_set cancel st = (false, snd (stop_is_set cancel st)))
      by (unfold stop_is_set; rewrite Hs, never; reflexivity).
    rewrite E.
    pose proof (emits_stop_is_set cancel st) as H1.
    assert (Hs1 : stop_event (snd (stop_is_set cancel st)) = false)
      by (destruct H1 as (_ & _ & _ & C); apply C; assumption).
    match goal with
    | |- context [log_put ?msg ?s] =>
        pose proof (emits_trans H1 (emits_log_put cancel msg s)) as Hlog;
        set (st2 := log_put msg s) in *
    end.
    assert (Hs2 : stop_event st2 = false) by exact Hs1.
    destruct (@folder_names_exact root (exclude_dirs exclude_globs dirs) st2
                Hs2)
      as (Hn & Hs3 & Hesc).
    destruct (folder_names fs cancel pause_spins include_globs exclude_globs
                max_mb skip_hidden gitignore_rules content_filter_on
                match_folder match_content root
                (exclude_dirs exclude_globs dirs) st2) as [st3 esc];
      cbn [fst snd] in *; subst esc.
    destruct (IH st3 Hs3) as (Hr & Hs4 & Hesc).
    split; [|split; assumption].
    unfold folder_hits, folders_counted; cbn [flat_map fst snd].
    rewrite length_app.
    exact (emits_trans (emits_trans Hlog Hn) Hr).
Qed.

End FolderExact.

(** X25. A run of the FolderName worker that nobody stops adds exactly
    the records of the subdirectories the exclude globs leave, in
    traversal order, whose name the folder matcher accepts and, with the
    content filter on, that hold a counted file with an accepted line.
    The count a record carries is the number of counted files of the
    folder with the filter off, and the number of counted files up to and
    including the first one with an accepted line with the filter on.
    The counter advances by the number of subdirectories considered. *)
Theorem folder_worker_results (host : host_re)
    (fs : filesystem) (cancel : nat -> bool) (pause_spins : nat -> nat)
    (include_globs exclude_globs : list str) (max_mb : Q)
    (depth_limit : option Z) (skip_hidden : bool)
    (gitignore_rules : list rule)
    (folder_pat : str) (folder_regex folder_case folder_whole : bool)
    (content_filter_on : bool) (content_pat : str)
    (content_regex content_case content_whole : bool)
    (mf mc : matcher) (st : TabState) :
  (forall k, cancel k = false) ->
  stop_event st = false ->
  compile_matcher host folder_pat folder_regex folder_case folder_whole
  = Ok mf ->
  content_matcher host content_filter_on content_pat content_regex content_case
                  content_whole = Ok mc ->
  let entries := walk_with_depth fs depth_limit skip_hidden gitignore_rules
                                 (exclude_dirs exclude_globs) in
  let st' := fst (worker_folder host fs cancel pause_spins include_globs
                    exclude_globs max_mb depth_limit skip_hidden
                    gitignore_rules folder_pat folder_regex folder_case
                    folder_whole content_filter_on content_pat content_regex
                    content_case content_whole st) in
  result_q st'
  = result_q st
    ++ folder_hits fs include_globs exclude_globs max_mb skip_hidden
                   gitignore_rules content_filter_on mf mc entries
  /\ files_scanned st'
     = files_scanned st + folders_counted exclude_globs entries.
Proof.
  intros Hk Hs Hf Hc; cbv zeta; unfold worker_folder; rewrite Hf, Hc.
  destruct (@folder_dirs_exact fs cancel pause_spins include_globs
              exclude_globs max_mb skip_hidden gitignore_rules
              content_filter_on mf mc
              (compile_matcher_total _ _ _ _ _ Hf)
              (content_matcher_total _ _ _ _ _ _ Hc) Hk
              (walk_with_depth fs depth_limit skip_hidden gitignore_rules
                               (exclude_dirs exclude_globs)) st Hs)
    as ((R & F & _) & _ & Hesc).
  destruct (folder_dirs _ _ _ _ _ _ _ _ _ _ _ _ st) as [st1 esc];
    cbn [fst snd] in *; subst esc; cbn [fst stop_set result_q files_scanned].
  split; assumption.
Qed.

Lemma folder_worker_results_witness :
  result_q (fst (worker_folder no_host demo_fs never_cancel never_pause
                   [] [] 0%Q None false [] (s_ "sub") false true false
                   false [] false false false new_run))
  = result_q new_run
    ++ folder_hits demo_fs [] [] 0%Q false [] false
         (fun line => Some (contains (s_ "sub") line))
         (fun _ => Some true)
         (walk_with_depth demo_fs None false [] (exclude_dirs []))
  /\ files_scanned
       (fst (worker_folder no_host demo_fs never_cancel never_pause [] [] 0%Q
               None false [] (s_ "sub") false true false
               false [] false false false new_run))
     = files_scanned new_run
       + folders_counted [] (walk_with_depth demo_fs None false []
                                             (exclude_dirs [])).
Proof.
  apply (@folder_worker_results no_host demo_fs never_cancel never_pause
           [] [] 0%Q None false [] (s_ "sub") false true false
           false [] false false false
           (fun line => Some (contains (s_ "sub") line))
           (fun _ => Some true) new_run);
    reflexivity.
Defined.
